(** * PDBminer: sequence reconciliation and coverage engine

    A shallow embedding of the alignment step of
    [program/scripts/PDBminer_functions.py] (functions [to_ranges],
    [alignment], [numerical_alignment], [get_AA_pos],
    [remove_missing_residues], [get_mutations], [get_all_discrepancies],
    [get_coverage], [align_uniprot_pdb] and [align_alphafold]) and the
    properties of it that the specification states.

    Conventions of the embedding:
    - Python [int] is [Z]; a Python [str] is [string]; the one-character
      strings that fill the columns of a data frame are [ascii].
    - A pandas data frame is the list of its rows, in row order.
    - A numpy array of positions is a [list Z].  The arrays are built as
      [float64] and cast back with [astype(int)]; residue numbers are far
      inside the range in which that round trip is exact.
    - Python exceptions are the [Raise] outcome of the [result] type.
    - Library functions that are not part of the repository (Biopython's
      [seq1] and [pairwise2.align.localms], the iteration order of the
      built-in [set]) are variables of the sections that use them. *)

From Stdlib Require Import ZArith QArith List String Ascii DecimalString Lia.
From stdpp Require Import base decidable option list gmap strings sorting.

Open Scope Z_scope.

(** ** Python values and primitives *)

Module Py.

(** The exceptions the modelled code can raise. *)
Inductive exn : Type :=
| IndexError
| ValueError
| KeyError.

(** Outcome of a call: a value or a raised exception. *)
Inductive result (A : Type) : Type :=
| Ok (a : A)
| Raise (e : exn).
Arguments Ok {A} a.
Arguments Raise {A} e.

Definition bind {A B} (m : result A) (k : A -> result B) : result B :=
  match m with
  | Ok a => k a
  | Raise e => Raise e
  end.

(** [str(n)] for an [int]. *)
Definition str_of_Z (z : Z) : string := NilZero.string_of_int (Z.to_int z).

(** [sep.join(l)]. *)
Fixpoint join (sep : string) (l : list string) : string :=
  match l with
  | [] => EmptyString
  | [s] => s
  | s :: l' => String.append s (String.append sep (join sep l'))
  end.

(** [s in t] for two strings: [s] occurs in [t] as a substring. *)
Fixpoint contains (t s : string) : bool :=
  String.prefix s t ||
  match t with
  | EmptyString => false
  | String _ t' => contains t' s
  end.

(** [l[i]], with the [IndexError] of an index past the end. *)
Definition getitem {A} (l : list A) (i : nat) : result A :=
  match l !! i with
  | Some x => Ok x
  | None => Raise IndexError
  end.

(** [l[i] = x], with the [IndexError] of an index past the end. *)
Definition setitem {A} (l : list A) (i : nat) (x : A) : result (list A) :=
  if decide (i < length l)%nat then Ok (<[i := x]> l) else Raise IndexError.

(** [l.insert(i, x)]: before index [i], at the end when [i] is past it. *)
Definition list_insert_at {A} (l : list A) (i : nat) (x : A) : list A :=
  take i l ++ x :: drop i l.

(** [l.index(x)] when [x in l]: the index of the first occurrence. *)
Fixpoint index_of {A} `{EqDecision A} (x : A) (l : list A) : nat :=
  match l with
  | [] => 0
  | y :: l' => if decide (y = x) then 0%nat else S (index_of x l')
  end.

(** [min(l)] and [max(l)]; both raise [ValueError] on an empty list. *)
Definition min_list (l : list Z) : result Z :=
  match l with
  | [] => Raise ValueError
  | x :: l' => Ok (foldr Z.min x l')
  end.

Definition max_list (l : list Z) : result Z :=
  match l with
  | [] => Raise ValueError
  | x :: l' => Ok (foldr Z.max x l')
  end.

(** [sorted(l)] on integers. *)
Definition sorted (l : list Z) : list Z := merge_sort Z.le l.

(** [list(range(a, b))]. *)
Definition range (a b : Z) : list Z := seqZ a (b - a).

(** [str(l)] for a list of strings none of which holds a quote, a
    backslash or a non-printable character: the [repr] of each item
    between single quotes. *)
Definition str_of_list (l : list string) : string :=
  String.append "[" (String.append
    (join ", " (map (fun s => String.append "'" (String.append s "'")) l)) "]").

(** [s.replace(c, empty)] for a one-character [c]: the occurrences of [c] are dropped. *)
Fixpoint remove_char (c : ascii) (s : string) : string :=
  match s with
  | EmptyString => EmptyString
  | String d s' => if Ascii.eqb c d then remove_char c s' else String d (remove_char c s')
  end.

End Py.

Import Py.

#[global] Instance result_ret : MRet result := fun A a => Ok a.
#[global] Instance result_bind : MBind result := fun A B k m => Py.bind m k.

(** ** Data model *)

(** A residue of a chain as Biopython's parser gives it: the three-letter
    name and, from [residue.id], the sequence number and the insertion code
    (a blank when there is none). *)
Record residue : Type := {
  resname : string;
  resseq : Z;
  icode : string
}.

(** One entry of [structure.header['missing_residues']]. *)
Record missing_residue : Type := {
  mr_chain : string;
  mr_res_name : string;
  mr_ssseq : Z
}.

(** The part of [structure.header] that the alignment step reads. *)
Record header : Type := {
  has_missing_residues : bool;
  missing_residues : list missing_residue
}.

(** The two parallel lists of a chain, [pos_pdb] and [AA_pdb].  They are
    Python list objects shared between [align_uniprot_pdb] and its callees,
    which update them in place. *)
Record chain_lists : Type := {
  pos_pdb : list Z;
  AA_pdb : list string
}.

Definition set_AA (st : chain_lists) (AA : list string) : chain_lists :=
  {| pos_pdb := pos_pdb st; AA_pdb := AA |}.

(** A row of the alignment-column table [df]. *)
Record row : Type := {
  uniprot_seq : ascii;
  uniprot_pos : Z;
  pdb_seq : ascii;
  pdb_pos : Z
}.

#[global] Instance row_eq_dec : EqDecision row.
Proof. solve_decision. Defined.

(** ** Residue extraction and gap repair: [get_AA_pos] *)

(** [d.drop_duplicates(keep="first")] on a frame whose rows are the pairs
    of the list: a row is dropped when an equal row (all columns equal)
    came before it. *)
Fixpoint drop_duplicates_from {A} `{EqDecision A} (seen l : list A) : list A :=
  match l with
  | [] => []
  | x :: l' =>
      if decide (x ∈ seen) then drop_duplicates_from seen l'
      else x :: drop_duplicates_from (x :: seen) l'
  end.

Definition drop_duplicates {A} `{EqDecision A} (l : list A) : list A :=
  drop_duplicates_from [] l.

(** The two [while AA_pdb[0] == "X"] loops: drop the first item of both
    lists while the first residue is "X".  [AA_pdb[0]] raises on an empty
    list, the slice [pos_pdb[1:]] never does. *)
Fixpoint strip_X (AA : list string) (pos : list Z) : result (list string * list Z) :=
  match AA with
  | [] => Raise IndexError
  | a :: AA' =>
      if decide (a = "X"%string) then strip_X AA' (tail pos) else Ok (AA, pos)
  end.

(** One turn of the gap-filling loop, at index [i]. *)
Definition fill_step (st : result (list string * list Z)) (i : nat)
  : result (list string * list Z) :=
  '(AA, pos) ← st;
  a ← getitem pos i;
  b ← getitem pos (i + 1);
  if decide (a + 1 ≠ b)
  then Ok (list_insert_at AA (i + 1) "-"%string, list_insert_at pos (i + 1) (a + 1))
  else Ok (AA, pos).

(** The gap-filling loop: [range(len(pos_pdb)-1)] is evaluated once, before
    the first insertion. *)
Definition fill_gaps (AA : list string) (pos : list Z) : result (list string * list Z) :=
  foldl fill_step (Ok (AA, pos)) (seq 0 (length pos - 1)).

(** The tail of [get_AA_pos], from the test on [sorted(pos_pdb)] on. *)
Definition repair_numbering (AA : list string) (pos : list Z)
  : result (list string * list Z) :=
  lo ← min_list pos;
  hi ← max_list pos;
  if decide (sorted pos = range lo (hi + 1)) then Ok (AA, pos)
  else if decide (size (list_to_set pos : gset Z) ≠ length pos) then Ok ([], [])
  else fill_gaps AA pos.

Section Extraction.

(** [Bio.SeqUtils.seq1]: three-letter residue names to one-letter codes. *)
Variable seq1 : string -> string.

(** The first loop of [get_AA_pos]: residue letters, and sequence numbers
    shifted by the number [n] of insertion codes met so far. *)
Fixpoint extract (rs : list residue) (n : Z) : list string * list Z :=
  match rs with
  | [] => ([], [])
  | r :: rs' =>
      let n' := if decide (icode r = " "%string) then n else n + 1 in
      let '(AA, pos) := extract rs' n' in
      (seq1 (resname r) :: AA, (resseq r + n') :: pos)
  end.

Definition get_AA_pos (chain_str : string) (model : gmap string (list residue))
  : result (list string * list Z) :=
  chain ← match model !! chain_str with
          | Some rs => Ok rs
          | None => Raise KeyError
          end;
  let '(AA0, pos0) := extract chain 0 in
  let AA1 := map (fun item => if decide (item = EmptyString) then "-"%string else item) AA0 in
  if decide (size (list_to_set AA1 : gset string) ≠ 1%nat) then
    '(AA2, pos2) ← strip_X AA1 pos0;
    '(AA3, pos3) ← strip_X (reverse AA2) (reverse pos2);
    let AA4 := reverse AA3 in
    let pos4 := reverse pos3 in
    let AA5 := map (fun item => if decide (item = "X"%string) then "-"%string else item) AA4 in
    if decide ("-"%string ∈ AA5 ∧ (length AA5 < 5)%nat) then Ok ([], [])
    else if decide (length pos4 ≠ length AA5) then Raise ValueError
    else
      let d := drop_duplicates (zip pos4 AA5) in
      repair_numbering (d.*2) (d.*1)
  else Ok ([], []).

(** ** Reported missing residues: [remove_missing_residues] *)

(** The records of the header that belong to the chain: [chain_str in
    record['chain']] is a substring test. *)
Definition missing_of (h : header) (chain_str : string) : list missing_residue :=
  filter (fun m => contains (mr_chain m) chain_str = true) (missing_residues h).

(** [AA_pdb[pos_pdb.index(position)] = "-"] for a reported position. *)
Definition blank_position (st : result chain_lists) (position : Z) : result chain_lists :=
  s ← st;
  if decide (position ∈ pos_pdb s)
  then AA ← setitem (AA_pdb s) (index_of position (pos_pdb s)) "-"%string;
       Ok (set_AA s AA)
  else Ok s.

(** One turn of [for AA in AA_pdb]: the iterator reads item [i] of the
    list as it is now. *)
Definition blank_X (st : result chain_lists) (i : nat) : result chain_lists :=
  s ← st;
  AA ← getitem (AA_pdb s) i;
  if decide (AA = "X"%string)
  then AA' ← setitem (AA_pdb s) (index_of AA (AA_pdb s)) "-"%string;
       Ok (set_AA s AA')
  else Ok s.

(** Returns the lists after the in-place updates (the returned [AA_pdb] is
    the list object of the store) and the warning. *)
Definition remove_missing_residues (h : header) (st : chain_lists) (chain_str : string)
  : result (chain_lists * string) :=
  let missing := missing_of h chain_str in
  let missing_AA := map (fun m => seq1 (mr_res_name m)) missing in
  let missing_pos := map mr_ssseq missing in
  let t := join EmptyString missing_AA in
  let warning := if contains t "HHH"
                 then "The structure likely contains an expression tag"%string
                 else EmptyString in
  st1 ← (if decide (missing_AA ≠ [])
         then foldl blank_position (Ok st) missing_pos
         else Ok st);
  st2 ← foldl blank_X (Ok st1) (seq 0 (length (AA_pdb st1)));
  Ok (st2, warning).

End Extraction.

(** ** Alignment and position mapping *)

Section Alignment.

(** [pairwise2.align.localms(a, b, 1, -10, -20, -10)]: the list of the
    best local alignments, each reduced to its two aligned sequences. *)
Variable localms : string -> string -> list (string * string).

(** Python returns two empty lists when no alignment is found, which the
    caller tells from an aligned pair by [uniprot_aligned != []]; here
    that is [None]. *)
Definition alignment (uniprot_sequence : string) (AA : list string)
  : option (string * string) :=
  let pdb_sequence := join EmptyString AA in
  match localms uniprot_sequence pdb_sequence with
  | a :: _ => Some a
  | [] => None
  end.

End Alignment.

(** The [for] loop of [numerical_alignment]: a zero for every column up to
    the first one that is not a pad, then all of [positions] at once. *)
Fixpoint leading_pads (aligned : list ascii) (positions pos_list : list Z) : list Z :=
  match aligned with
  | [] => pos_list
  | c :: rest =>
      if decide (c = "-"%char) then leading_pads rest positions (pos_list ++ [0])
      else pos_list ++ positions
  end.

Definition numerical_alignment (aligned : string) (positions : list Z) : list Z :=
  let pos_list := leading_pads (list_ascii_of_string aligned) positions [] in
  if decide (length pos_list < String.length aligned)%nat
  then pos_list ++ replicate (String.length aligned - length pos_list) 0
  else pos_list.

(** [pd.DataFrame] from four columns: a [ValueError] unless they all have
    the same length. *)
Fixpoint zip_rows (us : list ascii) (up : list Z) (ps : list ascii) (pp : list Z)
  : list row :=
  match us, up, ps, pp with
  | u :: us', n :: up', p :: ps', m :: pp' =>
      {| uniprot_seq := u; uniprot_pos := n; pdb_seq := p; pdb_pos := m |}
        :: zip_rows us' up' ps' pp'
  | _, _, _, _ => []
  end.

Definition data_frame (us : list ascii) (up : list Z) (ps : list ascii) (pp : list Z)
  : result (list row) :=
  if decide (length us = length up ∧ length up = length ps ∧ length ps = length pp)
  then Ok (zip_rows us up ps pp)
  else Raise ValueError.

(** ** Discrepancies and trimming: [get_all_discrepancies] *)

(** [np.split(a, np.where(np.diff(a) != stepsize)[0]+1)]: the maximal runs
    of [a] in which each item is the one before plus [stepsize]; one empty
    run for an empty array. *)
Fixpoint split_runs (stepsize : Z) (a : list Z) : list (list Z) :=
  match a with
  | [] => [[]]
  | x :: a' =>
      match a' with
      | [] => [[x]]
      | y :: _ =>
          if decide (y - x ≠ stepsize) then [x] :: split_runs stepsize a'
          else match split_runs stepsize a' with
               | run :: runs => (x :: run) :: runs
               | [] => [[x]]
               end
      end
  end.

Definition attachment_warning (terminal : string) (l : nat) : string :=
  String.append "attachment at " (String.append terminal (String.append
    "-terminal with length " (String.append (str_of_Z (Z.of_nat l))
    " have been removed from coverage"))).

(** The hotspots: reference positions of the rows whose two residues differ. *)
Definition hotspots (df : list row) : list Z :=
  map uniprot_pos (filter (fun r => uniprot_seq r ≠ pdb_seq r) df).

(** One turn of [for i in hotspot]; the state is [removal_values] and
    [warnings]. *)
Definition trim_step (seq_start seq_end : Z) (st : list Z * list string) (i : list Z)
  : list Z * list string :=
  if decide (2 < length i)%nat then
    let st1 :=
      if decide (seq_start ∈ i)
      then (i ++ st.1, st.2 ++ [attachment_warning "N" (length i)])
      else st in
    if decide (seq_end ∈ i)
    then (i ++ st1.1, st1.2 ++ [attachment_warning "C" (length i)])
    else st1
  else st.

(** [removal_values] and [warnings] of [get_all_discrepancies]. *)
Definition removals (df : list row) : result (list Z * list string) :=
  let mut_hotspot := hotspots df in
  seq_start ← getitem (map uniprot_pos df) 0;
  seq_end ← match last (map uniprot_pos df) with
            | Some x => Ok x
            | None => Raise IndexError
            end;
  n_ter_0 ← getitem (split_runs 0 mut_hotspot) 0;
  let st0 :=
    if decide (0 ∈ n_ter_0)
    then ([0], [attachment_warning "N" (length n_ter_0)])
    else ([], []) in
  Ok (foldl (trim_step seq_start seq_end) st0 (split_runs 1 mut_hotspot)).

(** The rendering of a discrepancy or of a resolved mutation:
    reference residue, reference position, structure residue. *)
Definition render_row (r : row) : string :=
  String (uniprot_seq r) (String.append (str_of_Z (uniprot_pos r)) (String (pdb_seq r) EmptyString)).

Definition get_all_discrepancies (df : list row)
  : result (list row * list string * list string) :=
  '(removal_values, warnings) ← removals df;
  let df' := filter (fun r => uniprot_pos r ∉ removal_values) df in
  let mutations_in_all := map render_row (filter (fun r => uniprot_seq r ≠ pdb_seq r) df') in
  Ok (df', mutations_in_all, warnings).

(** ** Coverage: [to_ranges] and [get_coverage] *)

(** [itertools.groupby]: the maximal runs of consecutive items with equal
    keys, each with its key. *)
Fixpoint groupby {A K} `{EqDecision K} (key : A -> K) (l : list A) : list (K * list A) :=
  match l with
  | [] => []
  | x :: l' =>
      match groupby key l' with
      | (k, g) :: gs =>
          if decide (key x = k) then (k, x :: g) :: gs
          else (key x, [x]) :: (k, g) :: gs
      | [] => [(key x, [x])]
      end
  end.

(** [enumerate(l)]. *)
Definition enumerate {A} (l : list A) : list (Z * A) := zip (seqZ 0 (Z.of_nat (length l))) l.

(** What the generator yields for one group: [group[0][1], group[-1][1]]. *)
Definition group_bounds (g : list (Z * Z)) : result (Z * Z) :=
  first ← getitem g 0;
  match last g with
  | Some final => Ok (first.2, final.2)
  | None => Raise IndexError
  end.

Section SetOrder.

(** [list(set(l))] on integers: the items of the set in its iteration
    order, which Python leaves to the implementation. *)
Variable set_iter : list Z -> list Z.

Definition to_ranges (iterable : list Z) : result (list (Z * Z)) :=
  let iterable' := sorted (set_iter iterable) in
  mapM (fun kg => group_bounds kg.2)
       (groupby (fun t : Z * Z => t.2 - t.1) (enumerate iterable')).

(** [get_coverage]: the ranges, and their rendering.  [str] of the list
    of pairs separates the pairs with [", "] and the replacement turns
    each ["), ("] into [");("]. *)
Definition render_range (r : Z * Z) : string :=
  String.append "(" (String.append (str_of_Z r.1) (String.append ", "
    (String.append (str_of_Z r.2) ")"))).

Definition render_ranges (rs : list (Z * Z)) : string :=
  String.append "[" (String.append (join ";" (map render_range rs)) "]").

Definition get_coverage (df : list row) : result string :=
  ranges_covered ← to_ranges (map uniprot_pos df);
  Ok (render_ranges ranges_covered).

(** ** Mutation resolver: [get_mutations] *)

Definition not_in_range (position : Z) : string :=
  String.append "Mutation on position " (String.append (str_of_Z position) " not in range").

Definition resolve (df : list row) (muts : result (list string)) (position : Z)
  : result (list string) :=
  ms ← muts;
  if decide (position ∈ map uniprot_pos df) then
    let new_df := filter (fun r => uniprot_pos r = position) df in
    r ← getitem new_df 0;
    Ok (ms ++ [render_row r])
  else Ok (ms ++ [not_in_range position]).

Definition get_mutations (mut_pos : list Z) (df : list row) : result (list string) :=
  foldl (resolve df) (Ok []) (set_iter mut_pos).

End SetOrder.

(** ** The per-structure driver: [align_uniprot_pdb] *)

(** The queried positions: a list of integers, or the string ["NA"] when no
    mutation was asked for ([type(mut_pos) == list] tells them apart). *)
Inductive mutation_positions : Type :=
| NoMutations
| Positions (l : list Z).

(** The lists that [align_uniprot_pdb] fills, one item per aligned chain.
    An item of [mutation_list] is the string ["NA"] or a list. *)
Record columns : Type := {
  chains : list string;
  coverage : list string;
  mutational_column : list (list string);
  mutation_list : list (string + list string);
  warning_column : list string
}.

Definition no_columns : columns :=
  {| chains := []; coverage := []; mutational_column := [];
     mutation_list := []; warning_column := [] |}.

(** What one turn of the loop over the chains does next: go on with the
    next chain, or leave the function with a value. *)
Inductive flow : Type :=
| Next (acc : columns)
| Return (output_array : list string).

(** [np.array(['', '', '', '', ''], dtype=object)]. *)
Definition empty_output : list string :=
  [EmptyString; EmptyString; EmptyString; EmptyString; EmptyString].

Definition str_of_item (x : string + list string) : string :=
  match x with
  | inl s => s
  | inr l => str_of_list l
  end.

(** The string of the warnings of one chain: the items of [chain_warning]
    joined with a comma, then brackets and quotes removed. *)
Definition render_chain_warning (chain_warning : list (string + list string)) : string :=
  remove_char "'" (remove_char "]" (remove_char "["
    (join "," (map str_of_item chain_warning)))).

(** The five strings built after the loop. *)
Definition render_columns (acc : columns) : list string :=
  let chains_string := join ";" (chains acc) in
  let coverage_string := join ";" (coverage acc) in
  let mutational_column_string := join ";" (map str_of_list (mutational_column acc)) in
  let mutation_list_string := join ";" (map str_of_item (mutation_list acc)) in
  let warning_column_string := join ";" (warning_column acc) in
  let warning_column_string' :=
    if decide (warning_column_string = ","%string) then "NA"%string
    else match warning_column_string with
         | String "," rest => rest
         | _ => warning_column_string
         end in
  [chains_string; coverage_string; mutational_column_string;
   mutation_list_string; warning_column_string'].

Section Driver.

Variable seq1 : string -> string.
Variable localms : string -> string -> list (string * string).
Variable set_iter : list Z -> list Z.

(** The part of the loop body that runs when an alignment was found. *)
Definition aligned_chain (uniprot_numbering : list Z) (mut_pos : mutation_positions)
    (acc : columns) (chain_str : string) (pos : list Z)
    (chain_warning : list (string + list string))
    (uniprot_aligned pdb_aligned : string) : result columns :=
  let uniprot_pos_list := numerical_alignment uniprot_aligned uniprot_numbering in
  let pdb_pos_list := numerical_alignment pdb_aligned pos in
  df ← data_frame (list_ascii_of_string uniprot_aligned) uniprot_pos_list
                  (list_ascii_of_string pdb_aligned) pdb_pos_list;
  let df := filter (fun r => pdb_seq r ≠ "-"%char) df in
  mutational_column' ←
    match mut_pos with
    | Positions l =>
        muts ← get_mutations set_iter l df;
        Ok (mutational_column acc ++ [muts])
    | NoMutations => Ok (mutational_column acc)
    end;
  '(df', mutations_in_all, warnings) ← get_all_discrepancies df;
  let chain_warning' := chain_warning ++ [inr warnings] in
  let mutation_item :=
    if decide (mutations_in_all = []) then inl "NA"%string else inr mutations_in_all in
  ranges_covered ← get_coverage set_iter df';
  Ok {| chains := chains acc ++ [chain_str];
        coverage := coverage acc ++ [ranges_covered];
        mutational_column := mutational_column';
        mutation_list := mutation_list acc ++ [mutation_item];
        warning_column := warning_column acc ++ [render_chain_warning chain_warning'] |}.

(** The step of the loop body under [if structure.header['has_missing_residues']
    == True]: the two lists of the chain after it, and [chain_warning]. *)
Definition missing_step (h : header) (chain_str : string) (pos : list Z) (AA : list string)
  : result (chain_lists * list (string + list string)) :=
  if has_missing_residues h
  then '(st, warning) ← remove_missing_residues seq1 h
                          {| pos_pdb := pos; AA_pdb := AA |} chain_str;
       Ok (st, [inl warning])
  else Ok ({| pos_pdb := pos; AA_pdb := AA |}, []).

(** One turn of [for chain_str in self_chains]. *)
Definition chain_body (model : gmap string (list residue)) (h : header)
    (uniprot_sequence : string) (uniprot_numbering : list Z)
    (mut_pos : mutation_positions) (acc : columns) (chain_str : string)
  : result flow :=
  '(AA, pos) ← get_AA_pos seq1 chain_str model;
  if decide (AA = []) then Ok (Return empty_output)
  else
    '(st, chain_warning) ← missing_step h chain_str pos AA;
    match alignment localms uniprot_sequence (AA_pdb st) with
    | Some (uniprot_aligned, pdb_aligned) =>
        acc' ← aligned_chain uniprot_numbering mut_pos acc chain_str (pos_pdb st)
                 chain_warning uniprot_aligned pdb_aligned;
        Ok (Next acc')
    | None => Ok (Next acc)
    end.

Fixpoint chain_loop (model : gmap string (list residue)) (h : header)
    (uniprot_sequence : string) (uniprot_numbering : list Z)
    (mut_pos : mutation_positions) (self_chains : list string) (acc : columns)
  : result flow :=
  match self_chains with
  | [] => Ok (Next acc)
  | chain_str :: rest =>
      f ← chain_body model h uniprot_sequence uniprot_numbering mut_pos acc chain_str;
      match f with
      | Next acc' =>
          chain_loop model h uniprot_sequence uniprot_numbering mut_pos rest acc'
      | Return output_array => Ok (Return output_array)
      end
  end.

(** [align_uniprot_pdb], from the point where the model and the structure
    have been read. *)
Definition align_uniprot_pdb (model : gmap string (list residue)) (h : header)
    (uniprot_sequence : string) (uniprot_numbering : list Z)
    (mut_pos : mutation_positions) (self_chains : list string)
  : result (list string) :=
  f ← chain_loop model h uniprot_sequence uniprot_numbering mut_pos self_chains no_columns;
  match f with
  | Next acc => Ok (render_columns acc)
  | Return output_array => Ok output_array
  end.

End Driver.

(** ** Predicted models: [align_alphafold] *)

(** A C-alpha atom of the predicted model: residue name and confidence
    score (the B-factor column).  A finite float is the rational it stands
    for. *)
Record atom : Type := {
  residue_name : string;
  b_factor : Q
}.

(** An item of [mutation_positions]: an integer, or a string (the items of
    the string ["NA"] are strings as well). *)
Inductive query : Type :=
| QInt (z : Z)
| QStr (s : string).

#[global] Instance query_eq_dec : EqDecision query.
Proof. solve_decision. Defined.

Definition str_of_query (q : query) : string :=
  match q with
  | QInt z => str_of_Z z
  | QStr s => s
  end.

(** A row of the intermediate frame of [align_alphafold]. *)
Record af_row : Type := {
  position : Z;
  sequence : ascii;
  PDDLT : Q;
  category : string
}.

Definition confidence_category (score : Q) : string :=
  if Qlt_le_dec 70 score then "high"%string else "low"%string.

Fixpoint af_rows (positions : list Z) (seq : list ascii) (conf : list Q) : list af_row :=
  match positions, seq, conf with
  | p :: ps, c :: cs, q :: qs =>
      {| position := p; sequence := c; PDDLT := q; category := confidence_category q |}
        :: af_rows ps cs qs
  | _, _, _ => []
  end.

(** The list [f] of range bounds: the first confident position, both sides
    of every break, the last confident position. *)
Fixpoint breaks (confident_seq : list Z) : list Z :=
  match confident_seq with
  | a :: (b :: _) as rest =>
      if decide (a + 1 ≠ b) then a :: b :: breaks rest else breaks rest
  | _ => []
  end.

(** [(f[::2][i], f[1::2][i])] for every [i] in [range(len(f[::2]))]. *)
Fixpoint bound_pairs (f : list Z) : result (list (Z * Z)) :=
  match f with
  | [] => Ok []
  | [_] => Raise IndexError
  | a :: b :: f' => ps ← bound_pairs f'; Ok ((a, b) :: ps)
  end.

(** The rows selected by [df.position == q]; a string equals no integer. *)
Definition select_position (df : list af_row) (q : query) : list af_row :=
  match q with
  | QInt z => filter (fun r => position r = z) df
  | QStr _ => []
  end.

(** The verdict for one queried position.  The truth value of the array
    [... .values == "high"] is false when it is empty, its item when it has
    one, and a [ValueError] when it has more. *)
Definition af_verdict (df : list af_row) (q : query) : result string :=
  if decide (q = QStr "NA") then Ok "NA"%string
  else
    is_high ← match select_position df q with
              | [] => Ok false
              | [r] => Ok (bool_decide (category r = "high"%string))
              | _ => Raise ValueError
              end;
    if is_high : bool then
      r ← getitem (select_position df q) 0;
      Ok (String (sequence r) (String.append (str_of_query q) (String (sequence r) EmptyString)))
    else Ok "Mutation not in range"%string.

Section Predicted.

Variable seq1 : string -> string.

Definition align_alphafold (ATOMS : list atom) (mutation_positions : list query)
  : result (string * string) :=
  let confidence_list := map b_factor ATOMS in
  let positions := seqZ 1 (Z.of_nat (length ATOMS)) in
  let seq := list_ascii_of_string (seq1 (join EmptyString (map residue_name ATOMS))) in
  if decide (length seq ≠ length ATOMS) then Raise ValueError
  else
    let df := af_rows positions seq confidence_list in
    let confident_seq :=
      map position (filter (fun r => category r = "high"%string) df) in
    match confident_seq, last confident_seq with
    | first :: _, Some final =>
        let f := first :: breaks confident_seq ++ [final] in
        cov ← bound_pairs f;
        AA_in_PDB ← mapM (af_verdict df) mutation_positions;
        Ok (render_ranges cov, join "," AA_in_PDB)
    | _, _ => Ok ("NA"%string, "NA"%string)
    end.

End Predicted.

(** ** The iteration order of [set] in CPython *)

(** A model of the hash table behind the built-in [set] of CPython 3
    ([Objects/setobject.c]) for integer keys and without deletions: open
    addressing in a table whose size is a power of two, a short linear scan
    followed by a perturbed jump, and a rebuild in a larger table once the
    table is three fifths full.  [list(set(l))] reads the table from slot 0
    upwards. *)
Module CPython.

Definition LINEAR_PROBES : Z := 9.
Definition PERTURB_SHIFT : Z := 5.
Definition PySet_MINSIZE : nat := 8.

(** [hash(n)] for an [int]. *)
Definition hash_int (n : Z) : Z :=
  let h := Z.sgn n * (Z.abs n mod (2 ^ 61 - 1)) in
  if decide (h = -1) then -2 else h.

Record setobject : Type := {
  table : list (option Z);
  fill : Z
}.

Definition mask (t : list (option Z)) : Z := Z.of_nat (length t) - 1.

(** Outcome of a probe: an unused slot, or a slot that holds the key. *)
Inductive found : Type :=
| Unused (i : nat)
| Active.

(** The [do ... while (probes--)] scan of [set_add_entry], from slot [i]. *)
Fixpoint scan (t : list (option Z)) (key : Z) (i probes : nat) : option found :=
  match t !! i with
  | Some None => Some (Unused i)
  | Some (Some k) =>
      if decide (k = key) then Some Active
      else match probes with
           | O => None
           | S p => scan t key (S i) p
           end
  | None => None
  end.

(** The [while (1)] loop of [set_add_entry]; the probe sequence reaches
    every slot, so a table with an unused slot never exhausts [fuel]. *)
Fixpoint probe (fuel : nat) (t : list (option Z)) (key i perturb : Z) : option found :=
  match fuel with
  | O => None
  | S fuel' =>
      let probes := if decide (i + LINEAR_PROBES ≤ mask t) then 9%nat else 0%nat in
      match scan t key (Z.to_nat i) probes with
      | Some s => Some s
      | None =>
          let perturb' := Z.shiftr perturb PERTURB_SHIFT in
          probe fuel' t key (Z.land (i * 5 + 1 + perturb') (mask t)) perturb'
      end
  end.

Definition find_slot (t : list (option Z)) (key : Z) : option found :=
  let hash := hash_int key in
  probe (length t + 16) t key (Z.land hash (mask t)) (hash mod 2 ^ 64).

(** [set_insert_clean]: the key is known to be absent. *)
Definition set_insert_clean (t : list (option Z)) (key : Z) : list (option Z) :=
  match find_slot t key with
  | Some (Unused i) => <[i := Some key]> t
  | _ => t
  end.

(** [set_table_resize]: the smallest power of two above [minused], at
    least [PySet_MINSIZE]; the keys are moved in table order. *)
Definition set_table_resize (so : setobject) (minused : Z) : setobject :=
  let newsize := Nat.max PySet_MINSIZE (Z.to_nat (2 ^ (Z.log2 minused + 1))) in
  let newtable :=
    foldl (fun t entry => match entry with
                          | Some key => set_insert_clean t key
                          | None => t
                          end)
          (replicate newsize None) (table so) in
  {| table := newtable; fill := fill so |}.

Definition set_add_entry (so : setobject) (key : Z) : setobject :=
  match find_slot (table so) key with
  | Some (Unused i) =>
      let so' := {| table := <[i := Some key]> (table so); fill := fill so + 1 |} in
      if decide (fill so' * 5 < mask (table so) * 3) then so'
      else set_table_resize so'
             (if decide (50000 < fill so') then fill so' * 2 else fill so' * 4)
  | _ => so
  end.

Definition empty_set : setobject :=
  {| table := replicate PySet_MINSIZE None; fill := 0 |}.

(** [list(set(l))]. *)
Definition set_iter (l : list Z) : list Z :=
  omap id (table (foldl set_add_entry empty_set l)).

End CPython.

(** ** Biopython's [seq1] on standard residue names *)

(** The one-letter codes of the twenty standard residues, as in
    [Bio.SeqUtils.seq1]. *)
Definition protein_letters_3to1 : list (string * string) :=
  [("ALA", "A"); ("CYS", "C"); ("ASP", "D"); ("GLU", "E"); ("PHE", "F");
   ("GLY", "G"); ("HIS", "H"); ("ILE", "I"); ("LYS", "K"); ("LEU", "L");
   ("MET", "M"); ("ASN", "N"); ("PRO", "P"); ("GLN", "Q"); ("ARG", "R");
   ("SER", "S"); ("THR", "T"); ("VAL", "V"); ("TRP", "W"); ("TYR", "Y")]%string.

Definition one_letter (name : string) : string :=
  match list_find (fun p : string * string => p.1 = name) protein_letters_3to1 with
  | Some (_, p) => p.2
  | None => "X"%string
  end.

(** [seq1] reads its argument three letters at a time; a name it does not
    know gives ["X"], letters left over at the end are dropped. *)
Fixpoint seq1_standard (s : string) : string :=
  match s with
  | String a (String b (String c rest)) =>
      String.append (one_letter (String a (String b (String c EmptyString))))
                    (seq1_standard rest)
  | _ => EmptyString
  end.

(** ** An aligner for sequences that agree *)

(** What [pairwise2.align.localms] returns when the structure's sequence is
    the reference itself: the one alignment of the sequence with itself.
    For any other pair this stand-in reports no alignment; it serves the
    examples, where the two sequences agree or alignment is to fail. *)
Definition localms_same (a b : string) : list (string * string) :=
  if decide (a = b /\ a ≠ EmptyString) then [(a, b)] else [].

(** ** Ranking of the results: [order_results/lrrk2.py] *)

(** The value of [mutation_ordering]: the string ["NA"] or an integer. *)
Inductive ordering : Type :=
| NA
| Index (j : Z).

#[global] Instance ordering_eq_dec : EqDecision ordering.
Proof. solve_decision. Defined.

(** The rank of one structure among the mutations of interest.  The
    argument [protein_mutations] is the string ["NA"] (here [None]) or the
    list of the mutations found in the chain of the protein. *)
Definition mutation_ordering (mutations : list string)
    (protein_mutations : option (list string)) : ordering :=
  match protein_mutations with
  | Some ks =>
      foldl (fun mutation_ordering '(j, m) =>
               foldl (fun mutation_ordering k =>
                        if contains k m && bool_decide (mutation_ordering = NA)
                        then Index j else mutation_ordering)
                     mutation_ordering ks)
            NA (enumerate mutations)
  | None => Index (Z.of_nat (length mutations))
  end.

(** The integer the table is sorted by: a rank left at ["NA"] becomes
    [len(mutations) + 1]. *)
Definition sort_key (mutations : list string) (mutation_ordering : ordering) : Z :=
  match mutation_ordering with
  | NA => Z.of_nat (length mutations) + 1
  | Index j => j
  end.

(** ** The last pass over the table: [cleanup_all] and [filter_all] *)

(** [s.replace(old, new)] for a non-empty [old]: the occurrences of [old]
    are found from the left and do not overlap.  [skip] counts the
    characters of a replaced occurrence that are still to be passed. *)
Fixpoint replace_from (old new : string) (skip : nat) (s : string) : string :=
  match s with
  | EmptyString => EmptyString
  | String c s' =>
      match skip with
      | S k => replace_from old new k s'
      | O =>
          if String.prefix old s
          then String.append new (replace_from old new (String.length old - 1) s')
          else String c (replace_from old new 0 s')
      end
  end.

Definition replace (old new s : string) : string := replace_from old new 0 s.

(** [s.split(sep)] for a one-character [sep]. *)
Fixpoint split (sep : ascii) (s : string) : list string :=
  match s with
  | EmptyString => [EmptyString]
  | String c s' =>
      if decide (c = sep) then EmptyString :: split sep s'
      else match split sep s' with
           | p :: ps => String c p :: ps
           | [] => [String c EmptyString]
           end
  end.

(** [c.isspace()] for a character below 256. *)
Definition isspace (c : ascii) : bool :=
  let n := nat_of_ascii c in
  ((9 <=? n) && (n <=? 13) || (28 <=? n) && (n <=? 32) || (n =? 133) || (n =? 160))%nat.

(** The characters of [s] up to the first white space. *)
Fixpoint word (s : string) : string :=
  match s with
  | EmptyString => EmptyString
  | String c s' => if isspace c then EmptyString else String c (word s')
  end.

(** [s.split()[0]]: the first run of characters that are not white space;
    an [IndexError] when there is none. *)
Fixpoint first_word (s : string) : result string :=
  match s with
  | EmptyString => Raise IndexError
  | String c s' => if isspace c then first_word s' else Ok (word s)
  end.

(** The two loops at the end of [cleanup_all], also in [filter_all], for
    one row: a cell whose pieces are all ["NA"] becomes ["NA"], and so does
    a cell of warnings whose pieces are the empty string and the comma. *)
Definition cleanup_mutations_in_pdb (mutations_in_pdb : string) : string :=
  if decide ((list_to_set (split ";" mutations_in_pdb) : gset string) = {[ "NA"%string ]})
  then "NA"%string else mutations_in_pdb.

Definition cleanup_warnings (warnings : string) : string :=
  if decide ((list_to_set (split ";" warnings) : gset string) = {[ EmptyString; ","%string ]})
  then "NA"%string else warnings.

(** [while chains[0] == ",": chains = chains[1:]]. *)
Fixpoint strip_commas (chains : string) : result string :=
  match chains with
  | EmptyString => Raise IndexError
  | String c rest => if decide (c = ","%char) then strip_commas rest else Ok chains
  end.

Definition replacements : list (string * string) :=
  [(";", ","); ("[", EmptyString); ("]", EmptyString); ("'", EmptyString); (" M", "M")]%string.

(** [chains = [chains := chains.replace(a, b) for a, b in replacements]]
    and [chains = chains[-1]]: the replacements applied one after the
    other. *)
Definition apply_replacements (chains : string) : string :=
  foldl (fun chains '(a, b) => replace a b chains) chains replacements.

(** The test of the first loop of [filter_all] on the string so cleaned:
    whether the row is dropped.  A list made from a set equals
    [['Mutation']] exactly when the set is [{'Mutation'}]. *)
Definition only_mutation_messages (chains : string) : result bool :=
  chains ← strip_commas chains;
  if contains chains ","
  then
    t ← mapM first_word (split "," chains);
    Ok (bool_decide ((list_to_set t : gset string) = {[ "Mutation"%string ]}))
  else
    if decide (chains = EmptyString) then Ok true
    else
      w ← first_word chains;
      Ok (bool_decide (w = "Mutation"%string)).

(** The first loop of [filter_all] for one row: whether the row is dropped,
    from its cell [AA_in_PDB]. *)
Definition filter_all_drops (AA_in_PDB : string) : result bool :=
  only_mutation_messages (apply_replacements AA_in_PDB).

(** ** The table of the structures: [align] *)


(** ** The queries that [align] hands to [align_alphafold] *)

(** [align] passes [combined_structure['mutation_positions'][i]]: a list of
    integers, or the string ["NA"] for a structure without mutations of
    interest.  [align_alphafold] reads the argument by
    [mutation_positions[i]] for [i] in [range(len(mutation_positions))]:
    the integers of the list, or the characters of the string, each a
    string of length one. *)
Definition items_of (mut_pos : mutation_positions) : list query :=
  match mut_pos with
  | Positions l => map QInt l
  | NoMutations =>
      map (fun c => QStr (String c EmptyString)) (list_ascii_of_string "NA")
  end.

(** ** Vocabulary of the properties *)

(** Number of pad columns before the first residue of an aligned sequence. *)
Fixpoint pad_prefix (aligned : list ascii) : nat :=
  match aligned with
  | c :: rest => if decide (c = "-"%char) then S (pad_prefix rest) else 0
  | [] => 0
  end.

(** Number of columns of an aligned sequence that are not pads. *)
Definition residue_columns (aligned : list ascii) : nat :=
  length (filter (fun c => c ≠ "-"%char) aligned).

(** [blanked st0 st]: the position list of [st] is that of [st0], and each
    residue of [st] is the residue of [st0] at the same index or the gap
    marker. *)
Definition blanked (st0 st : chain_lists) : Prop :=
  pos_pdb st = pos_pdb st0 /\
  Forall2 (fun a a' : string => a' = a \/ a' = "-"%string) (AA_pdb st0) (AA_pdb st).

(** The maximal runs of consecutive integers of a list, read from the left:
    what [to_ranges] computes, written by direct recursion. *)
Fixpoint runs (l : list Z) : list (Z * Z) :=
  match l with
  | [] => []
  | x :: l' =>
      match runs l' with
      | (a, b) :: rs => if decide (x + 1 = a) then (x, b) :: rs else (x, x) :: (a, b) :: rs
      | [] => [(x, x)]
      end
  end.

(** [separated r1 r2]: the range [r1] ends more than one below the start of
    [r2], so the two are disjoint and no range could hold both. *)
Definition separated (r1 r2 : Z * Z) : Prop := r1.2 + 1 < r2.1.

(** [covered rs x]: the integer [x] lies in one of the ranges. *)
Definition covered (rs : list (Z * Z)) (x : Z) : Prop :=
  exists a b, (a, b) ∈ rs /\ a ≤ x ≤ b.

(** [enumerate(l, k)]: [enumerate] with the count started at [k]. *)
Definition enumerate_from {A} (k : Z) (l : list A) : list (Z * A) :=
  zip (seqZ k (Z.of_nat (length l))) l.

(** [enumerates ps l]: [ps] lists the distinct items of [l], each once.
    This is what Python guarantees of [list(set(l))]; the order of [ps] is
    left open. *)
Definition enumerates (ps l : list Z) : Prop :=
  NoDup ps /\ forall x, x ∈ ps <-> x ∈ l.

(** The verdict for one queried position against a table: the rendering of
    the first row at that position, or the not-in-range message. *)
Definition verdict (df : list row) (position : Z) : string :=
  match filter (fun r => uniprot_pos r = position) df with
  | r :: _ => render_row r
  | [] => not_in_range position
  end.

(** A run that the step-1 pass removes: longer than two and holding the
    first or the last reference position of the table. *)
Definition long_terminal (seq_start seq_end : Z) (run : list Z) : Prop :=
  (2 < length run)%nat /\ (seq_start ∈ run \/ seq_end ∈ run).

(** The warnings that the step-1 pass records for one run. *)
Definition run_warnings (seq_start seq_end : Z) (run : list Z) : list string :=
  if decide (2 < length run)%nat then
    (if decide (seq_start ∈ run) then [attachment_warning "N" (length run)] else []) ++
    (if decide (seq_end ∈ run) then [attachment_warning "C" (length run)] else [])
  else [].

(** Number of rows of the table at a reference position. *)
Definition rows_at (df : list row) (x : Z) : nat :=
  length (filter (fun r => uniprot_pos r = x) df).

(** [high_confidence ATOMS z]: position [z] (counted from 1) exists in the
    model and its score exceeds 70. *)
Definition high_confidence (ATOMS : list atom) (z : Z) : Prop :=
  exists a, 1 ≤ z /\ ATOMS !! Z.to_nat (z - 1) = Some a /\ (70 < b_factor a)%Q.

(** The verdict that the specification gives a queried position. *)
Definition af_expected (letters : list ascii) (scores : list Q) (q : query) : string :=
  match q with
  | QStr s => if decide (s = "NA"%string) then "NA"%string else "Mutation not in range"%string
  | QInt z =>
      match letters !! Z.to_nat (z - 1), scores !! Z.to_nat (z - 1) with
      | Some c, Some score =>
          if decide (1 ≤ z) then
            if Qlt_le_dec 70 score
            then String c (String.append (str_of_Z z) (String c EmptyString))
            else "Mutation not in range"%string
          else "Mutation not in range"%string
      | _, _ => "Mutation not in range"%string
      end
  end.

(** The rows of the frame at a position: at most one. *)
Definition af_row_at (letters : list ascii) (scores : list Q) (k z : Z) : list af_row :=
  match letters !! Z.to_nat (z - k), scores !! Z.to_nat (z - k) with
  | Some c, Some score =>
      if decide (k ≤ z)
      then [ {| position := z; sequence := c; PDDLT := score;
                category := confidence_category score |} ]
      else []
  | _, _ => []
  end.

(** Number of residues with an insertion code among the first [k] of a
    chain. *)
Definition insertion_codes (rs : list residue) (k : nat) : Z :=
  Z.of_nat (length (filter (fun r => icode r ≠ " "%string) (take k rs))).

(** [well_numbered rs]: along the chain the sequence numbers never go
    down, and a residue that repeats the number of the one before it
    carries an insertion code. *)
Fixpoint well_numbered (rs : list residue) : Prop :=
  match rs with
  | r1 :: (r2 :: _) as rest =>
      (resseq r1 < resseq r2 \/ (resseq r1 = resseq r2 /\ icode r2 ≠ " "%string)) /\
      well_numbered rest
  | _ => True
  end.

(** [gap_filled AA pos AA' pos']: the lists [AA'] and [pos'] hold the
    items of [AA] and [pos] in their order, anything else in [AA'] is the
    gap marker, and both lists grew by the same number of items. *)
Definition gap_filled (AA : list string) (pos : list Z) (AA' : list string) (pos' : list Z)
  : Prop :=
  AA `sublist_of` AA' /\ pos `sublist_of` pos' /\
  (forall a, a ∈ AA' -> a ∈ AA \/ a = "-"%string) /\
  (length AA' + length pos = length AA + length pos')%nat.

(** [stepped stepsize run]: each item of the run is the one before it plus
    [stepsize]. *)
Fixpoint stepped (stepsize : Z) (run : list Z) : Prop :=
  match run with
  | x :: (y :: _) as rest => y - x = stepsize /\ stepped stepsize rest
  | _ => True
  end.

(** [broken stepsize runs]: from the last item of a run to the first item
    of the next the difference is not [stepsize], so no run could be
    extended. *)
Fixpoint broken (stepsize : Z) (runs : list (list Z)) : Prop :=
  match runs with
  | r1 :: (r2 :: _) as rest =>
      (forall x y, last r1 = Some x -> head r2 = Some y -> y - x ≠ stepsize) /\
      broken stepsize rest
  | _ => True
  end.

(** The positions, counted from [k], of the atoms whose score exceeds 70. *)
Definition confident_from (k : Z) (ATOMS : list atom) : list Z :=
  map fst (filter (fun p : Z * atom => confidence_category (b_factor p.2) = "high"%string)
                  (zip (seqZ k (Z.of_nat (length ATOMS))) ATOMS)).

(** The positions (counted from 1) of the high-confidence residues. *)
Definition confident_positions (ATOMS : list atom) : list Z := confident_from 1 ATOMS.

(** The ranges with the start of the first one replaced by [x]. *)
Definition restart (x : Z) (rs : list (Z * Z)) : list (Z * Z) :=
  match rs with
  | (_, b) :: rs' => (x, b) :: rs'
  | [] => []
  end.

(** [one_per_chain mut_pos acc acc' kept]: from [acc] to [acc'] the chains
    [kept] were recorded, and every other list grew by one item for each of
    them; the list of resolved mutations only when positions were queried. *)
Definition one_per_chain (mut_pos : mutation_positions) (acc acc' : columns)
    (kept : list string) : Prop :=
  chains acc' = chains acc ++ kept /\
  length (coverage acc') = (length (coverage acc) + length kept)%nat /\
  length (mutation_list acc') = (length (mutation_list acc) + length kept)%nat /\
  length (warning_column acc') = (length (warning_column acc) + length kept)%nat /\
  match mut_pos with
  | Positions _ =>
      length (mutational_column acc') = (length (mutational_column acc) + length kept)%nat
  | NoMutations => mutational_column acc' = mutational_column acc
  end.

(** [unaligned seq1 localms model h uniprot_sequence chain_str]: the chain
    gives residues, and no alignment is found for what the missing-residue
    step leaves of them. *)
Definition unaligned (seq1 : string -> string)
    (localms : string -> string -> list (string * string))
    (model : gmap string (list residue)) (h : header) (uniprot_sequence : string)
    (chain_str : string) : Prop :=
  exists AA pos,
    get_AA_pos seq1 chain_str model = Ok (AA, pos) /\ AA ≠ [] /\
    forall st chain_warning,
      missing_step seq1 h chain_str pos AA = Ok (st, chain_warning) ->
      alignment localms uniprot_sequence (AA_pdb st) = None.

(** [subst_char c new s]: every [c] of [s] replaced by [new]. *)
Fixpoint subst_char (c : ascii) (new s : string) : string :=
  match s with
  | EmptyString => EmptyString
  | String d s' =>
      if decide (d = c) then new +:+ subst_char c new s' else String d (subst_char c new s')
  end.

Definition starts_with_M (s : string) : bool :=
  match s with
  | String d _ => bool_decide (d = "M"%char)
  | EmptyString => false
  end.

(** [unspace s]: [s] without the spaces that stand before an [M]. *)
Fixpoint unspace (s : string) : string :=
  match s with
  | EmptyString => EmptyString
  | String c s' =>
      if bool_decide (c = " "%char) && starts_with_M s' then unspace s'
      else String c (unspace s')
  end.

(** [stable v]: wherever [v] stands, it has no space before an [M] and
    gives none with what follows it. *)
Definition stable (v : string) : Prop :=
  forall rest, unspace (v +:+ rest) = v +:+ unspace rest.

(** The characters that the first four replacements of [filter_all]
    remove or produce. *)
Definition separators : list ascii := [";"; "["; "]"; "'"; ","]%char.

(** [plain v]: a message or a rendered residue as the resolvers write
    them: no separator, no space before an [M], and a first word. *)
Definition plain (v : string) : Prop :=
  Forall (fun c => c ∉ separators) (list_ascii_of_string v) /\
  stable v /\
  exists w, first_word v = Ok w.

(** A capital letter, or the pad of an alignment. *)
Definition residue_letter (c : ascii) : Prop :=
  (65 <= nat_of_ascii c <= 90)%nat \/ c = "-"%char.

(** What the replacements leave of the items of one list: the first as it
    is, each later one after the space of [", "] unless it starts with
    [M]. *)
Definition spaced (v : string) : string :=
  if starts_with_M v then v else String " " v.

Definition tokens (col : list string) : list string :=
  match col with
  | v :: rest => v :: map spaced rest
  | [] => []
  end.

(** [tail_join sep l]: every item of [l] with [sep] before it; a join is
    its first item and the [tail_join] of the others. *)
Definition tail_join (sep : string) (l : list string) : string :=
  foldr (fun x acc => sep +:+ x +:+ acc) EmptyString l.

(** [solid c]: neither a separator nor white space. *)
Definition solid (c : ascii) : Prop := (c ∉ separators) /\ isspace c = false.

(** The first four replacements of [filter_all], each of one character. *)
Definition strip_separators (s : string) : string :=
  subst_char "'" EmptyString (subst_char "]" EmptyString
    (subst_char "[" EmptyString (subst_char ";" "," s))).

(** [message v]: the first word of [v] is [Mutation]. *)
Definition message (v : string) : Prop := first_word v = Ok "Mutation"%string.

(** * Properties *)

(** ** Python primitives *)

Example str_of_Z_examples :
  str_of_Z 0 = "0"%string /\ str_of_Z 17 = "17"%string /\ str_of_Z (-3) = "-3"%string.
Proof. repeat split. Qed.

Example contains_examples :
  contains "GSHHHHHHM" "HHH" = true /\ contains "GSHAH" "HHH" = false /\
  contains "AB" EmptyString = true.
Proof. repeat split. Qed.

Example bind_examples :
  (x ← Ok 1; Ok (x + 1)) = Ok 2 /\
  (x ← getitem [1; 2] 5; Ok (x + 1)) = Raise IndexError /\
  ('(a, b) ← Ok (1, 2); Ok (a + b)) = Ok 3.
Proof. repeat split. Qed.

Lemma getitem_lookup {A} (l : list A) (i : nat) (x : A) :
  l !! i = Some x -> getitem l i = Ok x.
Proof. unfold getitem. intros ->. reflexivity. Qed.

Lemma setitem_lt {A} (l : list A) (i : nat) (x : A) :
  (i < length l)%nat -> setitem l i x = Ok (<[i := x]> l).
Proof. unfold setitem. intros H. destruct (decide _); [reflexivity | lia]. Qed.

Lemma index_of_lt {A} `{EqDecision A} (x : A) (l : list A) :
  x ∈ l -> (index_of x l < length l)%nat.
Proof.
  induction l as [|y l IH]; intros Hin.
  - inversion Hin.
  - simpl. destruct (decide (y = x)); [lia|].
    apply elem_of_cons in Hin as [->|Hin]; [congruence|].
    specialize (IH Hin). lia.
Qed.

Lemma index_of_lookup {A} `{EqDecision A} (x : A) (l : list A) :
  x ∈ l -> l !! index_of x l = Some x.
Proof.
  induction l as [|y l IH]; intros Hin.
  - inversion Hin.
  - simpl. destruct (decide (y = x)) as [->|Hne]; [reflexivity|].
    apply elem_of_cons in Hin as [->|Hin]; [congruence|]. simpl. auto.
Qed.

(** ** Position mapper *)

Lemma pad_prefix_le (aligned : list ascii) :
  (pad_prefix aligned + residue_columns aligned ≤ length aligned)%nat.
Proof.
  unfold residue_columns. induction aligned as [|c rest IH]; simpl; [lia|].
  destruct (decide (c = "-"%char)) as [->|Hc].
  - rewrite filter_cons_False by (intros H; apply H; reflexivity). lia.
  - pose proof (length_filter (fun c => c ≠ "-"%char) (c :: rest)) as Hle.
    simpl in *. lia.
Qed.

Lemma leading_pads_spec (aligned : list ascii) (positions acc : list Z) :
  leading_pads aligned positions acc =
    if decide (pad_prefix aligned = length aligned)
    then acc ++ replicate (length aligned) 0
    else acc ++ replicate (pad_prefix aligned) 0 ++ positions.
Proof.
  revert acc. induction aligned as [|c rest IH]; intros acc; simpl.
  - rewrite app_nil_r. reflexivity.
  - destruct (decide (c = "-"%char)) as [->|Hc].
    + rewrite IH. simpl.
      destruct (decide (pad_prefix rest = length rest)) as [He|Hne].
      * rewrite decide_True by lia. rewrite <- app_assoc. reflexivity.
      * rewrite decide_False by lia. rewrite <- app_assoc. reflexivity.
    + rewrite decide_False by lia. reflexivity.
Qed.

Lemma length_list_ascii_of_string (s : string) :
  length (list_ascii_of_string s) = String.length s.
Proof. induction s; simpl; congruence. Qed.

(** The Position Mapper in closed form. *)
Lemma numerical_alignment_eq (aligned : string) (positions : list Z) :
  let cols := list_ascii_of_string aligned in
  residue_columns cols = length positions ->
  numerical_alignment aligned positions =
    replicate (pad_prefix cols) 0 ++ positions ++
    replicate (length cols - pad_prefix cols - length positions) 0.
Proof.
  intros cols Hn. unfold numerical_alignment. fold cols.
  rewrite leading_pads_spec. rewrite <- (length_list_ascii_of_string aligned). fold cols.
  pose proof (pad_prefix_le cols) as Hle. simpl.
  destruct (decide (pad_prefix cols = length cols)) as [He|Hne].
  - assert (positions = []) as ->.
    { apply length_zero_iff_nil. lia. }
    rewrite length_replicate, decide_False by lia.
    rewrite He. simpl. rewrite Nat.sub_diag. simpl. rewrite app_nil_r. reflexivity.
  - rewrite length_app, length_replicate.
    destruct (decide (pad_prefix cols + length positions < length cols)%nat) as [Hlt|Hge].
    + rewrite <- app_assoc. do 3 f_equal. lia.
    + replace (length cols - pad_prefix cols - length positions)%nat with 0%nat by lia.
      simpl. rewrite app_nil_r. reflexivity.
Qed.

(** C8.  When the aligned sequence has as many residue columns as there are
    original positions, the Position Mapper returns one integer per column:
    0 for every column of the leading pad, then the original positions in
    order, one per column, then 0 for every column that is left. *)
Theorem numerical_alignment_columns (aligned : string) (positions : list Z) :
  let cols := list_ascii_of_string aligned in
  let out := numerical_alignment aligned positions in
  residue_columns cols = length positions ->
  length out = String.length aligned /\
  (forall i, (i < pad_prefix cols)%nat -> out !! i = Some 0) /\
  (forall j, (j < length positions)%nat ->
     out !! (pad_prefix cols + j)%nat = positions !! j) /\
  (forall i, (pad_prefix cols + length positions ≤ i < String.length aligned)%nat ->
     out !! i = Some 0).
Proof.
  intros cols out Hn. subst out.
  rewrite (numerical_alignment_eq aligned positions Hn). fold cols.
  rewrite <- (length_list_ascii_of_string aligned). fold cols.
  pose proof (pad_prefix_le cols) as Hle.
  set (p := pad_prefix cols) in *.
  repeat split.
  - rewrite !length_app, !length_replicate. lia.
  - intros i Hi. rewrite lookup_app_l by (rewrite length_replicate; lia).
    apply lookup_replicate. split; [reflexivity | lia].
  - intros j Hj. rewrite lookup_app_r by (rewrite length_replicate; lia).
    rewrite length_replicate. replace (p + j - p)%nat with j by lia.
    apply lookup_app_l. lia.
  - intros i Hi. rewrite lookup_app_r by (rewrite length_replicate; lia).
    rewrite length_replicate. rewrite lookup_app_r by lia.
    apply lookup_replicate. split; [reflexivity | lia].
Qed.

Example numerical_alignment_examples :
  numerical_alignment "--MKT-" [5; 6; 7] = [0; 0; 5; 6; 7; 0] /\
  numerical_alignment "MK" [1; 2] = [1; 2] /\
  numerical_alignment "---" [] = [0; 0; 0] /\
  numerical_alignment "-M-K-" [8; 9] = [0; 8; 9; 0; 0].
Proof. repeat split. Qed.

Lemma numerical_alignment_columns_witness :
  let aligned := "--MKT-"%string in
  let positions := [5; 6; 7] in
  let cols := list_ascii_of_string aligned in
  let out := numerical_alignment aligned positions in
  residue_columns cols = length positions /\
  (length out = String.length aligned /\
   (forall i, (i < pad_prefix cols)%nat -> out !! i = Some 0) /\
   (forall j, (j < length positions)%nat ->
      out !! (pad_prefix cols + j)%nat = positions !! j) /\
   (forall i, (pad_prefix cols + length positions ≤ i < String.length aligned)%nat ->
      out !! i = Some 0)).
Proof.
  split; [reflexivity|].
  apply (numerical_alignment_columns "--MKT-" [5; 6; 7]). reflexivity.
Defined.

(** ** Missing-residue handler *)

Lemma Forall2_insert_r {A B} (P : A -> B -> Prop) (l : list A) (k : list B) (i : nat) (y : B) :
  Forall2 P l k -> (forall a, l !! i = Some a -> P a y) -> Forall2 P l (<[i := y]> k).
Proof.
  intros HF. revert i. induction HF as [|a b l k Hab HF IH]; intros i Hy.
  - constructor.
  - destruct i as [|i]; simpl.
    + constructor; [apply Hy; reflexivity | exact HF].
    + constructor; [exact Hab | apply IH; intros a' Ha'; apply Hy; exact Ha'].
Qed.

Lemma blanked_refl (st : chain_lists) : blanked st st.
Proof.
  split; [reflexivity|]. apply Forall_Forall2_diag, Forall_forall. intros; left; reflexivity.
Qed.

Lemma blanked_set_AA (st0 st : chain_lists) (i : nat) :
  blanked st0 st -> blanked st0 (set_AA st (<[i := "-"%string]> (AA_pdb st))).
Proof.
  intros [Hpos HAA]. split; [exact Hpos|]. simpl.
  apply Forall2_insert_r; [exact HAA | intros; right; reflexivity].
Qed.

Lemma blank_position_blanked (st0 st : chain_lists) (position : Z) :
  length (pos_pdb st0) = length (AA_pdb st0) -> blanked st0 st ->
  exists st', blank_position (Ok st) position = Ok st' /\ blanked st0 st'.
Proof.
  intros Hlen Hb. unfold blank_position. simpl.
  destruct (decide (position ∈ pos_pdb st)) as [Hin|Hout];
    [|exists st; split; [reflexivity | exact Hb]].
  pose proof (index_of_lt _ _ Hin) as Hlt.
  destruct Hb as [Hpos HAA]. pose proof (Forall2_length _ _ _ HAA) as HlenAA.
  assert (length (pos_pdb st) = length (AA_pdb st)) as Hlen' by (rewrite Hpos; lia).
  rewrite setitem_lt by lia. simpl.
  eexists; split; [reflexivity|]. apply blanked_set_AA. split; assumption.
Qed.

Lemma blank_positions_blanked (st0 : chain_lists) (missing_pos : list Z) (st : chain_lists) :
  length (pos_pdb st0) = length (AA_pdb st0) -> blanked st0 st ->
  exists st', foldl blank_position (Ok st) missing_pos = Ok st' /\ blanked st0 st'.
Proof.
  intros Hlen. revert st. induction missing_pos as [|p ps IH]; intros st Hb; cbn [foldl].
  - exists st; split; [reflexivity | exact Hb].
  - destruct (blank_position_blanked st0 st p Hlen Hb) as (st1 & -> & Hb1). auto.
Qed.

Lemma blank_X_blanked (st0 st : chain_lists) (i : nat) :
  (i < length (AA_pdb st0))%nat -> blanked st0 st ->
  exists st', blank_X (Ok st) i = Ok st' /\ blanked st0 st'.
Proof.
  intros Hi Hb. unfold blank_X. simpl.
  pose proof (Forall2_length _ _ _ (proj2 Hb)) as HlenAA.
  destruct (lookup_lt_is_Some_2 (AA_pdb st) i ltac:(lia)) as [AA HAA].
  rewrite (getitem_lookup _ _ _ HAA). simpl.
  destruct (decide (AA = "X"%string)) as [->|Hne];
    [|exists st; split; [reflexivity | exact Hb]].
  assert ("X"%string ∈ AA_pdb st) as Hin by (eapply list_elem_of_lookup_2; eauto).
  rewrite setitem_lt by (apply index_of_lt; exact Hin). simpl.
  eexists; split; [reflexivity|]. apply blanked_set_AA. exact Hb.
Qed.

Lemma blank_Xs_blanked (st0 : chain_lists) (idx : list nat) (st : chain_lists) :
  Forall (fun i => (i < length (AA_pdb st0))%nat) idx -> blanked st0 st ->
  exists st', foldl blank_X (Ok st) idx = Ok st' /\ blanked st0 st'.
Proof.
  intros Hidx. revert st. induction Hidx as [|i idx Hi Hidx IH]; intros st Hb; cbn [foldl].
  - exists st; split; [reflexivity | exact Hb].
  - destruct (blank_X_blanked st0 st i Hi Hb) as (st1 & -> & Hb1). auto.
Qed.

Lemma remove_missing_residues_blanked
    (seq1 : string -> string) (h : header) (st : chain_lists) (chain_str : string) :
  length (pos_pdb st) = length (AA_pdb st) ->
  exists st' warning,
    remove_missing_residues seq1 h st chain_str = Ok (st', warning) /\ blanked st st'.
Proof.
  intros Hlen. unfold remove_missing_residues.
  set (missing_pos := map mr_ssseq (missing_of h chain_str)).
  set (missing_AA := map (fun m => seq1 (mr_res_name m)) (missing_of h chain_str)).
  assert (exists st1,
    (if decide (missing_AA ≠ []) then foldl blank_position (Ok st) missing_pos else Ok st)
      = Ok st1 /\ blanked st st1) as (st1 & -> & Hb1).
  { destruct (decide (missing_AA ≠ [])).
    - apply blank_positions_blanked; [exact Hlen | apply blanked_refl].
    - exists st. split; [reflexivity | apply blanked_refl]. }
  simpl.
  destruct (blank_Xs_blanked st (seq 0 (length (AA_pdb st1))) st1) as (st2 & -> & Hb2).
  { apply Forall_forall. intros i Hi. apply elem_of_seq in Hi.
    rewrite (Forall2_length _ _ _ (proj2 Hb1)). lia. }
  { exact Hb1. }
  simpl. eexists _, _. split; [reflexivity | exact Hb2].
Qed.

(** C10.  On the two parallel lists of a chain, the missing-residue handler
    returns (no exception) a residue list of the same length in which each
    entry is the input entry at that index or the gap marker, and leaves
    the position list as it was. *)
Theorem remove_missing_residues_frame
    (seq1 : string -> string) (h : header) (st : chain_lists) (chain_str : string) :
  length (pos_pdb st) = length (AA_pdb st) ->
  exists st' warning,
    remove_missing_residues seq1 h st chain_str = Ok (st', warning) /\
    pos_pdb st' = pos_pdb st /\
    length (AA_pdb st') = length (AA_pdb st) /\
    (forall i a', AA_pdb st' !! i = Some a' ->
       AA_pdb st !! i = Some a' \/ a' = "-"%string).
Proof.
  intros Hlen.
  destruct (remove_missing_residues_blanked seq1 h st chain_str Hlen)
    as (st' & warning & Hr & Hpos & HAA).
  exists st', warning. split; [exact Hr|]. split; [exact Hpos|].
  split; [symmetry; eapply Forall2_length; exact HAA|].
  intros i a' Ha'.
  destruct (Forall2_lookup_r _ _ _ _ _ HAA Ha') as (a & Ha & [->| ->]); auto.
Qed.

Example remove_missing_residues_examples :
  let h := {| has_missing_residues := true;
              missing_residues :=
                [ {| mr_chain := "A"; mr_res_name := "HIS"; mr_ssseq := 3 |};
                  {| mr_chain := "A"; mr_res_name := "HIS"; mr_ssseq := 0 |};
                  {| mr_chain := "A"; mr_res_name := "HIS"; mr_ssseq := -1 |};
                  {| mr_chain := "B"; mr_res_name := "GLY"; mr_ssseq := 2 |} ] |} in
  remove_missing_residues seq1_standard h
    {| pos_pdb := [1; 2; 3; 4]; AA_pdb := ["M"; "X"; "T"; "X"]%string |} "A"
  = Ok ({| pos_pdb := [1; 2; 3; 4]; AA_pdb := ["M"; "-"; "-"; "-"]%string |},
        "The structure likely contains an expression tag"%string) /\
  remove_missing_residues seq1_standard h
    {| pos_pdb := [1; 2; 3]; AA_pdb := ["M"; "K"]%string |} "A"
  = Raise IndexError.
Proof. split; vm_compute; reflexivity. Qed.

Lemma remove_missing_residues_frame_witness :
  let h := {| has_missing_residues := true;
              missing_residues :=
                [ {| mr_chain := "A"; mr_res_name := "HIS"; mr_ssseq := 3 |};
                  {| mr_chain := "B"; mr_res_name := "GLY"; mr_ssseq := 2 |} ] |} in
  let st := {| pos_pdb := [1; 2; 3; 4]; AA_pdb := ["M"; "X"; "T"; "A"]%string |} in
  length (pos_pdb st) = length (AA_pdb st) /\
  exists st' warning,
    remove_missing_residues seq1_standard h st "A" = Ok (st', warning) /\
    pos_pdb st' = pos_pdb st /\
    length (AA_pdb st') = length (AA_pdb st) /\
    (forall i a', AA_pdb st' !! i = Some a' ->
       AA_pdb st !! i = Some a' \/ a' = "-"%string).
Proof.
  intros h st. split; [reflexivity|].
  apply (remove_missing_residues_frame seq1_standard h st "A"). reflexivity.
Defined.

(** ** Residue extraction and gap repair *)

Example seq1_standard_examples :
  seq1_standard "ALA" = "A"%string /\ seq1_standard "HISHISHIS" = "HHH"%string /\
  seq1_standard "UNK" = "X"%string /\ seq1_standard EmptyString = EmptyString.
Proof. repeat split. Qed.

Lemma drop_duplicates_from_elem {A} `{EqDecision A} (seen l : list A) (x : A) :
  x ∈ drop_duplicates_from seen l <-> x ∈ l /\ x ∉ seen.
Proof.
  revert seen. induction l as [|y l IH]; intros seen; simpl.
  - split; [intros H; inversion H | intros [H _]; inversion H].
  - destruct (decide (y ∈ seen)) as [Hy|Hy].
    + rewrite IH, elem_of_cons. split; [tauto|].
      intros [[->|Hx] Hn]; [contradiction | tauto].
    + rewrite !elem_of_cons, IH, elem_of_cons.
      split.
      * intros [->|[Hx Hn]]; [tauto | tauto].
      * intros [[->|Hx] Hn]; [tauto|].
        destruct (decide (x = y)); [tauto | right; tauto].
Qed.

Lemma drop_duplicates_from_NoDup {A} `{EqDecision A} (seen l : list A) :
  NoDup (drop_duplicates_from seen l).
Proof.
  revert seen. induction l as [|y l IH]; intros seen; simpl; [constructor|].
  destruct (decide (y ∈ seen)); [apply IH|].
  constructor; [|apply IH].
  rewrite drop_duplicates_from_elem, elem_of_cons. tauto.
Qed.

Lemma drop_duplicates_from_sublist {A} `{EqDecision A} (seen l : list A) :
  drop_duplicates_from seen l `sublist_of` l.
Proof.
  revert seen. induction l as [|y l IH]; intros seen; simpl; [constructor|].
  destruct (decide (y ∈ seen)).
  - apply sublist_cons, IH.
  - apply sublist_skip, IH.
Qed.

Lemma drop_duplicates_from_first {A} `{EqDecision A} (seen l1 : list A) (x : A) (l2 : list A) :
  x ∉ l1 -> x ∉ seen ->
  exists d2, drop_duplicates_from seen (l1 ++ x :: l2) =
             drop_duplicates_from seen l1 ++ x :: d2.
Proof.
  revert seen. induction l1 as [|y l1 IH]; intros seen Hl1 Hseen; simpl.
  - rewrite decide_False by exact Hseen. eauto.
  - apply not_elem_of_cons in Hl1 as [Hxy Hl1].
    destruct (decide (y ∈ seen)).
    + apply IH; assumption.
    + destruct (IH (y :: seen) Hl1) as [d2 Hd2].
      { rewrite elem_of_cons. tauto. }
      exists d2. rewrite Hd2. reflexivity.
Qed.

(** C5, as the code has it.  The deduplication step compares whole rows
    (position and residue): of the rows equal in both columns it keeps the
    first, so the result has no two equal rows, holds every row of the
    input, in the input's order, and each row stands where its first
    occurrence stood.  Rows that share a position and differ in the residue
    all stay. *)
Theorem drop_duplicates_keep_first (rows : list (Z * string)) :
  let d := drop_duplicates rows in
  NoDup d /\
  (forall r, r ∈ d <-> r ∈ rows) /\
  d `sublist_of` rows /\
  (forall l1 r l2, rows = l1 ++ r :: l2 -> r ∉ l1 ->
     exists d2, d = drop_duplicates l1 ++ r :: d2).
Proof.
  unfold drop_duplicates. simpl. repeat split.
  - apply drop_duplicates_from_NoDup.
  - rewrite drop_duplicates_from_elem. tauto.
  - intros Hr. rewrite drop_duplicates_from_elem. split; [exact Hr | apply not_elem_of_nil].
  - apply drop_duplicates_from_sublist.
  - intros l1 r l2 -> Hr. apply drop_duplicates_from_first; [exact Hr | apply not_elem_of_nil].
Qed.

(** C5, as stated, fails: two rows with the same position and different
    residues both stay, so a position can keep more than one row. *)
Lemma drop_duplicates_same_position :
  let rows := [(7, "A"%string); (7, "G"%string)] in
  drop_duplicates rows = rows /\ ~ NoDup (drop_duplicates rows).*1.
Proof.
  split; [reflexivity|]. simpl. intros H. apply NoDup_cons in H as [H _].
  apply H. constructor.
Qed.

Example drop_duplicates_examples :
  drop_duplicates [(1, "A"); (2, "B"); (1, "A"); (3, "C"); (2, "B")]%string
    = [(1, "A"); (2, "B"); (3, "C")]%string.
Proof. reflexivity. Qed.

(** The two lists that [get_AA_pos] returns are parallel. *)

Lemma extract_length (seq1 : string -> string) (rs : list residue) (n : Z) :
  length (extract seq1 rs n).1 = length (extract seq1 rs n).2.
Proof.
  revert n. induction rs as [|r rs IH]; intros n; simpl; [reflexivity|].
  specialize (IH (if decide (icode r = " "%string) then n else n + 1)).
  destruct (extract seq1 rs _) as [AA pos]. simpl in *. congruence.
Qed.

Lemma strip_X_length (AA : list string) (pos : list Z) (AA' : list string) (pos' : list Z) :
  strip_X AA pos = Ok (AA', pos') -> length AA = length pos -> length AA' = length pos'.
Proof.
  revert pos. induction AA as [|a AA IH]; intros pos Hs Hlen; simpl in Hs; [discriminate|].
  destruct (decide (a = "X"%string)).
  - apply (IH (tail pos) Hs). destruct pos; simpl in *; lia.
  - inversion Hs; subst. exact Hlen.
Qed.

Lemma length_list_insert_at {A} (l : list A) (i : nat) (x : A) :
  length (list_insert_at l i x) = S (length l).
Proof.
  unfold list_insert_at. rewrite length_app. simpl.
  rewrite length_take, length_drop. lia.
Qed.

Lemma fill_step_length (st : result (list string * list Z)) (i : nat) (AA : list string) (pos : list Z) :
  fill_step st i = Ok (AA, pos) ->
  exists AA0 pos0, st = Ok (AA0, pos0) /\ (length AA0 = length pos0 -> length AA = length pos).
Proof.
  unfold fill_step. destruct st as [[AA0 pos0]|e]; simpl; [|discriminate].
  intros H. exists AA0, pos0. split; [reflexivity|]. intros Hlen.
  destruct (getitem pos0 i) as [a|]; simpl in H; [|discriminate].
  destruct (getitem pos0 (i + 1)) as [b|]; simpl in H; [|discriminate].
  destruct (decide (a + 1 ≠ b)); inversion H; subst; [|exact Hlen].
  rewrite !length_list_insert_at. congruence.
Qed.

Lemma fill_steps_length (idx : list nat) (st : result (list string * list Z))
    (AA : list string) (pos : list Z) :
  foldl fill_step st idx = Ok (AA, pos) ->
  exists AA0 pos0, st = Ok (AA0, pos0) /\ (length AA0 = length pos0 -> length AA = length pos).
Proof.
  revert st. induction idx as [|i idx IH]; intros st; cbn [foldl].
  - intros ->. eauto.
  - intros H. destruct (IH _ H) as (AA1 & pos1 & H1 & Hl1).
    destruct (fill_step_length _ _ _ _ H1) as (AA0 & pos0 & -> & Hl0).
    exists AA0, pos0. split; [reflexivity | auto].
Qed.

Lemma repair_numbering_length (AA0 : list string) (pos0 : list Z) (AA : list string) (pos : list Z) :
  repair_numbering AA0 pos0 = Ok (AA, pos) -> length AA0 = length pos0 ->
  length AA = length pos.
Proof.
  unfold repair_numbering. intros H Hlen.
  destruct (min_list pos0) as [lo|]; simpl in H; [|discriminate].
  destruct (max_list pos0) as [hi|]; simpl in H; [|discriminate].
  destruct (decide (sorted pos0 = range lo (hi + 1))); [inversion H; subst; exact Hlen|].
  destruct (decide (size (list_to_set pos0 : gset Z) ≠ length pos0));
    [inversion H; reflexivity|].
  destruct (fill_steps_length _ _ _ _ H) as (AA1 & pos1 & Heq & Hl).
  inversion Heq; subst. auto.
Qed.

Lemma get_AA_pos_parallel (seq1 : string -> string) (chain_str : string)
    (model : gmap string (list residue)) (AA : list string) (pos : list Z) :
  get_AA_pos seq1 chain_str model = Ok (AA, pos) -> length pos = length AA.
Proof.
  unfold get_AA_pos. destruct (model !! chain_str) as [chain|]; simpl; [|discriminate].
  pose proof (extract_length seq1 chain 0) as Hex.
  destruct (extract seq1 chain 0) as [AA0 pos0]. simpl in Hex.
  set (AA1 := map _ AA0).
  assert (length AA1 = length pos0) as H1 by (subst AA1; rewrite length_map; exact Hex).
  clearbody AA1.
  destruct (decide (size (list_to_set AA1 : gset string) ≠ 1%nat)); [|intros H; inversion H; reflexivity].
  destruct (strip_X AA1 pos0) as [[AA2 pos2]|] eqn:Hs1; simpl; [|discriminate].
  pose proof (strip_X_length _ _ _ _ Hs1 H1) as H2.
  destruct (strip_X (reverse AA2) (reverse pos2)) as [[AA3 pos3]|] eqn:Hs2; simpl; [|discriminate].
  pose proof (strip_X_length _ _ _ _ Hs2) as H3. rewrite !length_reverse in H3.
  specialize (H3 H2).
  destruct (decide (_ ∧ _)); [intros H; inversion H; reflexivity|].
  destruct (decide (length (reverse pos3) ≠ _)); [discriminate|].
  intros H. symmetry. apply (repair_numbering_length _ _ _ _ H).
  rewrite !length_fmap. reflexivity.
Qed.

(** Where the numbering has a single hole the loop fills it, as in the
    specification's example. *)
Example fill_gaps_single_hole :
  fill_gaps ["M"; "K"; "T"; "A"]%string [10; 11; 13; 14]
  = Ok (["M"; "K"; "-"; "T"; "A"]%string, [10; 11; 12; 13; 14]).
Proof. reflexivity. Qed.

Example fill_gaps_two_holes :
  fill_gaps ["M"; "K"; "T"]%string [1; 3; 5] = Ok (["M"; "-"; "K"; "T"]%string, [1; 2; 3; 5]).
Proof. reflexivity. Qed.

(** C1 at a chain with residues 10, 11, 12, 16 and 17 (three residues
    without density, two residues after them).  The positions have no
    duplicates and are not contiguous; the loop runs four times, inserts 13
    and 14 and stops, so 15 is missing from the result, which is not the
    run from 10 to 17. *)
Theorem get_AA_pos_leaves_hole :
  let residue_at name number := {| resname := name; resseq := number; icode := " " |} in
  let model : gmap string (list residue) :=
    {[ "A"%string := [residue_at "MET"%string 10; residue_at "LYS"%string 11;
                      residue_at "THR"%string 12; residue_at "ALA"%string 16;
                      residue_at "TYR"%string 17] ]} in
  get_AA_pos seq1_standard "A" model
  = Ok (["M"; "K"; "T"; "-"; "-"; "A"; "Y"]%string, [10; 11; 12; 13; 14; 16; 17]) /\
  [10; 11; 12; 13; 14; 16; 17] ≠ range 10 (17 + 1).
Proof. split; [vm_compute; reflexivity | discriminate]. Qed.

(** ** Coverage ranges *)

Lemma enumerate_from_cons {A} (k : Z) (x : A) (l : list A) :
  enumerate_from k (x :: l) = (k, x) :: enumerate_from (k + 1) l.
Proof.
  unfold enumerate_from. cbn [length]. rewrite Nat2Z.inj_succ.
  rewrite seqZ_cons by lia. simpl. do 3 f_equal; lia.
Qed.

Lemma mapM_Forall2_Ok {A B} (f : A -> result B) (l : list A) (k : list B) :
  Forall2 (fun x y => f x = Ok y) l k -> mapM f l = Ok k.
Proof.
  induction 1 as [|x y l k Hxy _ IH]; simpl; [reflexivity|].
  rewrite Hxy. simpl. rewrite IH. reflexivity.
Qed.

Lemma group_bounds_cons (p : Z * Z) (g : list (Z * Z)) (a b : Z) :
  group_bounds g = Ok (a, b) -> group_bounds (p :: g) = Ok (p.2, b).
Proof.
  unfold group_bounds. intros H. destruct g as [|q g]; [discriminate H|].
  rewrite (last_cons p (q :: g)).
  destruct (last (q :: g)) as [final|]; [|discriminate H].
  inversion H; subst. reflexivity.
Qed.

(** The groups of [enumerate] by value minus index are the runs. *)
Lemma groupby_runs (s : list Z) (k : Z) :
  let G := groupby (fun t : Z * Z => t.2 - t.1) (enumerate_from k s) in
  Forall2 (fun kg ab => group_bounds kg.2 = Ok ab) G (runs s) /\
  match G, runs s with
  | (key, _) :: _, (a, _) :: _ => key = a - k
  | [], [] => True
  | _, _ => False
  end.
Proof.
  revert k. induction s as [|x s IH]; intros k.
  - simpl. split; [constructor | exact I].
  - rewrite enumerate_from_cons. cbn [groupby runs]. cbv zeta in IH.
    specialize (IH (k + 1)). destruct IH as [HF Hhd].
    destruct (groupby _ (enumerate_from (k + 1) s)) as [|[key g] gs];
      destruct (runs s) as [|[a b] rs]; try contradiction.
    + split; [repeat constructor | simpl; lia].
    + apply Forall2_cons in HF as [Hg HF]. simpl in Hg. simpl.
      destruct (decide (x - k = key)) as [He|Hne].
      * rewrite decide_True by lia. split; [|lia].
        constructor; [|exact HF]. simpl.
        apply (group_bounds_cons (k, x)) in Hg. exact Hg.
      * rewrite decide_False by lia. split; [|simpl; lia].
        constructor; [reflexivity|]. constructor; [exact Hg | exact HF].
Qed.

Lemma to_ranges_runs (set_iter : list Z -> list Z) (iterable : list Z) :
  to_ranges set_iter iterable = Ok (runs (sorted (set_iter iterable))).
Proof.
  unfold to_ranges. apply mapM_Forall2_Ok.
  pose proof (groupby_runs (sorted (set_iter iterable)) 0) as [HF _].
  exact HF.
Qed.

Lemma runs_head (x : Z) (s : list Z) : exists b rs, runs (x :: s) = (x, b) :: rs.
Proof.
  simpl. destruct (runs s) as [|[a b] rs]; [eauto|].
  destruct (decide (x + 1 = a)); eauto.
Qed.

Lemma runs_nil_inv (s : list Z) : runs s = [] -> s = [].
Proof.
  destruct s as [|x s]; [reflexivity|].
  destruct (runs_head x s) as (b & rs & ->). discriminate.
Qed.

(** On a strictly increasing list the runs are non-empty ranges, each
    separated from all later ones, and they cover the list exactly. *)
Lemma runs_spec (s : list Z) :
  StronglySorted Z.lt s ->
  Forall (fun r => r.1 ≤ r.2) (runs s) /\
  StronglySorted separated (runs s) /\
  (forall y, covered (runs s) y <-> y ∈ s).
Proof.
  induction 1 as [|x s Hs IH Hx].
  - simpl. repeat split; try constructor.
    + intros (a & b & Hin & _). inversion Hin.
    + intros Hin. inversion Hin.
  - destruct IH as (Hne & Hsep & Hcov). cbn [runs].
    destruct (runs s) as [|[a b] rs] eqn:Hr.
    + apply runs_nil_inv in Hr. subst s. repeat split.
      * repeat constructor. simpl. lia.
      * repeat constructor.
      * intros (c & d & Hin & Hcd). apply list_elem_of_singleton in Hin.
        apply list_elem_of_singleton. congruence || (inversion Hin; lia).
      * intros Hin. apply list_elem_of_singleton in Hin. subst.
        exists x, x. split; [apply list_elem_of_singleton; reflexivity | lia].
    + assert (x < a) as Hxa.
      { destruct s as [|z s']; [discriminate|].
        destruct (runs_head z s') as (b' & rs' & Hh). rewrite Hh in Hr.
        inversion Hr; subst. apply Forall_cons in Hx as [Hx _]. exact Hx. }
      apply Forall_cons in Hne as [Hab Hne]. simpl in Hab.
      apply StronglySorted_inv in Hsep as [Hsep Hhd].
      destruct (decide (x + 1 = a)) as [He|Hn].
      * repeat split.
        -- constructor; [simpl; lia | exact Hne].
        -- constructor; [exact Hsep | exact Hhd].
        -- intros (c & d & Hin & Hcd). apply elem_of_cons in Hin as [Hin|Hin].
           ++ assert (c = x /\ d = b) as [-> ->] by (inversion Hin; auto).
              destruct (decide (y = x)) as [->|Hy]; [left|].
              right. apply Hcov. exists a, b. split; [left | lia].
           ++ right. apply Hcov. exists c, d. split; [right; exact Hin | exact Hcd].
        -- intros Hin. apply elem_of_cons in Hin as [->|Hin].
           ++ exists x, b. split; [left | lia].
           ++ apply Hcov in Hin as (c & d & Hin & Hcd).
              apply elem_of_cons in Hin as [Hin|Hin].
              ** assert (c = a /\ d = b) as [-> ->] by (inversion Hin; auto).
                 exists x, b. split; [left | lia].
              ** exists c, d. split; [right; exact Hin | exact Hcd].
      * repeat split.
        -- constructor; [simpl; lia|]. constructor; [exact Hab | exact Hne].
        -- constructor; [constructor; [exact Hsep | exact Hhd]|].
           constructor; [unfold separated; simpl; lia|].
           eapply Forall_impl; [exact Hhd|]. unfold separated. simpl. intros r Hr'. lia.
        -- intros (c & d & Hin & Hcd). apply elem_of_cons in Hin as [Hin|Hin].
           ++ assert (c = x /\ d = x) as [-> ->] by (inversion Hin; auto).
              assert (y = x) as -> by lia. left.
           ++ right. apply Hcov. exists c, d. split; [exact Hin | exact Hcd].
        -- intros Hin. apply elem_of_cons in Hin as [->|Hin].
           ++ exists x, x. split; [left | lia].
           ++ apply Hcov in Hin as (c & d & Hin & Hcd).
              exists c, d. split; [right; exact Hin | exact Hcd].
Qed.

Lemma StronglySorted_le_lt (l : list Z) :
  StronglySorted Z.le l -> NoDup l -> StronglySorted Z.lt l.
Proof.
  induction 1 as [|x l Hl IH Hx]; intros Hnd; [constructor|].
  apply NoDup_cons in Hnd as [Hnin Hnd]. constructor; [auto|].
  apply Forall_forall. intros y Hy.
  assert (x ≤ y) by (eapply Forall_forall in Hx; eauto).
  assert (x ≠ y) by (intros ->; contradiction). lia.
Qed.

Lemma StronglySorted_separated_elem (rs : list (Z * Z)) (r1 r2 : Z * Z) :
  StronglySorted separated rs -> r1 ∈ rs -> r2 ∈ rs ->
  r1 = r2 \/ separated r1 r2 \/ separated r2 r1.
Proof.
  induction 1 as [|r rs Hs IH Hr]; intros H1 H2; [inversion H1|].
  apply elem_of_cons in H1 as [->|H1]; apply elem_of_cons in H2 as [->|H2].
  - left; reflexivity.
  - right; left. eapply Forall_forall in Hr; eauto.
  - right; right. eapply Forall_forall in Hr; eauto.
  - auto.
Qed.

Lemma sorted_enumerates (ps l : list Z) :
  enumerates ps l ->
  StronglySorted Z.lt (sorted ps) /\ forall x, x ∈ sorted ps <-> x ∈ l.
Proof.
  intros [Hnd Hel]. unfold sorted. split.
  - apply StronglySorted_le_lt.
    + apply StronglySorted_merge_sort; apply _.
    + rewrite merge_sort_Permutation. exact Hnd.
  - intros x. rewrite merge_sort_Permutation. apply Hel.
Qed.

(** The ranges of any list of integers. *)
Lemma to_ranges_spec (set_iter : list Z -> list Z) (l : list Z) :
  enumerates (set_iter l) l ->
  exists rs,
    to_ranges set_iter l = Ok rs /\
    (forall x, covered rs x <-> x ∈ l) /\
    Forall (fun r => r.1 ≤ r.2) rs /\
    StronglySorted separated rs.
Proof.
  intros Hen. destruct (sorted_enumerates _ _ Hen) as [Hs Hel].
  destruct (runs_spec _ Hs) as (Hne & Hsep & Hcov).
  exists (runs (sorted (set_iter l))). split; [apply to_ranges_runs|].
  split; [|split; assumption].
  intros x. rewrite Hcov. apply Hel.
Qed.

(** C6.  The coverage ranges of a table are computed without an exception;
    an integer lies in one of them exactly when it is a reference position
    of the table; each range is non-empty; they come in ascending order,
    each ending more than one below the start of every later one (so they
    are pairwise disjoint); and each is a maximal run: the integer just
    below its start and the one just above its end are not in the table. *)
Theorem get_coverage_closure (set_iter : list Z -> list Z) (df : list row) :
  enumerates (set_iter (map uniprot_pos df)) (map uniprot_pos df) ->
  exists rs,
    to_ranges set_iter (map uniprot_pos df) = Ok rs /\
    get_coverage set_iter df = Ok (render_ranges rs) /\
    (forall x, covered rs x <-> x ∈ map uniprot_pos df) /\
    Forall (fun r => r.1 ≤ r.2) rs /\
    StronglySorted separated rs /\
    (forall r1 r2, r1 ∈ rs -> r2 ∈ rs -> r1 = r2 \/ separated r1 r2 \/ separated r2 r1) /\
    (forall a b, (a, b) ∈ rs ->
       ((a - 1) ∉ map uniprot_pos df) /\ ((b + 1) ∉ map uniprot_pos df)).
Proof.
  intros Hen. destruct (to_ranges_spec _ _ Hen) as (rs & Hrs & Hcov & Hne & Hsep).
  exists rs. split; [exact Hrs|]. split; [unfold get_coverage; rewrite Hrs; reflexivity|].
  split; [exact Hcov|]. split; [exact Hne|]. split; [exact Hsep|].
  split; [intros r1 r2; apply StronglySorted_separated_elem; exact Hsep|].
  intros a b Hab.
  assert (a ≤ b) as Hle by (eapply Forall_forall in Hne; [|exact Hab]; exact Hne).
  assert (forall x, x ∈ map uniprot_pos df -> x = a - 1 \/ x = b + 1 -> False) as Hout.
  { intros x Hx Hxab. apply Hcov in Hx as (c & d & Hcd & Hx).
    assert (c ≤ d) as Hle' by (eapply Forall_forall in Hne; [|exact Hcd]; exact Hne).
    destruct (StronglySorted_separated_elem rs (a, b) (c, d) Hsep Hab Hcd)
      as [Heq|[Hs1|Hs2]].
    - inversion Heq; subst. lia.
    - unfold separated in Hs1. simpl in Hs1. lia.
    - unfold separated in Hs2. simpl in Hs2. lia. }
  split; intros Hin; eapply Hout; eauto.
Qed.

Example to_ranges_examples :
  to_ranges CPython.set_iter [5; 1; 2; 3; 9; 8; 2] = Ok [(1, 3); (5, 5); (8, 9)] /\
  to_ranges CPython.set_iter [] = Ok [] /\
  render_ranges [(1, 3); (5, 5); (8, 9)] = "[(1, 3);(5, 5);(8, 9)]"%string.
Proof. repeat split. Qed.

Lemma get_coverage_closure_witness :
  let df := [ {| uniprot_seq := "M"; uniprot_pos := 4; pdb_seq := "M"; pdb_pos := 1 |};
              {| uniprot_seq := "K"; uniprot_pos := 5; pdb_seq := "K"; pdb_pos := 2 |};
              {| uniprot_seq := "T"; uniprot_pos := 7; pdb_seq := "A"; pdb_pos := 4 |} ] in
  enumerates (CPython.set_iter (map uniprot_pos df)) (map uniprot_pos df) /\
  exists rs,
    to_ranges CPython.set_iter (map uniprot_pos df) = Ok rs /\
    get_coverage CPython.set_iter df = Ok (render_ranges rs) /\
    (forall x, covered rs x <-> x ∈ map uniprot_pos df) /\
    Forall (fun r => r.1 ≤ r.2) rs /\
    StronglySorted separated rs /\
    (forall r1 r2, r1 ∈ rs -> r2 ∈ rs -> r1 = r2 \/ separated r1 r2 \/ separated r2 r1) /\
    (forall a b, (a, b) ∈ rs ->
       ((a - 1) ∉ map uniprot_pos df) /\ ((b + 1) ∉ map uniprot_pos df)).
Proof.
  intros df.
  assert (enumerates (CPython.set_iter (map uniprot_pos df)) (map uniprot_pos df)) as Hen.
  { split; [vm_compute; apply (bool_decide_unpack (NoDup _)); vm_compute; exact I|].
    intros x. vm_compute CPython.set_iter. reflexivity. }
  split; [exact Hen|]. exact (get_coverage_closure CPython.set_iter df Hen).
Defined.

(** ** Mutation resolver *)

Lemma filter_position_nil (df : list row) (position : Z) :
  filter (fun r => uniprot_pos r = position) df = [] <-> position ∉ map uniprot_pos df.
Proof.
  induction df as [|r df IH]; simpl.
  - split; [intros _ H; inversion H | reflexivity].
  - rewrite not_elem_of_cons. destruct (decide (uniprot_pos r = position)) as [He|Hne].
    + rewrite filter_cons_True by exact He. split; [discriminate | intros [H _]; congruence].
    + rewrite filter_cons_False by exact Hne. rewrite IH. split; [split; congruence | tauto].
Qed.

Lemma resolve_verdict (df : list row) (ms : list string) (position : Z) :
  resolve df (Ok ms) position = Ok (ms ++ [verdict df position]).
Proof.
  unfold resolve, verdict. simpl.
  destruct (decide (position ∈ map uniprot_pos df)) as [Hin|Hout].
  - destruct (filter _ df) as [|r rs] eqn:Hf; [|reflexivity].
    apply filter_position_nil in Hf. contradiction.
  - apply filter_position_nil in Hout. rewrite Hout. reflexivity.
Qed.

Lemma resolve_fold (df : list row) (ps : list Z) (ms : list string) :
  foldl (resolve df) (Ok ms) ps = Ok (ms ++ map (verdict df) ps).
Proof.
  revert ms. induction ps as [|p ps IH]; intros ms; cbn [foldl map].
  - rewrite app_nil_r. reflexivity.
  - rewrite resolve_verdict, IH, <- app_assoc. reflexivity.
Qed.

(** The resolver never raises: one verdict per item of the set, in the
    set's iteration order. *)
Lemma get_mutations_map (set_iter : list Z -> list Z) (mut_pos : list Z) (df : list row) :
  get_mutations set_iter mut_pos df = Ok (map (verdict df) (set_iter mut_pos)).
Proof. unfold get_mutations. apply resolve_fold. Qed.

Lemma str_of_Z_head (z : Z) :
  exists c s, str_of_Z z = String c s /\ c ≠ "u"%char.
Proof.
  unfold str_of_Z, NilZero.string_of_int.
  destruct (Z.to_int z) as [d|d].
  - unfold NilZero.string_of_uint. destruct d; simpl; eexists _, _; split; try reflexivity; discriminate.
  - eexists _, _; split; [reflexivity | discriminate].
Qed.

Lemma render_row_not_in_range (r : row) (position : Z) :
  render_row r ≠ not_in_range position.
Proof.
  unfold render_row, not_in_range. simpl.
  destruct (str_of_Z_head (uniprot_pos r)) as (c & s & -> & Hc).
  simpl. intros H. inversion H. congruence.
Qed.

Lemma verdict_not_in_range (df : list row) (position : Z) :
  verdict df position = not_in_range position <-> position ∉ map uniprot_pos df.
Proof.
  rewrite <- filter_position_nil. unfold verdict.
  destruct (filter _ df) as [|r rs]; [tauto|].
  split; [intros H; apply render_row_not_in_range in H; contradiction | discriminate].
Qed.

(** C3, as the code has it.  The resolver returns (no exception) one
    verdict for each distinct queried position, and the verdict of a
    position is the not-in-range message exactly when the position is not
    a reference position of the table the resolver is given; otherwise it
    is the rendering of the first row at that position.
    [align_uniprot_pdb] gives the resolver the table as it is before the
    terminal attachments are removed. *)
Theorem get_mutations_total (set_iter : list Z -> list Z) (mut_pos : list Z) (df : list row) :
  enumerates (set_iter mut_pos) mut_pos ->
  exists ps muts,
    get_mutations set_iter mut_pos df = Ok muts /\
    NoDup ps /\ (forall p, p ∈ ps <-> p ∈ mut_pos) /\
    Forall2 (fun p v =>
               (v = not_in_range p <-> p ∉ map uniprot_pos df) /\
               (forall r, head (filter (fun r => uniprot_pos r = p) df) = Some r ->
                          v = render_row r))
            ps muts.
Proof.
  intros [Hnd Hel]. exists (set_iter mut_pos), (map (verdict df) (set_iter mut_pos)).
  split; [apply get_mutations_map|]. split; [exact Hnd|]. split; [exact Hel|].
  apply Forall2_fmap_r, Forall_Forall2_diag, Forall_forall. intros p _.
  split; [apply verdict_not_in_range|].
  intros r Hr. unfold verdict. destruct (filter _ df) as [|r' rs]; [discriminate|].
  simpl in Hr. congruence.
Qed.

(** In the loop body the resolver is given the table of the columns where
    the structure has a residue, as it is before trimming. *)
Lemma aligned_chain_resolver_table (set_iter : list Z -> list Z)
    (uniprot_numbering l : list Z) (acc : columns) (chain_str : string) (pos : list Z)
    (chain_warning : list (string + list string)) (uniprot_aligned pdb_aligned : string)
    (acc' : columns) :
  aligned_chain set_iter uniprot_numbering (Positions l) acc chain_str pos chain_warning
                uniprot_aligned pdb_aligned = Ok acc' ->
  exists df,
    data_frame (list_ascii_of_string uniprot_aligned)
               (numerical_alignment uniprot_aligned uniprot_numbering)
               (list_ascii_of_string pdb_aligned)
               (numerical_alignment pdb_aligned pos) = Ok df /\
    mutational_column acc' =
      mutational_column acc ++
      [map (verdict (filter (fun r => pdb_seq r ≠ "-"%char) df)) (set_iter l)].
Proof.
  unfold aligned_chain. destruct (data_frame _ _ _ _) as [df|]; simpl; [|discriminate].
  rewrite get_mutations_map. simpl.
  destruct (get_all_discrepancies _) as [[[df' ms] ws]|]; simpl; [|discriminate].
  destruct (get_coverage _ _) as [ranges_covered|]; simpl; [|discriminate].
  intros H. inversion H; subst. simpl. exists df. split; reflexivity.
Qed.

(** C3, as stated, fails.  In the table of a chain whose first three
    residues differ from the reference, the attachment is trimmed from the
    coverage, so position 2 is absent from the trimmed table; the resolver,
    which ran before the trimming, still resolves position 2. *)
Lemma get_mutations_before_trimming :
  let df := [ {| uniprot_seq := "M"; uniprot_pos := 1; pdb_seq := "G"; pdb_pos := 1 |};
              {| uniprot_seq := "K"; uniprot_pos := 2; pdb_seq := "S"; pdb_pos := 2 |};
              {| uniprot_seq := "T"; uniprot_pos := 3; pdb_seq := "H"; pdb_pos := 3 |};
              {| uniprot_seq := "A"; uniprot_pos := 4; pdb_seq := "A"; pdb_pos := 4 |};
              {| uniprot_seq := "Y"; uniprot_pos := 5; pdb_seq := "Y"; pdb_pos := 5 |} ] in
  data_frame (list_ascii_of_string "MKTAY") (numerical_alignment "MKTAY" [1; 2; 3; 4; 5])
             (list_ascii_of_string "GSHAY") (numerical_alignment "GSHAY" [1; 2; 3; 4; 5])
    = Ok df /\
  (exists trimmed discrepancies warnings,
     get_all_discrepancies df = Ok (trimmed, discrepancies, warnings) /\
     2 ∉ map uniprot_pos trimmed) /\
  get_mutations CPython.set_iter [2] df = Ok ["K2S"%string] /\
  "K2S"%string ≠ not_in_range 2 /\
  aligned_chain CPython.set_iter [1; 2; 3; 4; 5] (Positions [2]) no_columns "A"
                [1; 2; 3; 4; 5] [] "MKTAY" "GSHAY"
    = Ok {| chains := ["A"%string];
            coverage := ["[(4, 5)]"%string];
            mutational_column := [["K2S"%string]];
            mutation_list := [inl "NA"%string];
            warning_column :=
              ["attachment at N-terminal with length 3 have been removed from coverage"%string] |}.
Proof.
  split; [reflexivity|]. split.
  - eexists _, _, _. split; [vm_compute; reflexivity|].
    vm_compute. intros H. apply (bool_decide_pack (2 ∈ [4; 5])) in H. vm_compute in H. exact H.
  - split; [vm_compute; reflexivity|]. split; [discriminate|]. vm_compute. reflexivity.
Qed.

Lemma get_mutations_total_witness :
  let df := [ {| uniprot_seq := "M"; uniprot_pos := 49; pdb_seq := "M"; pdb_pos := 1 |};
              {| uniprot_seq := "K"; uniprot_pos := 50; pdb_seq := "R"; pdb_pos := 2 |} ] in
  let mut_pos := [50; 999; 50] in
  enumerates (CPython.set_iter mut_pos) mut_pos /\
  exists ps muts,
    get_mutations CPython.set_iter mut_pos df = Ok muts /\
    NoDup ps /\ (forall p, p ∈ ps <-> p ∈ mut_pos) /\
    Forall2 (fun p v =>
               (v = not_in_range p <-> p ∉ map uniprot_pos df) /\
               (forall r, head (filter (fun r => uniprot_pos r = p) df) = Some r ->
                          v = render_row r))
            ps muts.
Proof.
  intros df mut_pos.
  assert (enumerates (CPython.set_iter mut_pos) mut_pos) as Hen.
  { split; [vm_compute; apply (bool_decide_unpack (NoDup _)); vm_compute; exact I|].
    intros x. vm_compute CPython.set_iter. subst mut_pos.
    rewrite !elem_of_cons. tauto. }
  split; [exact Hen|]. exact (get_mutations_total CPython.set_iter mut_pos df Hen).
Defined.

Lemma enumerates_Permutation (ps l : list Z) :
  enumerates ps l -> ps ≡ₚ drop_duplicates l.
Proof.
  intros [Hnd Hel]. apply NoDup_Permutation.
  - exact Hnd.
  - apply drop_duplicates_from_NoDup.
  - intros x. rewrite Hel. unfold drop_duplicates. rewrite drop_duplicates_from_elem.
    split; [intros H; split; [exact H | apply not_elem_of_nil] | tauto].
Qed.

(** C4, as the code has it.  The verdicts come in the iteration order of
    the set built from the queried positions: the i-th verdict is that of
    the i-th item of [list(set(mut_pos))].  That list is a rearrangement
    of the de-duplicated input, so the verdicts are those of the
    de-duplicated input, each once, in an order that need not be the
    input's. *)
Theorem get_mutations_order (set_iter : list Z -> list Z) (mut_pos : list Z) (df : list row) :
  enumerates (set_iter mut_pos) mut_pos ->
  exists muts,
    get_mutations set_iter mut_pos df = Ok muts /\
    muts = map (verdict df) (set_iter mut_pos) /\
    set_iter mut_pos ≡ₚ drop_duplicates mut_pos /\
    muts ≡ₚ map (verdict df) (drop_duplicates mut_pos).
Proof.
  intros Hen. exists (map (verdict df) (set_iter mut_pos)).
  split; [apply get_mutations_map|]. split; [reflexivity|].
  pose proof (enumerates_Permutation _ _ Hen) as Hp.
  split; [exact Hp|]. apply fmap_Permutation. exact Hp.
Qed.

(** C4, as stated, fails.  Position 999 is queried before position 50;
    CPython's set holds 50 in slot 2 and 999 in slot 7 of its table, so
    the verdict of 50 is emitted first. *)
Lemma get_mutations_order_counterexample :
  let df := [ {| uniprot_seq := "M"; uniprot_pos := 49; pdb_seq := "M"; pdb_pos := 1 |};
              {| uniprot_seq := "K"; uniprot_pos := 50; pdb_seq := "R"; pdb_pos := 2 |} ] in
  CPython.set_iter [999; 50] = [50; 999] /\
  drop_duplicates [999; 50] = [999; 50] /\
  get_mutations CPython.set_iter [999; 50] df
    = Ok ["K50R"%string; "Mutation on position 999 not in range"%string] /\
  map (verdict df) (drop_duplicates [999; 50])
    = ["Mutation on position 999 not in range"%string; "K50R"%string].
Proof. repeat split; vm_compute; reflexivity. Qed.

Lemma get_mutations_order_witness :
  let df := [ {| uniprot_seq := "M"; uniprot_pos := 49; pdb_seq := "M"; pdb_pos := 1 |};
              {| uniprot_seq := "K"; uniprot_pos := 50; pdb_seq := "R"; pdb_pos := 2 |} ] in
  let mut_pos := [999; 50; 999] in
  enumerates (CPython.set_iter mut_pos) mut_pos /\
  exists muts,
    get_mutations CPython.set_iter mut_pos df = Ok muts /\
    muts = map (verdict df) (CPython.set_iter mut_pos) /\
    CPython.set_iter mut_pos ≡ₚ drop_duplicates mut_pos /\
    muts ≡ₚ map (verdict df) (drop_duplicates mut_pos).
Proof.
  intros df mut_pos.
  assert (enumerates (CPython.set_iter mut_pos) mut_pos) as Hen.
  { split; [vm_compute; apply (bool_decide_unpack (NoDup _)); vm_compute; exact I|].
    intros x. vm_compute CPython.set_iter. subst mut_pos.
    rewrite !elem_of_cons. tauto. }
  split; [exact Hen|]. exact (get_mutations_order CPython.set_iter mut_pos df Hen).
Defined.

Example cpython_set_iter_examples :
  CPython.set_iter [3; 1; 2] = [1; 2; 3] /\
  CPython.set_iter [0; 8] = [0; 8] /\
  CPython.set_iter [8; 0] = [8; 0] /\
  CPython.set_iter [17; 5; 3; 17; 100; 200; 300; 8; 16; 24]
    = [3; 100; 5; 200; 8; 300; 16; 17; 24] /\
  CPython.set_iter [-1; -2; 5; 7] = [7; 5; -1; -2].
Proof. repeat split; vm_compute; reflexivity. Qed.

(** ** Artifact trimming *)

Lemma split_runs_concat (stepsize : Z) (a : list Z) :
  concat (split_runs stepsize a) = a.
Proof.
  induction a as [|x a IH]; [reflexivity|].
  cbn [split_runs]. destruct a as [|y a']; [reflexivity|].
  destruct (decide (y - x ≠ stepsize)).
  - cbn [concat]. rewrite IH. reflexivity.
  - destruct (split_runs stepsize (y :: a')) as [|run runs] eqn:Hs.
    + simpl in IH. discriminate.
    + cbn [concat] in *. simpl. rewrite IH. reflexivity.
Qed.

(** The first step-0 run holds a zero exactly when the first hotspot is 0. *)
Lemma split_runs_zero_head (a : list Z) :
  exists run runs,
    split_runs 0 a = run :: runs /\
    Forall (fun y => head a = Some y) run /\
    (0 ∈ run <-> head a = Some 0).
Proof.
  assert (exists run runs, split_runs 0 a = run :: runs /\
            Forall (fun y => head a = Some y) run /\ (a ≠ [] -> run ≠ []))
    as (run & runs & Hs & Hall & Hne).
  { induction a as [|x a IH].
    - exists [], []. split; [reflexivity|]. split; [constructor | congruence].
    - cbn [split_runs]. destruct a as [|y a'].
      + exists [x], []. split; [reflexivity|]. split; [repeat constructor | discriminate].
      + destruct (decide (y - x ≠ 0)) as [Hd|Hd].
        * eexists _, _. split; [reflexivity|]. split; [repeat constructor | discriminate].
        * destruct IH as (run & runs & -> & Hall & _).
          exists (x :: run), runs. split; [reflexivity|]. split; [|discriminate].
          assert (y = x) as -> by lia.
          constructor; [reflexivity | exact Hall]. }
  exists run, runs. split; [exact Hs|]. split; [exact Hall|]. split.
  - intros Hin. eapply Forall_forall in Hall; eauto.
  - intros Hh. destruct a as [|x a]; [discriminate|]. simpl in Hh. inversion Hh; subst.
    destruct run as [|y run]; [exfalso; apply Hne; [discriminate | reflexivity]|].
    apply Forall_cons in Hall as [Hy _]. simpl in Hy. inversion Hy; subst. left.
Qed.

Lemma trim_step_spec (seq_start seq_end : Z) (st : list Z * list string) (run : list Z) :
  (trim_step seq_start seq_end st run).2 = st.2 ++ run_warnings seq_start seq_end run /\
  (forall x, x ∈ (trim_step seq_start seq_end st run).1 <->
             x ∈ st.1 \/ (long_terminal seq_start seq_end run /\ x ∈ run)).
Proof.
  unfold trim_step, run_warnings, long_terminal.
  destruct (decide (2 < length run)%nat) as [Hl|Hl];
    [|split; [rewrite app_nil_r; reflexivity | intros x; tauto]].
  destruct (decide (seq_start ∈ run)); destruct (decide (seq_end ∈ run)); simpl;
    (split; [rewrite <- ?app_assoc, ?app_nil_r; reflexivity|]);
    intros x; rewrite ?elem_of_app; tauto.
Qed.

Lemma trim_fold_spec (seq_start seq_end : Z) (runs : list (list Z)) (st : list Z * list string) :
  (foldl (trim_step seq_start seq_end) st runs).2
    = st.2 ++ flat_map (run_warnings seq_start seq_end) runs /\
  (forall x, x ∈ (foldl (trim_step seq_start seq_end) st runs).1 <->
             x ∈ st.1 \/ exists run, run ∈ runs /\ long_terminal seq_start seq_end run /\ x ∈ run).
Proof.
  revert st. induction runs as [|run runs IH]; intros st; cbn [foldl flat_map].
  - split; [rewrite app_nil_r; reflexivity|]. intros x. split; [tauto|].
    intros [H|(run & Hin & _)]; [exact H | inversion Hin].
  - destruct (IH (trim_step seq_start seq_end st run)) as [Hw Hr].
    destruct (trim_step_spec seq_start seq_end st run) as [Hw1 Hr1].
    split; [rewrite Hw, Hw1, <- app_assoc; reflexivity|].
    intros x. rewrite Hr, Hr1. split.
    + intros [[H|[Hlt Hx]]|(run' & Hin & Hlt & Hx)].
      * left; exact H.
      * right. exists run. split; [left | tauto].
      * right. exists run'. split; [right; exact Hin | tauto].
    + intros [H|(run' & Hin & Hlt & Hx)]; [tauto|].
      apply elem_of_cons in Hin as [->|Hin]; [tauto|].
      right. exists run'. tauto.
Qed.

Lemma filter_eq_elem (x : Z) (l : list Z) :
  x ∈ l -> (1 ≤ length (filter (fun y => y = x) l))%nat.
Proof.
  induction l as [|y l IH]; intros Hin; [inversion Hin|].
  destruct (decide (y = x)) as [He|Hne].
  - rewrite filter_cons_True by exact He. simpl. lia.
  - rewrite filter_cons_False by exact Hne.
    apply elem_of_cons in Hin as [->|Hin]; [congruence | auto].
Qed.

(** A value that occurs once in an array lies in one run only. *)
Lemma runs_unique (runs : list (list Z)) (x : Z) (run1 run2 : list Z) :
  (length (filter (fun y => y = x) (concat runs)) ≤ 1)%nat ->
  run1 ∈ runs -> run2 ∈ runs -> x ∈ run1 -> x ∈ run2 -> run1 = run2.
Proof.
  induction runs as [|run runs IH]; intros Hc H1 H2 Hx1 Hx2; [inversion H1|].
  cbn [concat] in Hc. rewrite filter_app, length_app in Hc.
  assert (forall run', run' ∈ runs -> x ∈ run' ->
            (1 ≤ length (filter (fun y => y = x) (concat runs)))%nat) as Hin_rest.
  { intros run' Hr Hx. apply filter_eq_elem. apply list_elem_of_In, in_concat.
    exists run'. split; apply list_elem_of_In; assumption. }
  apply elem_of_cons in H1 as [->|H1]; apply elem_of_cons in H2 as [->|H2].
  - reflexivity.
  - pose proof (filter_eq_elem _ _ Hx1). pose proof (Hin_rest _ H2 Hx2). lia.
  - pose proof (filter_eq_elem _ _ Hx2). pose proof (Hin_rest _ H1 Hx1). lia.
  - apply IH; auto. lia.
Qed.

Lemma hotspots_rows_at (df : list row) (x : Z) :
  (length (filter (fun y => y = x) (hotspots df)) ≤ rows_at df x)%nat.
Proof.
  unfold hotspots, rows_at. induction df as [|r df IH]; [reflexivity|].
  destruct (decide (uniprot_seq r ≠ pdb_seq r)) as [Hd|Hd].
  - rewrite (filter_cons_True (fun r => uniprot_seq r ≠ pdb_seq r)) by exact Hd. cbn [map].
    destruct (decide (uniprot_pos r = x)) as [He|Hne].
    + rewrite !filter_cons_True by exact He. simpl. lia.
    + rewrite !filter_cons_False by exact Hne. exact IH.
  - rewrite (filter_cons_False (fun r => uniprot_seq r ≠ pdb_seq r)) by exact Hd.
    destruct (decide (uniprot_pos r = x)) as [He|Hne].
    + rewrite filter_cons_True by exact He. simpl. lia.
    + rewrite filter_cons_False by exact Hne. exact IH.
Qed.

(** What [removals] computes on a table that has a first and a last row. *)
Lemma removals_spec (df : list row) (seq_start seq_end : Z) :
  head (map uniprot_pos df) = Some seq_start ->
  last (map uniprot_pos df) = Some seq_end ->
  exists removal_values warnings n_ter_0,
    removals df = Ok (removal_values, warnings) /\
    head (split_runs 0 (hotspots df)) = Some n_ter_0 /\
    warnings =
      (if decide (head (hotspots df) = Some 0)
       then [attachment_warning "N" (length n_ter_0)] else []) ++
      flat_map (run_warnings seq_start seq_end) (split_runs 1 (hotspots df)) /\
    (forall x, x ∈ removal_values <->
       (x = 0 /\ head (hotspots df) = Some 0) \/
       exists run, run ∈ split_runs 1 (hotspots df) /\
                   long_terminal seq_start seq_end run /\ x ∈ run).
Proof.
  intros Hhead Hlast. unfold removals.
  rewrite head_lookup in Hhead. rewrite (getitem_lookup _ _ _ Hhead), Hlast.
  destruct (split_runs_zero_head (hotspots df)) as (n_ter_0 & rest & Hs & _ & Hzero).
  rewrite Hs. cbn [getitem lookup list_lookup mbind result_bind Py.bind].
  set (st0 := if decide (0 ∈ n_ter_0)
              then ([0], [attachment_warning "N" (length n_ter_0)]) else ([], [])).
  destruct (trim_fold_spec seq_start seq_end (split_runs 1 (hotspots df)) st0) as [Hw Hr].
  destruct (foldl (trim_step seq_start seq_end) st0 (split_runs 1 (hotspots df)))
    as [removal_values warnings]. simpl in Hw, Hr.
  exists removal_values, warnings, n_ter_0. split; [reflexivity|]. split; [reflexivity|].
  subst st0. split.
  - rewrite Hw. destruct (decide (0 ∈ n_ter_0)) as [Hz|Hz].
    + rewrite decide_True by (apply Hzero; exact Hz). reflexivity.
    + rewrite decide_False by (rewrite <- Hzero; exact Hz). reflexivity.
  - intros x. rewrite Hr. destruct (decide (0 ∈ n_ter_0)) as [Hz|Hz]; simpl.
    + rewrite list_elem_of_singleton. apply Hzero in Hz. tauto.
    + rewrite elem_of_nil. rewrite Hzero in Hz. tauto.
Qed.

(** C7, as the code has it.  On a table with a first and a last row the
    trimming step returns (no exception) the rows of the table, in order,
    without those whose reference position
    - is 0, when the first hotspot is at position 0 (whatever the length of
      that run), or
    - lies in a run of consecutive hotspots longer than 2 that holds the
      first or the last reference position of the table.
    It records one warning with the length of the leading step-0 run in the
    first case, and for each run of the second case one warning per terminus
    it holds, with the run's length.  A run of at most 2 hotspots whose
    positions each stand in one row only, and which does not hold a removed
    0, keeps all its rows. *)
Theorem get_all_discrepancies_trimming (df : list row) (seq_start seq_end : Z) :
  head (map uniprot_pos df) = Some seq_start ->
  last (map uniprot_pos df) = Some seq_end ->
  exists trimmed discrepancies warnings n_ter_0,
    get_all_discrepancies df = Ok (trimmed, discrepancies, warnings) /\
    head (split_runs 0 (hotspots df)) = Some n_ter_0 /\
    trimmed `sublist_of` df /\
    (forall r, r ∈ trimmed <->
       r ∈ df /\
       ~ (uniprot_pos r = 0 /\ head (hotspots df) = Some 0) /\
       ~ (exists run, run ∈ split_runs 1 (hotspots df) /\
                      long_terminal seq_start seq_end run /\ uniprot_pos r ∈ run)) /\
    warnings =
      (if decide (head (hotspots df) = Some 0)
       then [attachment_warning "N" (length n_ter_0)] else []) ++
      flat_map (run_warnings seq_start seq_end) (split_runs 1 (hotspots df)) /\
    discrepancies = map render_row (filter (fun r => uniprot_seq r ≠ pdb_seq r) trimmed) /\
    (forall run, run ∈ split_runs 1 (hotspots df) -> (length run ≤ 2)%nat ->
       (forall x, x ∈ run -> (rows_at df x ≤ 1)%nat) ->
       (head (hotspots df) = Some 0 -> 0 ∉ run) ->
       forall r, r ∈ df -> uniprot_pos r ∈ run -> r ∈ trimmed).
Proof.
  intros Hhead Hlast.
  destruct (removals_spec df seq_start seq_end Hhead Hlast)
    as (removal_values & warnings & n_ter_0 & Hrem & Hn & Hw & Hr).
  unfold get_all_discrepancies. rewrite Hrem.
  cbn [mbind result_bind Py.bind].
  eexists _, _, warnings, n_ter_0. split; [reflexivity|]. split; [exact Hn|].
  split; [apply sublist_filter|].
  assert (forall r, r ∈ filter (fun r => uniprot_pos r ∉ removal_values) df <->
            r ∈ df /\
            ~ (uniprot_pos r = 0 /\ head (hotspots df) = Some 0) /\
            ~ (exists run, run ∈ split_runs 1 (hotspots df) /\
                 long_terminal seq_start seq_end run /\ uniprot_pos r ∈ run)) as Hkeep.
  { intros r. rewrite list_elem_of_filter, Hr. tauto. }
  split; [exact Hkeep|]. split; [exact Hw|]. split; [reflexivity|].
  intros run Hrun Hshort Honce Hzero r Hdf Hpos. apply Hkeep.
  split; [exact Hdf|]. split.
  - intros [H0 Hh]. rewrite H0 in Hpos. exact (Hzero Hh Hpos).
  - intros (run' & Hrun' & [Hlong _] & Hpos').
    assert (run = run') as <-; [|lia].
    apply (runs_unique (split_runs 1 (hotspots df)) (uniprot_pos r)); auto.
    rewrite split_runs_concat.
    pose proof (hotspots_rows_at df (uniprot_pos r)). specialize (Honce _ Hpos). lia.
Qed.

(** C7, as stated, fails: a structure with one residue before the start of
    the reference gives a table whose first row is at position 0; that run
    of one hotspot touches the first reference position and is removed. *)
Lemma get_all_discrepancies_short_zero_run :
  let df := [ {| uniprot_seq := "-"; uniprot_pos := 0; pdb_seq := "G"; pdb_pos := 1 |};
              {| uniprot_seq := "M"; uniprot_pos := 1; pdb_seq := "M"; pdb_pos := 2 |};
              {| uniprot_seq := "K"; uniprot_pos := 2; pdb_seq := "K"; pdb_pos := 3 |} ] in
  data_frame (list_ascii_of_string "-MK") (numerical_alignment "-MK" [1; 2])
             (list_ascii_of_string "GMK") (numerical_alignment "GMK" [1; 2; 3]) = Ok df /\
  head (map uniprot_pos df) = Some 0 /\
  split_runs 1 (hotspots df) = [[0]] /\
  get_all_discrepancies df
  = Ok ([ {| uniprot_seq := "M"; uniprot_pos := 1; pdb_seq := "M"; pdb_pos := 2 |};
          {| uniprot_seq := "K"; uniprot_pos := 2; pdb_seq := "K"; pdb_pos := 3 |} ],
        [],
        ["attachment at N-terminal with length 1 have been removed from coverage"%string]).
Proof. repeat split; vm_compute; reflexivity. Qed.

Example get_all_discrepancies_examples :
  let mk u n p := {| uniprot_seq := u; uniprot_pos := n; pdb_seq := p; pdb_pos := n |} in
  (* two hotspots at the start survive, three at the end are removed *)
  get_all_discrepancies
    [mk "M" 1 "G"; mk "K" 2 "S"; mk "T" 3 "T"; mk "A" 4 "A";
     mk "Y" 5 "H"; mk "I" 6 "H"; mk "A" 7 "H"]%char
  = Ok ([mk "M" 1 "G"; mk "K" 2 "S"; mk "T" 3 "T"; mk "A" 4 "A"]%char,
        ["M1G"; "K2S"]%string,
        ["attachment at C-terminal with length 3 have been removed from coverage"%string]) /\
  get_all_discrepancies [] = Raise IndexError.
Proof. split; vm_compute; reflexivity. Qed.

Lemma get_all_discrepancies_trimming_witness :
  let mk u n p := {| uniprot_seq := u; uniprot_pos := n; pdb_seq := p; pdb_pos := n |} in
  let df := [mk "M" 1 "G"; mk "K" 2 "S"; mk "T" 3 "T"; mk "A" 4 "A";
             mk "Y" 5 "H"; mk "I" 6 "H"; mk "A" 7 "H"]%char in
  head (map uniprot_pos df) = Some 1 /\ last (map uniprot_pos df) = Some 7 /\
  exists trimmed discrepancies warnings n_ter_0,
    get_all_discrepancies df = Ok (trimmed, discrepancies, warnings) /\
    head (split_runs 0 (hotspots df)) = Some n_ter_0 /\
    trimmed `sublist_of` df /\
    (forall r, r ∈ trimmed <->
       r ∈ df /\
       ~ (uniprot_pos r = 0 /\ head (hotspots df) = Some 0) /\
       ~ (exists run, run ∈ split_runs 1 (hotspots df) /\
                      long_terminal 1 7 run /\ uniprot_pos r ∈ run)) /\
    warnings =
      (if decide (head (hotspots df) = Some 0)
       then [attachment_warning "N" (length n_ter_0)] else []) ++
      flat_map (run_warnings 1 7) (split_runs 1 (hotspots df)) /\
    discrepancies = map render_row (filter (fun r => uniprot_seq r ≠ pdb_seq r) trimmed) /\
    (forall run, run ∈ split_runs 1 (hotspots df) -> (length run ≤ 2)%nat ->
       (forall x, x ∈ run -> (rows_at df x ≤ 1)%nat) ->
       (head (hotspots df) = Some 0 -> 0 ∉ run) ->
       forall r, r ∈ df -> uniprot_pos r ∈ run -> r ∈ trimmed).
Proof.
  intros mk df. split; [reflexivity|]. split; [reflexivity|].
  apply (get_all_discrepancies_trimming df 1 7); reflexivity.
Defined.

(** ** Predicted models *)

Lemma af_row_at_lt (letters : list ascii) (scores : list Q) (k z : Z) :
  z < k -> af_row_at letters scores k z = [].
Proof.
  intros Hlt. unfold af_row_at.
  destruct (letters !! Z.to_nat (z - k)); [|reflexivity].
  destruct (scores !! Z.to_nat (z - k)); [|reflexivity].
  rewrite decide_False by lia. reflexivity.
Qed.

Lemma af_row_at_cons (c : ascii) (letters : list ascii) (score : Q) (scores : list Q) (k z : Z) :
  k < z -> af_row_at (c :: letters) (score :: scores) k z = af_row_at letters scores (k + 1) z.
Proof.
  intros Hlt. unfold af_row_at.
  replace (Z.to_nat (z - k)) with (S (Z.to_nat (z - (k + 1)))) by lia. simpl.
  destruct (letters !! Z.to_nat (z - (k + 1))); [|reflexivity].
  destruct (scores !! Z.to_nat (z - (k + 1))); [|reflexivity].
  rewrite decide_True by lia. rewrite decide_True by lia. reflexivity.
Qed.

Lemma af_rows_select (letters : list ascii) (scores : list Q) (k z : Z) :
  filter (fun r => position r = z)
         (af_rows (seqZ k (Z.of_nat (length letters))) letters scores)
  = af_row_at letters scores k z.
Proof.
  revert scores k. induction letters as [|c letters IH]; intros scores k.
  - unfold af_row_at. rewrite lookup_nil. reflexivity.
  - cbn [length]. rewrite Nat2Z.inj_succ, seqZ_cons by lia.
    replace (Z.pred (Z.succ (Z.of_nat (length letters)))) with (Z.of_nat (length letters)) by lia.
    replace (Z.succ k) with (k + 1) by lia.
    destruct scores as [|score scores].
    + unfold af_row_at. rewrite lookup_nil. simpl.
      destruct (_ !! _); reflexivity.
    + cbn [af_rows].
      destruct (decide (k = z)) as [->|Hne].
      * rewrite filter_cons_True by reflexivity. rewrite IH.
        rewrite af_row_at_lt by lia.
        unfold af_row_at. rewrite Z.sub_diag. simpl.
        rewrite decide_True by lia. reflexivity.
      * rewrite filter_cons_False by (simpl; congruence). rewrite IH.
        destruct (decide (k < z)) as [Hlt|Hge].
        -- rewrite af_row_at_cons by exact Hlt. reflexivity.
        -- rewrite !af_row_at_lt by lia. reflexivity.
Qed.

Lemma confidence_category_high (score : Q) :
  confidence_category score = "high"%string <-> (70 < score)%Q.
Proof.
  unfold confidence_category. destruct (Qlt_le_dec 70 score) as [Hlt|Hle].
  - tauto.
  - split; [discriminate|]. intros Hlt. exfalso. exact (Qlt_not_le _ _ Hlt Hle).
Qed.

Lemma af_verdict_expected (letters : list ascii) (scores : list Q) (q : query) :
  af_verdict (af_rows (seqZ 1 (Z.of_nat (length letters))) letters scores) q
  = Ok (af_expected letters scores q).
Proof.
  unfold af_verdict, af_expected.
  destruct q as [z|s].
  - rewrite decide_False by discriminate. unfold select_position.
    rewrite af_rows_select. unfold af_row_at.
    destruct (letters !! _) as [c|]; [|reflexivity].
    destruct (scores !! _) as [score|]; [|reflexivity].
    destruct (decide (1 ≤ z)); [|reflexivity].
    cbn [mbind result_bind Py.bind category].
    unfold confidence_category. destruct (Qlt_le_dec 70 score); reflexivity.
  - destruct (decide (s = "NA"%string)) as [->|Hne].
    + rewrite decide_True by reflexivity. reflexivity.
    + rewrite decide_False by congruence. reflexivity.
Qed.

Lemma bound_pairs_cons2 (a b : Z) (f : list Z) (ps : list (Z * Z)) :
  bound_pairs f = Ok ps -> bound_pairs (a :: b :: f) = Ok ((a, b) :: ps).
Proof. intros H. cbn [bound_pairs]. rewrite H. reflexivity. Qed.

Lemma bound_pairs_breaks (confident_seq : list Z) (a b : Z) :
  exists ps, bound_pairs (a :: breaks confident_seq ++ [b]) = Ok ps.
Proof.
  revert a. induction confident_seq as [|c1 cs IH]; intros a.
  - simpl. eauto.
  - destruct cs as [|c2 cs']; [simpl; eauto|].
    cbn [breaks]. destruct (decide (c1 + 1 ≠ c2)).
    + destruct (IH c2) as [ps Hps].
      exists ((a, c1) :: ps). apply bound_pairs_cons2. exact Hps.
    + apply IH.
Qed.

Lemma af_rows_confident (letters : list ascii) (ATOMS : list atom) (z : Z) :
  length letters = length ATOMS -> high_confidence ATOMS z ->
  z ∈ map position (filter (fun r => category r = "high"%string)
                      (af_rows (seqZ 1 (Z.of_nat (length letters))) letters
                               (map b_factor ATOMS))).
Proof.
  intros Hlen (a & Hz & Ha & Hhigh).
  destruct (lookup_lt_is_Some_2 letters (Z.to_nat (z - 1))) as [c Hc].
  { rewrite Hlen. eapply lookup_lt_Some. exact Ha. }
  pose proof (af_rows_select letters (map b_factor ATOMS) 1 z) as Hsel.
  unfold af_row_at in Hsel. rewrite Hc, list_lookup_fmap, Ha in Hsel. simpl in Hsel.
  rewrite decide_True in Hsel by exact Hz.
  set (r := {| position := z; sequence := c; PDDLT := b_factor a;
               category := confidence_category (b_factor a) |}) in Hsel.
  assert (r ∈ filter (fun r => position r = z)
                (af_rows (seqZ 1 (Z.of_nat (length letters))) letters (map b_factor ATOMS)))
    as Hr by (rewrite Hsel; left).
  apply list_elem_of_filter in Hr as [_ Hr].
  apply list_elem_of_fmap. exists r. split; [reflexivity|].
  apply list_elem_of_filter. split; [|exact Hr].
  apply confidence_category_high. exact Hhigh.
Qed.

Lemma af_expected_cases (letters : list ascii) (ATOMS : list atom) (q : query) :
  length letters = length ATOMS ->
  let v := af_expected letters (map b_factor ATOMS) q in
  (q = QStr "NA" /\ v = "NA"%string) \/
  (exists z c, q = QInt z /\ high_confidence ATOMS z /\
               letters !! Z.to_nat (z - 1) = Some c /\
               v = String c (String.append (str_of_Z z) (String c EmptyString))) \/
  (q ≠ QStr "NA" /\ (forall z, q = QInt z -> ~ high_confidence ATOMS z) /\
   v = "Mutation not in range"%string).
Proof.
  intros Hlen v. subst v. unfold af_expected. destruct q as [z|s].
  - rewrite list_lookup_fmap.
    destruct (letters !! Z.to_nat (z - 1)) as [c|] eqn:Hc.
    + destruct (ATOMS !! Z.to_nat (z - 1)) as [a|] eqn:Ha; simpl.
      * destruct (decide (1 ≤ z)) as [Hz|Hz].
        -- destruct (Qlt_le_dec 70 (b_factor a)) as [Hlt|Hle].
           ++ right; left. exists z, c. split; [reflexivity|].
              split; [exists a; auto|]. split; [exact Hc | reflexivity].
           ++ right; right. split; [discriminate|]. split; [|reflexivity].
              intros z' Hz' (a' & _ & Ha' & Hlt). inversion Hz'; subst z'.
              rewrite Ha in Ha'. inversion Ha'; subst a'.
              exact (Qlt_not_le _ _ Hlt Hle).
        -- right; right. split; [discriminate|]. split; [|reflexivity].
           intros z' Hz' (a' & Hz1 & _). inversion Hz'; subst z'. lia.
      * right; right. split; [discriminate|]. split; [|reflexivity].
        intros z' Hz' (a' & _ & Ha' & _). inversion Hz'; subst z'. congruence.
    + right; right. split; [discriminate|]. split; [|reflexivity].
      intros z' Hz' (a' & _ & Ha' & _). inversion Hz'; subst z'.
      apply lookup_lt_Some in Ha'. apply lookup_ge_None in Hc. lia.
  - destruct (decide (s = "NA"%string)) as [->|Hne].
    + left. split; reflexivity.
    + right; right. split; [congruence|]. split; [discriminate | reflexivity].
Qed.

(** The verdicts of [align_alphafold], item by item.  When the model gives
    one letter per residue and at least one position has a score above 70,
    the function returns (no exception) the comma-joined list of one
    verdict per item of [mutation_positions], in order: "NA" for an item
    that is the string "NA"; the residue letter, the position and the
    letter again for a position whose score is above 70; and "Mutation not
    in range" for every other item. *)
Theorem align_alphafold_verdicts
    (seq1 : string -> string) (ATOMS : list atom) (mutation_positions : list query) :
  let letters := list_ascii_of_string (seq1 (join EmptyString (map residue_name ATOMS))) in
  length letters = length ATOMS ->
  (exists z, high_confidence ATOMS z) ->
  exists coverage verdicts,
    align_alphafold seq1 ATOMS mutation_positions = Ok (coverage, join "," verdicts) /\
    Forall2 (fun q v =>
               (q = QStr "NA" /\ v = "NA"%string) \/
               (exists z c, q = QInt z /\ high_confidence ATOMS z /\
                            letters !! Z.to_nat (z - 1) = Some c /\
                            v = String c (String.append (str_of_Z z) (String c EmptyString))) \/
               (q ≠ QStr "NA" /\ (forall z, q = QInt z -> ~ high_confidence ATOMS z) /\
                v = "Mutation not in range"%string))
            mutation_positions verdicts.
Proof.
  intros letters Hlen [z Hz]. unfold align_alphafold. fold letters.
  rewrite decide_False by (intros H; apply H; exact Hlen).
  pose proof (af_rows_confident letters ATOMS z Hlen Hz) as Hin.
  rewrite <- Hlen.
  set (df := af_rows (seqZ 1 (Z.of_nat (length letters))) letters (map b_factor ATOMS)) in *.
  destruct (map position (filter (fun r => category r = "high"%string) df))
    as [|first rest] eqn:Hconf; [inversion Hin|].
  destruct (last (first :: rest)) as [final|] eqn:Hlast;
    [|apply last_None in Hlast; discriminate].
  destruct (bound_pairs_breaks (first :: rest) first final) as [ps Hps].
  rewrite Hps. cbn [mbind result_bind Py.bind].
  assert (mapM (af_verdict df) mutation_positions
          = Ok (map (af_expected letters (map b_factor ATOMS)) mutation_positions)) as ->.
  { apply mapM_Forall2_Ok, Forall2_fmap_r, Forall_Forall2_diag, Forall_forall.
    intros q _. apply af_verdict_expected. }
  cbn [Py.bind]. eexists _, _. split; [reflexivity|].
  apply Forall2_fmap_r, Forall_Forall2_diag, Forall_forall. intros q _.
  apply (af_expected_cases letters ATOMS q Hlen).
Qed.

Example align_alphafold_examples :
  let ATOMS := [ {| residue_name := "MET"; b_factor := 90 |};
                 {| residue_name := "LYS"; b_factor := 90.5 |};
                 {| residue_name := "THR"; b_factor := 40 |};
                 {| residue_name := "ALA"; b_factor := 90 |} ] in
  align_alphafold seq1_standard ATOMS [QInt 3; QInt 2; QStr "NA"; QInt 9]
    = Ok ("[(1, 2);(4, 4)]"%string,
          "Mutation not in range,K2K,NA,Mutation not in range"%string) /\
  align_alphafold seq1_standard ATOMS [QStr "N"; QStr "A"]
    = Ok ("[(1, 2);(4, 4)]"%string, "Mutation not in range,Mutation not in range"%string) /\
  align_alphafold seq1_standard
      [ {| residue_name := "MET"; b_factor := 70 |} ] [QInt 1]
    = Ok ("NA"%string, "NA"%string).
Proof. repeat split; vm_compute; reflexivity. Qed.

Lemma align_alphafold_verdicts_witness :
  let ATOMS := [ {| residue_name := "MET"; b_factor := 90 |};
                 {| residue_name := "LYS"; b_factor := 90.5 |};
                 {| residue_name := "THR"; b_factor := 40 |};
                 {| residue_name := "ALA"; b_factor := 90 |} ] in
  let mutation_positions := [QInt 3; QInt 2; QStr "NA"; QInt 9] in
  let letters := list_ascii_of_string (seq1_standard (join EmptyString (map residue_name ATOMS))) in
  length letters = length ATOMS /\
  (exists z, high_confidence ATOMS z) /\
  exists coverage verdicts,
    align_alphafold seq1_standard ATOMS mutation_positions
      = Ok (coverage, join "," verdicts) /\
    Forall2 (fun q v =>
               (q = QStr "NA" /\ v = "NA"%string) \/
               (exists z c, q = QInt z /\ high_confidence ATOMS z /\
                            letters !! Z.to_nat (z - 1) = Some c /\
                            v = String c (String.append (str_of_Z z) (String c EmptyString))) \/
               (q ≠ QStr "NA" /\ (forall z, q = QInt z -> ~ high_confidence ATOMS z) /\
                v = "Mutation not in range"%string))
            mutation_positions verdicts.
Proof.
  intros ATOMS mutation_positions letters.
  assert (exists z, high_confidence ATOMS z) as Hhigh.
  { exists 1. eexists. split; [lia|]. split; [reflexivity|]. reflexivity. }
  split; [reflexivity|]. split; [exact Hhigh|].
  apply (align_alphafold_verdicts seq1_standard ATOMS mutation_positions); [reflexivity | exact Hhigh].
Defined.

(** C9 at the query "NA".  For a structure without mutations of interest
    [align] hands over the string "NA" itself, not a list that holds it.
    The loop of [align_alphafold] then reads the two characters of the
    string; neither "N" nor "A" equals "NA", so the branch written for this
    query is never taken, no row has such a position, and the function
    answers "Mutation not in range" twice where the claim says "NA".  This
    holds for every model with one letter per residue and a score above
    70. *)
Theorem align_alphafold_NA_query (seq1 : string -> string) (ATOMS : list atom) :
  let letters := list_ascii_of_string (seq1 (join EmptyString (map residue_name ATOMS))) in
  length letters = length ATOMS ->
  (exists z, high_confidence ATOMS z) ->
  exists coverage,
    align_alphafold seq1 ATOMS (items_of NoMutations)
    = Ok (coverage, "Mutation not in range,Mutation not in range"%string) /\
    "Mutation not in range,Mutation not in range"%string ≠ "NA"%string.
Proof.
  intros letters Hlen [z Hz]. unfold align_alphafold. fold letters.
  rewrite decide_False by (intros H; apply H; exact Hlen).
  pose proof (af_rows_confident letters ATOMS z Hlen Hz) as Hin.
  rewrite <- Hlen.
  set (df := af_rows (seqZ 1 (Z.of_nat (length letters))) letters (map b_factor ATOMS)) in *.
  destruct (map position (filter (fun r => category r = "high"%string) df))
    as [|first rest] eqn:Hconf; [inversion Hin|].
  destruct (last (first :: rest)) as [final|] eqn:Hlast;
    [|apply last_None in Hlast; discriminate].
  destruct (bound_pairs_breaks (first :: rest) first final) as [ps Hps].
  rewrite Hps. cbn [mbind result_bind Py.bind].
  assert (mapM (af_verdict df) (items_of NoMutations)
          = Ok (map (af_expected letters (map b_factor ATOMS)) (items_of NoMutations))) as ->.
  { apply mapM_Forall2_Ok, Forall2_fmap_r, Forall_Forall2_diag, Forall_forall.
    intros q _. apply af_verdict_expected. }
  cbn [mbind result_bind Py.bind]. eexists. split; [reflexivity | discriminate].
Qed.

Lemma align_alphafold_NA_query_witness :
  let ATOMS := [ {| residue_name := "MET"; b_factor := 90 |};
                 {| residue_name := "LYS"; b_factor := 90.5 |};
                 {| residue_name := "THR"; b_factor := 40 |};
                 {| residue_name := "ALA"; b_factor := 90 |} ] in
  let letters := list_ascii_of_string (seq1_standard (join EmptyString (map residue_name ATOMS))) in
  length letters = length ATOMS /\
  (exists z, high_confidence ATOMS z) /\
  exists coverage,
    align_alphafold seq1_standard ATOMS (items_of NoMutations)
    = Ok (coverage, "Mutation not in range,Mutation not in range"%string) /\
    "Mutation not in range,Mutation not in range"%string ≠ "NA"%string.
Proof.
  intros ATOMS letters.
  assert (exists z, high_confidence ATOMS z) as Hhigh.
  { exists 1. eexists. split; [lia|]. split; [reflexivity|]. reflexivity. }
  split; [reflexivity|]. split; [exact Hhigh|].
  exact (align_alphafold_NA_query seq1_standard ATOMS eq_refl Hhigh).
Defined.

(** ** Failure of one chain in the loop over the chains *)

Section ChainLoop.

Variable seq1 : string -> string.
Variable localms : string -> string -> list (string * string).
Variable set_iter : list Z -> list Z.
Variable model : gmap string (list residue).
Variable h : header.
Variable uniprot_sequence : string.
Variable uniprot_numbering : list Z.
Variable mut_pos : mutation_positions.

Let body := chain_body seq1 localms set_iter model h uniprot_sequence uniprot_numbering mut_pos.
Let loop := chain_loop seq1 localms set_iter model h uniprot_sequence uniprot_numbering mut_pos.
Let run := align_uniprot_pdb seq1 localms set_iter model h uniprot_sequence
             uniprot_numbering mut_pos.

Lemma chain_loop_app (pre post : list string) (acc : columns) :
  loop (pre ++ post) acc =
    (f ← loop pre acc;
     match f with
     | Next acc' => loop post acc'
     | Return output_array => Ok (Return output_array)
     end).
Proof.
  revert acc. induction pre as [|c pre IH]; intros acc; [reflexivity|].
  subst loop. cbn [app chain_loop].
  destruct (chain_body _ _ _ _ _ _ _ _ acc c) as [[acc'|out]|e]; simpl; [apply IH | reflexivity..].
Qed.

Lemma chain_body_Return (acc : columns) (chain_str : string) (output_array : list string) :
  body acc chain_str = Ok (Return output_array) -> output_array = empty_output.
Proof.
  subst body. unfold chain_body.
  destruct (get_AA_pos seq1 chain_str model) as [[AA pos]|]; simpl; [|discriminate].
  destruct (decide (AA = [])); [intros H; inversion H; reflexivity|].
  destruct (missing_step seq1 h chain_str pos AA) as [[st cw]|]; simpl; [|discriminate].
  destruct (alignment localms uniprot_sequence (AA_pdb st)) as [[u p]|]; [|discriminate].
  destruct (aligned_chain _ _ _ _ _ _ _ _ _); simpl; discriminate.
Qed.

Lemma chain_loop_Return (cs : list string) (acc : columns) (output_array : list string) :
  loop cs acc = Ok (Return output_array) -> output_array = empty_output.
Proof.
  revert acc. induction cs as [|c cs IH]; intros acc; subst loop; cbn [chain_loop].
  - discriminate.
  - destruct (chain_body _ _ _ _ _ _ _ _ acc c) as [[acc'|out]|e] eqn:Hb; simpl.
    + apply IH.
    + intros H. inversion H; subst. eapply chain_body_Return. exact Hb.
    + discriminate.
Qed.

Lemma missing_step_ok (chain_str : string) (pos : list Z) (AA : list string) :
  length pos = length AA ->
  exists st chain_warning,
    missing_step seq1 h chain_str pos AA = Ok (st, chain_warning) /\
    blanked {| pos_pdb := pos; AA_pdb := AA |} st.
Proof.
  intros Hlen. unfold missing_step. destruct (has_missing_residues h).
  - destruct (remove_missing_residues_blanked seq1 h {| pos_pdb := pos; AA_pdb := AA |}
                chain_str Hlen) as (st & w & -> & Hb).
    simpl. eexists _, _. split; [reflexivity | exact Hb].
  - eexists _, _. split; [reflexivity | apply blanked_refl].
Qed.

(** C2, as the code has it.  For a chain [chain_str] of a structure whose
    chains are [pre ++ chain_str :: post]:
    - when its extraction fails ([get_AA_pos] returns empty lists), the
      function returns at once the array of five empty strings, whatever the
      chains before it gave and without a look at the chains after it (no
      exception, unless an earlier chain raised one);
    - when its extraction succeeds, the missing-residue step succeeds too,
      and if then no alignment is found the chain is skipped: the result is
      that of the structure without this chain. *)
Theorem chain_failure (pre post : list string) (chain_str : string)
    (AA : list string) (pos : list Z) :
  get_AA_pos seq1 chain_str model = Ok (AA, pos) ->
  (AA = [] ->
     forall f, loop pre no_columns = Ok f ->
       run (pre ++ chain_str :: post) = Ok empty_output) /\
  (AA ≠ [] ->
     exists st chain_warning,
       missing_step seq1 h chain_str pos AA = Ok (st, chain_warning) /\
       (alignment localms uniprot_sequence (AA_pdb st) = None ->
          run (pre ++ chain_str :: post) = run (pre ++ post))).
Proof.
  intros Hget. split.
  - intros -> f Hpre. subst run. unfold align_uniprot_pdb. fold loop.
    rewrite chain_loop_app, Hpre. simpl. destruct f as [acc|out].
    + subst loop. cbn [chain_loop]. unfold chain_body. rewrite Hget. simpl. reflexivity.
    + apply chain_loop_Return in Hpre. subst out. reflexivity.
  - intros Hne.
    destruct (missing_step_ok chain_str pos AA (get_AA_pos_parallel _ _ _ _ _ Hget))
      as (st & cw & Hms & _).
    exists st, cw. split; [exact Hms|]. intros Hal.
    subst run. unfold align_uniprot_pdb. fold loop. rewrite !chain_loop_app.
    destruct (loop pre no_columns) as [[acc|out]|e]; simpl; try reflexivity.
    subst loop. cbn [chain_loop]. unfold chain_body at 1. rewrite Hget. simpl.
    rewrite decide_False by exact Hne. rewrite Hms. simpl. rewrite Hal. simpl. reflexivity.
Qed.

End ChainLoop.

(** C2, as stated, fails.  Chain A agrees with the reference and, alone,
    gives a result.  Chain B holds two glycines only, so its extraction
    fails; with B in the structure the function returns the array of empty
    strings: the result of A is lost when B comes after it, and A is not
    looked at when B comes first. *)
Lemma align_uniprot_pdb_drops_structure :
  let residue_at name number := {| resname := name; resseq := number; icode := " " |} in
  let model : gmap string (list residue) :=
    {[ "A"%string := [residue_at "MET"%string 1; residue_at "LYS"%string 2;
                      residue_at "THR"%string 3; residue_at "ALA"%string 4;
                      residue_at "TYR"%string 5];
       "B"%string := [residue_at "GLY"%string 1; residue_at "GLY"%string 2] ]} in
  let h := {| has_missing_residues := false; missing_residues := [] |} in
  let run := align_uniprot_pdb seq1_standard localms_same CPython.set_iter model h
               "MKTAY" [1; 2; 3; 4; 5] NoMutations in
  get_AA_pos seq1_standard "B" model = Ok ([], []) /\
  run ["A"%string] = Ok ["A"; "[(1, 5)]"; EmptyString; "NA"; EmptyString]%string /\
  run ["A"%string; "B"%string] = Ok empty_output /\
  run ["B"%string; "A"%string] = Ok empty_output.
Proof. repeat split; vm_compute; reflexivity. Qed.

(** A chain for which no alignment is found is skipped on its own. *)
Example align_uniprot_pdb_skips_unaligned_chain :
  let residue_at name number := {| resname := name; resseq := number; icode := " " |} in
  let model : gmap string (list residue) :=
    {[ "A"%string := [residue_at "MET"%string 1; residue_at "LYS"%string 2;
                      residue_at "THR"%string 3; residue_at "ALA"%string 4;
                      residue_at "TYR"%string 5];
       "C"%string := [residue_at "MET"%string 1; residue_at "LYS"%string 2;
                      residue_at "THR"%string 3; residue_at "ALA"%string 4;
                      residue_at "TRP"%string 5] ]} in
  let h := {| has_missing_residues := false; missing_residues := [] |} in
  let run := align_uniprot_pdb seq1_standard localms_same CPython.set_iter model h
               "MKTAY" [1; 2; 3; 4; 5] (Positions [2; 9]) in
  run ["C"%string; "A"%string]
  = Ok ["A"; "[(1, 5)]"; "['Mutation on position 9 not in range', 'K2K']"; "NA"; EmptyString]%string /\
  run ["A"%string; "C"%string] = run ["A"%string].
Proof. split; vm_compute; reflexivity. Qed.

Lemma chain_failure_witness :
  let residue_at name number := {| resname := name; resseq := number; icode := " " |} in
  let model : gmap string (list residue) :=
    {[ "A"%string := [residue_at "MET"%string 1; residue_at "LYS"%string 2;
                      residue_at "THR"%string 3; residue_at "ALA"%string 4;
                      residue_at "TYR"%string 5];
       "B"%string := [residue_at "GLY"%string 1; residue_at "GLY"%string 2] ]} in
  let h := {| has_missing_residues := false; missing_residues := [] |} in
  let loop := chain_loop seq1_standard localms_same CPython.set_iter model h
                "MKTAY" [1; 2; 3; 4; 5] NoMutations in
  let run := align_uniprot_pdb seq1_standard localms_same CPython.set_iter model h
               "MKTAY" [1; 2; 3; 4; 5] NoMutations in
  get_AA_pos seq1_standard "B" model = Ok ([], []) /\
  ([] = ([] : list string) ->
     forall f, loop ["A"%string] no_columns = Ok f ->
       run (["A"%string] ++ "B"%string :: []) = Ok empty_output) /\
  ([] ≠ ([] : list string) ->
     exists st chain_warning,
       missing_step seq1_standard h "B" [] [] = Ok (st, chain_warning) /\
       (alignment localms_same "MKTAY" (AA_pdb st) = None ->
          run (["A"%string] ++ "B"%string :: []) = run (["A"%string] ++ []))).
Proof.
  intros residue_at model h loop run.
  assert (get_AA_pos seq1_standard "B" model = Ok ([], [])) as Hget
    by (vm_compute; reflexivity).
  split; [exact Hget|].
  exact (chain_failure seq1_standard localms_same CPython.set_iter model h
           "MKTAY" [1; 2; 3; 4; 5] NoMutations ["A"%string] [] "B" [] [] Hget).
Defined.

(** * Further properties *)

(** ** Extraction: insertion codes *)

Lemma extract_spec (seq1 : string -> string) (rs : list residue) (n : Z) :
  (extract seq1 rs n).1 = map (fun r => seq1 (resname r)) rs /\
  (extract seq1 rs n).2 =
    imap (fun i r => resseq r + n + insertion_codes rs (S i)) rs.
Proof.
  revert n. induction rs as [|r rs IH]; intros n; [split; reflexivity|].
  cbn [extract]. set (n' := if decide (icode r = " "%string) then n else n + 1).
  destruct (IH n') as [IH1 IH2]. destruct (extract seq1 rs n') as [AA pos].
  simpl in IH1, IH2. subst AA pos. split; [reflexivity|].
  rewrite imap_cons. cbn [snd]. f_equal.
  - unfold insertion_codes. cbn [take]. rewrite take_0. subst n'.
    destruct (decide (icode r = " "%string)) as [He|Hne].
    + rewrite filter_cons_False by (intros H; apply H; exact He). simpl. lia.
    + rewrite filter_cons_True by exact Hne. simpl. lia.
  - apply imap_ext. intros i r' _. unfold insertion_codes. simpl. cbn [take]. subst n'.
    destruct (decide (icode r = " "%string)) as [He|Hne].
    + rewrite filter_cons_False by (intros H; apply H; exact He). lia.
    + rewrite filter_cons_True by exact Hne. cbn [length]. lia.
Qed.

(** X1.  Extraction gives each residue its one-letter code and, as
    position, its sequence number plus the number of residues with an
    insertion code met so far, the residue itself included. *)
Theorem extract_positions (seq1 : string -> string) (rs : list residue) :
  (extract seq1 rs 0).1 = map (fun r => seq1 (resname r)) rs /\
  (extract seq1 rs 0).2 = imap (fun i r => resseq r + insertion_codes rs (S i)) rs.
Proof.
  destruct (extract_spec seq1 rs 0) as [H1 H2]. split; [exact H1|].
  rewrite H2. apply imap_ext. intros i r _. simpl. lia.
Qed.

Lemma extract_head (seq1 : string -> string) (rs : list residue) (n : Z) :
  head (extract seq1 rs n).2 =
    (fun r => resseq r + (if decide (icode r = " "%string) then n else n + 1)) <$> head rs.
Proof.
  destruct rs as [|r rs]; [reflexivity|]. cbn [extract].
  destruct (extract seq1 rs _) as [AA pos]. reflexivity.
Qed.

Lemma extract_increasing (seq1 : string -> string) (rs : list residue) (n : Z) :
  well_numbered rs -> Sorted Z.lt (extract seq1 rs n).2.
Proof.
  revert n. induction rs as [|r1 rs IH]; intros n Hw; [constructor|].
  cbn [extract]. set (n' := if decide (icode r1 = " "%string) then n else n + 1).
  pose proof (extract_head seq1 rs n') as Hhd.
  assert (well_numbered rs) as Hw' by (destruct rs; [exact I | apply Hw]).
  specialize (IH n' Hw').
  destruct (extract seq1 rs n') as [AA pos]. cbn [snd] in *.
  constructor; [exact IH|].
  destruct rs as [|r2 rs']; destruct pos as [|p pos]; try discriminate; constructor.
  cbn in Hhd. inversion Hhd; subst p. destruct Hw as [Hstep _].
  destruct (decide (icode r2 = " "%string)) as [He|Hne]; [|lia].
  destruct Hstep as [Hlt|[_ Hic]]; [lia | contradiction].
Qed.

(** X2.  On a chain whose sequence numbers never go down and where a
    repeated number comes with an insertion code, the extracted positions
    are strictly increasing: insertion codes never give two residues the
    same position. *)
Theorem extract_strictly_increasing (seq1 : string -> string) (rs : list residue) :
  well_numbered rs ->
  StronglySorted Z.lt (extract seq1 rs 0).2 /\ NoDup (extract seq1 rs 0).2.
Proof.
  intros Hw. pose proof (extract_increasing seq1 rs 0 Hw) as Hs.
  apply Sorted_StronglySorted in Hs; [|intros x y z; lia].
  split; [exact Hs|].
  induction Hs as [|x l Hl IH Hx]; constructor; [|exact IH].
  intros Hin. eapply Forall_forall in Hx; [|exact Hin]. lia.
Qed.

Example extract_insertion_codes :
  let residue_at name number code := {| resname := name; resseq := number; icode := code |} in
  extract seq1_standard
    [residue_at "MET" 10 " "; residue_at "LYS" 10 "A"; residue_at "THR" 10 "B";
     residue_at "ALA" 11 " "]%string 0
  = (["M"; "K"; "T"; "A"]%string, [10; 11; 12; 13]).
Proof. reflexivity. Qed.

Lemma extract_strictly_increasing_witness :
  let residue_at name number code := {| resname := name; resseq := number; icode := code |} in
  let rs := [residue_at "MET" 10 " "; residue_at "LYS" 10 "A"; residue_at "THR" 10 "B";
             residue_at "ALA" 11 " "]%string in
  well_numbered rs /\
  StronglySorted Z.lt (extract seq1_standard rs 0).2 /\ NoDup (extract seq1_standard rs 0).2.
Proof.
  intros residue_at rs.
  assert (well_numbered rs) as Hw.
  { simpl. repeat split; try (left; lia); right; split; try reflexivity; discriminate. }
  split; [exact Hw|]. exact (extract_strictly_increasing seq1_standard rs Hw).
Defined.

(** ** The gap-filling loop *)

Lemma list_insert_at_sublist {A} (l : list A) (i : nat) (x : A) :
  l `sublist_of` list_insert_at l i x.
Proof.
  unfold list_insert_at. rewrite <- (take_drop i l) at 1.
  apply sublist_app; [reflexivity|]. apply sublist_cons. reflexivity.
Qed.

Lemma list_insert_at_elem {A} (l : list A) (i : nat) (x a : A) :
  a ∈ list_insert_at l i x -> a ∈ l \/ a = x.
Proof.
  unfold list_insert_at. rewrite elem_of_app, elem_of_cons.
  intros [H|[H|H]]; [left; eapply subseteq_take; exact H | right; exact H
                    | left; eapply subseteq_drop; exact H].
Qed.

Lemma gap_filled_refl (AA : list string) (pos : list Z) : gap_filled AA pos AA pos.
Proof. repeat split; try reflexivity. intros a Ha. left. exact Ha. Qed.

Lemma gap_filled_trans (AA0 : list string) (pos0 : list Z) (AA1 : list string) (pos1 : list Z)
    (AA2 : list string) (pos2 : list Z) :
  gap_filled AA0 pos0 AA1 pos1 -> gap_filled AA1 pos1 AA2 pos2 ->
  gap_filled AA0 pos0 AA2 pos2.
Proof.
  intros (Ha1 & Hp1 & He1 & Hl1) (Ha2 & Hp2 & He2 & Hl2). repeat split.
  - etransitivity; eassumption.
  - etransitivity; eassumption.
  - intros a Ha. destruct (He2 a Ha) as [H|H]; [apply He1; exact H | right; exact H].
  - lia.
Qed.

Lemma fill_step_ok (AA : list string) (pos : list Z) (i : nat) :
  (i + 1 < length pos)%nat ->
  exists AA' pos',
    fill_step (Ok (AA, pos)) i = Ok (AA', pos') /\
    gap_filled AA pos AA' pos' /\
    (length pos ≤ length pos' ≤ S (length pos))%nat.
Proof.
  intros Hi. unfold fill_step. cbn [mbind result_bind Py.bind].
  destruct (lookup_lt_is_Some_2 pos i ltac:(lia)) as [a Ha].
  destruct (lookup_lt_is_Some_2 pos (i + 1) ltac:(lia)) as [b Hb].
  rewrite (getitem_lookup _ _ _ Ha), (getitem_lookup _ _ _ Hb).
  cbn [mbind result_bind Py.bind]. destruct (decide (a + 1 ≠ b)).
  - eexists _, _. split; [reflexivity|]. split.
    + repeat split; try apply list_insert_at_sublist.
      * intros x Hx. apply list_insert_at_elem in Hx. exact Hx.
      * rewrite !length_list_insert_at. lia.
    + rewrite length_list_insert_at. lia.
  - eexists _, _. split; [reflexivity|]. split; [apply gap_filled_refl | lia].
Qed.

Lemma fill_steps_ok (idx : list nat) (AA : list string) (pos : list Z) :
  Forall (fun i => (i + 1 < length pos)%nat) idx ->
  exists AA' pos',
    foldl fill_step (Ok (AA, pos)) idx = Ok (AA', pos') /\
    gap_filled AA pos AA' pos' /\
    (length pos ≤ length pos' ≤ length pos + length idx)%nat.
Proof.
  revert AA pos. induction idx as [|i idx IH]; intros AA pos Hidx; cbn [foldl].
  - eexists _, _. split; [reflexivity|]. split; [apply gap_filled_refl | simpl; lia].
  - apply Forall_cons in Hidx as [Hi Hidx].
    destruct (fill_step_ok AA pos i Hi) as (AA1 & pos1 & -> & Hg1 & Hl1).
    destruct (IH AA1 pos1) as (AA2 & pos2 & -> & Hg2 & Hl2).
    { eapply Forall_impl; [exact Hidx|]. simpl. intros j Hj. lia. }
    eexists _, _. split; [reflexivity|].
    split; [eapply gap_filled_trans; eassumption | simpl; lia].
Qed.

(** X3.  The gap-filling loop never raises and never loses anything: the
    residues and positions of the input are still there in their order,
    every residue it adds is the gap marker, both lists grow by the same
    number of items, and that number is at most the number of positions
    less one. *)
Theorem fill_gaps_conservative (AA : list string) (pos : list Z) :
  exists AA' pos',
    fill_gaps AA pos = Ok (AA', pos') /\
    gap_filled AA pos AA' pos' /\
    (length pos' ≤ length pos + (length pos - 1))%nat.
Proof.
  unfold fill_gaps.
  destruct (fill_steps_ok (seq 0 (length pos - 1)) AA pos) as (AA' & pos' & H & Hg & Hl).
  { apply Forall_forall. intros i Hi. apply elem_of_seq in Hi. lia. }
  exists AA', pos'. split; [exact H|]. split; [exact Hg|].
  rewrite length_seq in Hl. lia.
Qed.

Lemma fill_step_consecutive (AA : list string) (pos : list Z) (i : nat) (x : Z) :
  pos !! i = Some x -> pos !! (i + 1)%nat = Some (x + 1) ->
  fill_step (Ok (AA, pos)) i = Ok (AA, pos).
Proof.
  intros Ha Hb. unfold fill_step. cbn [mbind result_bind Py.bind].
  rewrite (getitem_lookup _ _ _ Ha), (getitem_lookup _ _ _ Hb). cbn [mbind result_bind Py.bind].
  rewrite decide_False by (intros H; apply H; reflexivity). reflexivity.
Qed.

Lemma fill_steps_consecutive (idx : list nat) (AA : list string) (pos : list Z) :
  Forall (fun i => exists x, pos !! i = Some x /\ pos !! (i + 1)%nat = Some (x + 1)) idx ->
  foldl fill_step (Ok (AA, pos)) idx = Ok (AA, pos).
Proof.
  induction 1 as [|i idx (x & Ha & Hb) _ IH]; cbn [foldl]; [reflexivity|].
  rewrite (fill_step_consecutive AA pos i x Ha Hb). exact IH.
Qed.

Lemma seqZ_consecutive (a n : Z) (i : nat) :
  Z.of_nat i + 1 < n ->
  exists x, seqZ a n !! i = Some x /\ seqZ a n !! (i + 1)%nat = Some (x + 1).
Proof.
  intros Hi. exists (a + Z.of_nat i). split.
  - apply lookup_seqZ_lt. lia.
  - rewrite lookup_seqZ_lt by lia. f_equal. lia.
Qed.

(** X4.  Where one integer is missing from an ascending run of positions,
    the gap repairer inserts it, with a gap marker at the same index of the
    residues, and the result is the full run. *)
Theorem fill_gaps_fills_single_hole (AA : list string) (a : Z) (n1 n2 : nat) :
  (0 < n1)%nat -> (0 < n2)%nat ->
  fill_gaps AA (seqZ a (Z.of_nat n1) ++ seqZ (a + Z.of_nat n1 + 1) (Z.of_nat n2))
  = Ok (take n1 AA ++ "-"%string :: drop n1 AA, seqZ a (Z.of_nat (n1 + n2 + 1))).
Proof.
  intros H1 H2. unfold fill_gaps.
  set (pos := seqZ a (Z.of_nat n1) ++ seqZ (a + Z.of_nat n1 + 1) (Z.of_nat n2)).
  assert (length pos = (n1 + n2)%nat) as Hlen.
  { subst pos. rewrite length_app, !length_seqZ. lia. }
  rewrite Hlen.
  replace (n1 + n2 - 1)%nat with ((n1 - 1) + (1 + (n2 - 1)))%nat by lia.
  rewrite seq_app, foldl_app.
  rewrite fill_steps_consecutive.
  2:{ apply Forall_forall. intros i Hi. apply elem_of_seq in Hi.
      destruct (seqZ_consecutive a (Z.of_nat n1) i ltac:(lia)) as (x & Hx1 & Hx2).
      exists x. subst pos. split; apply lookup_app_l_Some; assumption. }
  replace (0 + (n1 - 1))%nat with (n1 - 1)%nat by lia.
  change (1 + (n2 - 1))%nat with (S (n2 - 1)). cbn [seq foldl].
  assert (fill_step (Ok (AA, pos)) (n1 - 1)
          = Ok (list_insert_at AA n1 "-"%string, seqZ a (Z.of_nat (n1 + n2 + 1)))) as ->.
  { unfold fill_step. cbn [mbind result_bind Py.bind].
    assert (pos !! (n1 - 1)%nat = Some (a + Z.of_nat (n1 - 1))) as Ha.
    { subst pos. apply lookup_app_l_Some, lookup_seqZ_lt. lia. }
    assert (pos !! (n1 - 1 + 1)%nat = Some (a + Z.of_nat n1 + 1)) as Hb.
    { subst pos. rewrite lookup_app_r by (rewrite length_seqZ; lia).
      rewrite length_seqZ. replace (n1 - 1 + 1 - Z.to_nat (Z.of_nat n1))%nat with 0%nat by lia.
      rewrite lookup_seqZ_lt by lia. f_equal. lia. }
    rewrite (getitem_lookup _ _ _ Ha), (getitem_lookup _ _ _ Hb). cbn [mbind result_bind Py.bind].
    rewrite decide_True by lia.
    replace (n1 - 1 + 1)%nat with n1 by lia. do 2 f_equal.
    unfold list_insert_at. subst pos.
    rewrite take_app_length' by (rewrite length_seqZ; lia).
    rewrite drop_app_length' by (rewrite length_seqZ; lia).
    replace (Z.of_nat (n1 + n2 + 1)) with (Z.of_nat n1 + (1 + Z.of_nat n2)) by lia.
    rewrite seqZ_app by lia. f_equal.
    rewrite (seqZ_cons (a + Z.of_nat n1)) by lia. f_equal; [lia|].
    f_equal; lia. }
  apply fill_steps_consecutive.
  apply Forall_forall. intros i Hi. apply elem_of_seq in Hi.
  apply seqZ_consecutive. lia.
Qed.

Lemma fill_gaps_fills_single_hole_witness :
  (0 < 2)%nat /\ (0 < 2)%nat /\
  fill_gaps ["M"; "K"; "T"; "A"]%string
            (seqZ 10 (Z.of_nat 2) ++ seqZ (10 + Z.of_nat 2 + 1) (Z.of_nat 2))
  = Ok (take 2 ["M"; "K"; "T"; "A"]%string ++ "-"%string :: drop 2 ["M"; "K"; "T"; "A"]%string,
        seqZ 10 (Z.of_nat (2 + 2 + 1))).
Proof.
  split; [lia|]. split; [lia|].
  apply (fill_gaps_fills_single_hole ["M"; "K"; "T"; "A"]%string 10 2 2); lia.
Defined.

(** ** The numbering test of [get_AA_pos] *)

Lemma min_list_spec (l : list Z) (m : Z) :
  min_list l = Ok m -> m ∈ l /\ forall x, x ∈ l -> m ≤ x.
Proof.
  destruct l as [|x0 l]; [discriminate|]. simpl. intros H. inversion H; subst m. clear H.
  induction l as [|y l IH]; simpl.
  - split; [left|]. intros x Hx. apply list_elem_of_singleton in Hx. lia.
  - destruct IH as [Hin Hle]. split.
    + destruct (Z.min_spec y (foldr Z.min x0 l)) as [[_ ->]|[_ ->]].
      * right; left.
      * apply elem_of_cons in Hin as [->|Hin]; [left | right; right; exact Hin].
    + intros x Hx. assert (x = y \/ x ∈ x0 :: l) as [->|Hx'].
      { apply elem_of_cons in Hx as [->|Hx]; [right; left|].
        apply elem_of_cons in Hx as [->|Hx]; [left; reflexivity | right; right; exact Hx]. }
      * lia.
      * specialize (Hle x Hx'). lia.
Qed.

Lemma max_list_spec (l : list Z) (m : Z) :
  max_list l = Ok m -> m ∈ l /\ forall x, x ∈ l -> x ≤ m.
Proof.
  destruct l as [|x0 l]; [discriminate|]. simpl. intros H. inversion H; subst m. clear H.
  induction l as [|y l IH]; simpl.
  - split; [left|]. intros x Hx. apply list_elem_of_singleton in Hx. lia.
  - destruct IH as [Hin Hle]. split.
    + destruct (Z.max_spec y (foldr Z.max x0 l)) as [[_ ->]|[_ ->]].
      * apply elem_of_cons in Hin as [->|Hin]; [left | right; right; exact Hin].
      * right; left.
    + intros x Hx. assert (x = y \/ x ∈ x0 :: l) as [->|Hx'].
      { apply elem_of_cons in Hx as [->|Hx]; [right; left|].
        apply elem_of_cons in Hx as [->|Hx]; [left; reflexivity | right; right; exact Hx]. }
      * lia.
      * specialize (Hle x Hx'). lia.
Qed.

Lemma seqZ_StronglySorted (a : Z) (n : nat) : StronglySorted Z.le (seqZ a (Z.of_nat n)).
Proof.
  revert a. induction n as [|n IH]; intros a; [constructor|].
  rewrite Nat2Z.inj_succ, seqZ_cons by lia.
  replace (Z.pred (Z.succ (Z.of_nat n))) with (Z.of_nat n) by lia.
  constructor; [apply IH|]. apply Forall_forall. intros x Hx.
  apply elem_of_seqZ in Hx. lia.
Qed.

Lemma sorted_Permutation_seqZ (pos : list Z) (a : Z) (n : nat) :
  pos ≡ₚ seqZ a (Z.of_nat n) -> sorted pos = seqZ a (Z.of_nat n).
Proof.
  intros Hp. unfold sorted. apply (StronglySorted_unique Z.le).
  - apply StronglySorted_merge_sort; apply _.
  - apply seqZ_StronglySorted.
  - rewrite merge_sort_Permutation. exact Hp.
Qed.

(** X5.  A chain whose positions are the integers of a run, each once, in
    any order, passes the numbering test unchanged. *)
Theorem repair_numbering_contiguous (AA : list string) (pos : list Z) (a : Z) (n : nat) :
  pos ≡ₚ seqZ a (Z.of_nat n) -> (0 < n)%nat ->
  repair_numbering AA pos = Ok (AA, pos).
Proof.
  intros Hp Hn. unfold repair_numbering.
  assert (forall x, x ∈ pos <-> a ≤ x < a + Z.of_nat n) as Hel.
  { intros x. rewrite Hp. apply elem_of_seqZ. }
  destruct (min_list pos) as [lo|] eqn:Hlo.
  2:{ destruct pos; [|discriminate]. apply Permutation_length in Hp.
      rewrite length_seqZ in Hp. simpl in Hp. lia. }
  destruct (max_list pos) as [hi|] eqn:Hhi; [|destruct pos; discriminate].
  cbn [mbind result_bind Py.bind].
  apply min_list_spec in Hlo as [Hlo1 Hlo2]. apply max_list_spec in Hhi as [Hhi1 Hhi2].
  assert (lo = a) as ->.
  { apply Hel in Hlo1. specialize (Hlo2 a ltac:(apply Hel; lia)). lia. }
  assert (hi = a + Z.of_nat n - 1) as ->.
  { apply Hel in Hhi1. specialize (Hhi2 (a + Z.of_nat n - 1) ltac:(apply Hel; lia)). lia. }
  rewrite decide_True; [reflexivity|].
  rewrite (sorted_Permutation_seqZ pos a n Hp). unfold range. f_equal. lia.
Qed.

Lemma repair_numbering_contiguous_witness :
  [12; 10; 11] ≡ₚ seqZ 10 (Z.of_nat 3) /\ (0 < 3)%nat /\
  repair_numbering ["T"; "M"; "K"]%string [12; 10; 11] = Ok (["T"; "M"; "K"]%string, [12; 10; 11]).
Proof.
  assert ([12; 10; 11] ≡ₚ seqZ 10 (Z.of_nat 3)) as Hp.
  { change (seqZ 10 (Z.of_nat 3)) with [10; 11; 12].
    apply (Permutation_cons_append [10; 11] 12). }
  split; [exact Hp|]. split; [lia|].
  apply (repair_numbering_contiguous ["T"; "M"; "K"]%string [12; 10; 11] 10 3 Hp). lia.
Defined.

Lemma size_list_to_set_le (l : list Z) : (size (list_to_set l : gset Z) ≤ length l)%nat.
Proof.
  induction l as [|x l IH]; [reflexivity|]. cbn [list_to_set length].
  pose proof (size_union_alt ({[x]} : gset Z) (list_to_set l)) as Hu.
  rewrite size_singleton in Hu.
  assert ((list_to_set l ∖ {[x]} : gset Z) ⊆ list_to_set l) as Hsub.
  { intros y Hy. apply elem_of_difference in Hy as [Hy _]. exact Hy. }
  pose proof (subseteq_size _ _ Hsub) as Hd.
  lia.
Qed.

Lemma size_list_to_set_NoDup (l : list Z) :
  size (list_to_set l : gset Z) = length l -> NoDup l.
Proof.
  induction l as [|x l IH]; [constructor|]. cbn [list_to_set length]. intros Hs.
  pose proof (size_list_to_set_le l) as Hle.
  destruct (decide (x ∈ l)) as [Hin|Hout].
  - assert ({[x]} ∪ list_to_set l = (list_to_set l : gset Z)) as He.
    { apply subseteq_union_1_L, singleton_subseteq_l, elem_of_list_to_set. exact Hin. }
    rewrite He in Hs. lia.
  - constructor; [exact Hout|]. apply IH.
    rewrite size_union in Hs
      by (apply disjoint_singleton_l; rewrite elem_of_list_to_set; exact Hout).
    rewrite size_singleton in Hs. lia.
Qed.

(** X6.  A chain in which a position occurs twice is discarded by the
    numbering test: both lists come back empty, no exception. *)
Theorem repair_numbering_duplicate (AA : list string) (pos : list Z) :
  ~ NoDup pos -> repair_numbering AA pos = Ok ([], []).
Proof.
  intros Hdup. unfold repair_numbering.
  destruct pos as [|x pos]; [exfalso; apply Hdup; constructor|].
  cbn [min_list max_list mbind result_bind Py.bind].
  rewrite decide_False.
  2:{ intros Hs. apply Hdup. unfold sorted in Hs.
      rewrite <- (merge_sort_Permutation Z.le (x :: pos)), Hs. apply NoDup_seqZ. }
  rewrite decide_True; [reflexivity|].
  intros Hs. apply Hdup. apply size_list_to_set_NoDup. exact Hs.
Qed.

Lemma repair_numbering_duplicate_witness :
  ~ NoDup [10; 11; 11; 13] /\
  repair_numbering ["M"; "K"; "R"; "T"]%string [10; 11; 11; 13] = Ok ([], []).
Proof.
  assert (~ NoDup [10; 11; 11; 13]) as Hdup.
  { intros H. apply NoDup_cons in H as [_ H]. apply NoDup_cons in H as [H _].
    apply H. left. }
  split; [exact Hdup|].
  exact (repair_numbering_duplicate ["M"; "K"; "R"; "T"]%string [10; 11; 11; 13] Hdup).
Defined.

(** ** What [get_AA_pos] returns *)

Lemma strip_X_subset (AA : list string) (pos : list Z) (AA' : list string) (pos' : list Z) :
  strip_X AA pos = Ok (AA', pos') -> forall a, a ∈ AA' -> a ∈ AA.
Proof.
  revert pos. induction AA as [|x AA IH]; intros pos Hs a Ha; simpl in Hs; [discriminate|].
  destruct (decide (x = "X"%string)).
  - right. eapply IH; eassumption.
  - inversion Hs; subst. exact Ha.
Qed.

Lemma repair_numbering_elems (AA0 : list string) (pos0 : list Z) (AA : list string) (pos : list Z) :
  repair_numbering AA0 pos0 = Ok (AA, pos) ->
  forall a, a ∈ AA -> a ∈ AA0 \/ a = "-"%string.
Proof.
  unfold repair_numbering. intros H.
  destruct (min_list pos0) as [lo|]; cbn [mbind result_bind Py.bind] in H; [|discriminate].
  destruct (max_list pos0) as [hi|]; cbn [mbind result_bind Py.bind] in H; [|discriminate].
  destruct (decide (sorted pos0 = range lo (hi + 1)));
    [inversion H; subst; intros a Ha; left; exact Ha|].
  destruct (decide (size (list_to_set pos0 : gset Z) ≠ length pos0));
    [inversion H; subst; intros a Ha; inversion Ha|].
  unfold fill_gaps in H.
  destruct (fill_steps_ok (seq 0 (length pos0 - 1)) AA0 pos0) as (AA' & pos' & H' & Hg & _).
  { apply Forall_forall. intros i Hi. apply elem_of_seq in Hi. lia. }
  rewrite H' in H. inversion H; subst. destruct Hg as (_ & _ & He & _). exact He.
Qed.

(** X7.  The two lists that [get_AA_pos] returns have the same length, and
    the residue list holds neither the unknown-residue letter "X" nor an
    empty string: every unknown residue has become the gap marker. *)
Theorem get_AA_pos_output (seq1 : string -> string) (chain_str : string)
    (model : gmap string (list residue)) (AA : list string) (pos : list Z) :
  get_AA_pos seq1 chain_str model = Ok (AA, pos) ->
  length pos = length AA /\ ("X"%string ∉ AA) /\ (EmptyString ∉ AA).
Proof.
  intros Hget. split; [eapply get_AA_pos_parallel; exact Hget|].
  assert (forall a, a ∈ AA -> a ≠ "X"%string /\ a ≠ EmptyString) as Hall;
    [|split; intros Hin; apply Hall in Hin; destruct Hin; congruence].
  revert Hget. unfold get_AA_pos.
  destruct (model !! chain_str) as [chain|]; cbn [mbind result_bind Py.bind]; [|discriminate].
  destruct (extract seq1 chain 0) as [AA0 pos0].
  set (AA1 := map _ AA0).
  assert (forall a, a ∈ AA1 -> a ≠ EmptyString) as H1.
  { subst AA1. intros a Ha. apply list_elem_of_fmap in Ha as (b & -> & _).
    destruct (decide (b = EmptyString)); [discriminate | assumption]. }
  clearbody AA1.
  destruct (decide (size (list_to_set AA1 : gset string) ≠ 1%nat));
    [|intros H a Ha; inversion H; subst; inversion Ha].
  destruct (strip_X AA1 pos0) as [[AA2 pos2]|] eqn:Hs1;
    cbn [mbind result_bind Py.bind]; [|discriminate].
  destruct (strip_X (reverse AA2) (reverse pos2)) as [[AA3 pos3]|] eqn:Hs2;
    cbn [mbind result_bind Py.bind]; [|discriminate].
  set (AA5 := map _ (reverse AA3)).
  assert (forall a, a ∈ AA5 -> a ≠ "X"%string /\ a ≠ EmptyString) as H5.
  { subst AA5. intros a Ha. apply list_elem_of_fmap in Ha as (b & -> & Hb).
    destruct (decide (b = "X"%string)); [split; discriminate|].
    split; [assumption|]. apply H1.
    rewrite elem_of_reverse in Hb. apply (strip_X_subset _ _ _ _ Hs2) in Hb.
    rewrite elem_of_reverse in Hb. exact (strip_X_subset _ _ _ _ Hs1 _ Hb). }
  clearbody AA5.
  destruct (decide (_ ∧ _)) as [Hshort|Hlong];
    [intros H a Ha; inversion H; subst; inversion Ha|].
  destruct (decide (length (reverse pos3) ≠ _)) as [Hlen|Hlen]; [discriminate|].
  intros H a Ha. destruct (repair_numbering_elems _ _ _ _ H a Ha) as [Hd| ->];
    [|split; discriminate].
  apply H5. apply list_elem_of_fmap in Hd as ([p b] & -> & Hd).
  unfold drop_duplicates in Hd. apply drop_duplicates_from_elem in Hd as [Hd _].
  eapply elem_of_zip_r. exact Hd.
Qed.

Lemma list_to_set_constant (l : list string) (a : string) :
  l ≠ [] -> (forall x, x ∈ l -> x = a) -> (list_to_set l : gset string) = {[a]}.
Proof.
  intros Hne Hall. apply set_eq. intros x.
  rewrite elem_of_list_to_set, elem_of_singleton. split; [apply Hall|].
  intros ->. destruct l as [|y l]; [congruence|].
  rewrite <- (Hall y ltac:(left)). left.
Qed.

(** X8.  Degenerate chains.  A chain without residues makes [get_AA_pos]
    raise [IndexError]; a chain whose residues all have the same one-letter
    code is returned as two empty lists. *)
Theorem get_AA_pos_degenerate (seq1 : string -> string) (chain_str : string)
    (model : gmap string (list residue)) (chain : list residue) :
  model !! chain_str = Some chain ->
  (chain = [] -> get_AA_pos seq1 chain_str model = Raise IndexError) /\
  (chain ≠ [] ->
   (forall r1 r2, r1 ∈ chain -> r2 ∈ chain -> seq1 (resname r1) = seq1 (resname r2)) ->
   get_AA_pos seq1 chain_str model = Ok ([], [])).
Proof.
  intros Hm. unfold get_AA_pos. rewrite Hm. cbn [mbind result_bind Py.bind]. split.
  - intros ->. reflexivity.
  - intros Hne Hsame.
    destruct (extract_spec seq1 chain 0) as [HAA _].
    destruct (extract seq1 chain 0) as [AA0 pos0]. cbn [fst] in HAA. subst AA0.
    destruct chain as [|r0 chain]; [congruence|].
    set (f := fun item : string => if decide (item = EmptyString) then "-"%string else item).
    rewrite (list_to_set_constant _ (f (seq1 (resname r0)))).
    + rewrite size_singleton. rewrite decide_False by (intros H; apply H; reflexivity).
      reflexivity.
    + discriminate.
    + intros x Hx. apply list_elem_of_fmap in Hx as (y & -> & Hy).
      apply list_elem_of_fmap in Hy as (r & -> & Hr).
      f_equal. apply Hsame; [exact Hr | left].
Qed.

Lemma get_AA_pos_output_witness :
  let residue_at name number := {| resname := name; resseq := number; icode := " " |} in
  let model : gmap string (list residue) :=
    {[ "A"%string := [residue_at "UNK"%string 9; residue_at "MET"%string 10;
                      residue_at "UNK"%string 11; residue_at "THR"%string 12;
                      residue_at "ALA"%string 14; residue_at "TYR"%string 15] ]} in
  let AA := ["M"; "-"; "T"; "-"; "A"; "Y"]%string in
  let pos := [10; 11; 12; 13; 14; 15] in
  get_AA_pos seq1_standard "A" model = Ok (AA, pos) /\
  length pos = length AA /\ ("X"%string ∉ AA) /\ (EmptyString ∉ AA).
Proof.
  intros residue_at model AA pos.
  assert (get_AA_pos seq1_standard "A" model = Ok (AA, pos)) as Hget
    by (vm_compute; reflexivity).
  split; [exact Hget|]. exact (get_AA_pos_output seq1_standard "A" model AA pos Hget).
Defined.

Lemma get_AA_pos_degenerate_witness :
  let residue_at name number := {| resname := name; resseq := number; icode := " " |} in
  let chain := [residue_at "GLY"%string 1; residue_at "GLY"%string 2] in
  let model : gmap string (list residue) := {[ "B"%string := chain ]} in
  model !! "B"%string = Some chain /\
  (chain = [] -> get_AA_pos seq1_standard "B" model = Raise IndexError) /\
  (chain ≠ [] ->
   (forall r1 r2, r1 ∈ chain -> r2 ∈ chain ->
      seq1_standard (resname r1) = seq1_standard (resname r2)) ->
   get_AA_pos seq1_standard "B" model = Ok ([], [])).
Proof.
  intros residue_at chain model.
  assert (model !! "B"%string = Some chain) as Hm by (vm_compute; reflexivity).
  split; [exact Hm|]. exact (get_AA_pos_degenerate seq1_standard "B" model chain Hm).
Defined.

(** ** Deduplication *)

Lemma drop_duplicates_from_NoDup_id {A} `{EqDecision A} (seen l : list A) :
  NoDup l -> (forall x, x ∈ l -> x ∉ seen) -> drop_duplicates_from seen l = l.
Proof.
  revert seen. induction l as [|x l IH]; intros seen Hnd Hdis; [reflexivity|].
  apply NoDup_cons in Hnd as [Hx Hnd]. simpl.
  rewrite decide_False by (apply Hdis; left). f_equal. apply IH; [exact Hnd|].
  intros y Hy. rewrite not_elem_of_cons. split; [intros ->; contradiction|].
  apply Hdis. right. exact Hy.
Qed.

(** X9.  Deduplication leaves a list without equal rows as it is, so it
    is idempotent: a second pass changes nothing. *)
Theorem drop_duplicates_idempotent {A} `{EqDecision A} (l : list A) :
  (NoDup l -> drop_duplicates l = l) /\
  drop_duplicates (drop_duplicates l) = drop_duplicates l.
Proof.
  assert (forall k : list A, NoDup k -> drop_duplicates k = k) as Hid.
  { intros k Hk. apply drop_duplicates_from_NoDup_id; [exact Hk|].
    intros x _. apply not_elem_of_nil. }
  split; [apply Hid|]. apply Hid. apply drop_duplicates_from_NoDup.
Qed.

(** ** What the missing-residue handler leaves behind *)

Lemma blanked_keeps (st st' : chain_lists) (i : nat) :
  blanked st st' -> AA_pdb st !! i = Some "-"%string -> AA_pdb st' !! i = Some "-"%string.
Proof.
  intros [_ HAA] Hi. destruct (Forall2_lookup_l _ _ _ _ _ HAA Hi) as (y & Hy & [->| ->]); exact Hy.
Qed.

Lemma blanked_trans (st0 st1 st2 : chain_lists) :
  blanked st0 st1 -> blanked st1 st2 -> blanked st0 st2.
Proof.
  intros [Hp1 H1] [Hp2 H2]. split; [congruence|].
  revert H2. generalize (AA_pdb st2). induction H1 as [|a b l k Hab _ IH]; intros k2 H2.
  - inversion H2. constructor.
  - inversion H2 as [|? c ? k2' Hbc H2']; subst. constructor; [|apply IH; exact H2'].
    destruct Hbc as [->| ->]; [exact Hab | right; reflexivity].
Qed.

Lemma blank_positions_marks (ps : list Z) (st : chain_lists) :
  length (pos_pdb st) = length (AA_pdb st) ->
  exists st',
    foldl blank_position (Ok st) ps = Ok st' /\ blanked st st' /\
    forall p, p ∈ ps -> p ∈ pos_pdb st ->
      AA_pdb st' !! index_of p (pos_pdb st) = Some "-"%string.
Proof.
  revert st. induction ps as [|p ps IH]; intros st Hlen; cbn [foldl].
  - exists st. split; [reflexivity|]. split; [apply blanked_refl|].
    intros p Hp. inversion Hp.
  - destruct (blank_position_blanked st st p Hlen (blanked_refl st)) as (st1 & Hst1 & Hb1).
    rewrite Hst1.
    assert (length (pos_pdb st1) = length (AA_pdb st1)) as Hlen1.
    { destruct Hb1 as [Hp HAA]. rewrite Hp, Hlen. eapply Forall2_length. exact HAA. }
    destruct (IH st1 Hlen1) as (st' & Hst' & Hb' & Hmarks).
    exists st'. split; [exact Hst'|]. split; [eapply blanked_trans; eassumption|].
    intros q Hq Hin. apply elem_of_cons in Hq as [->|Hq].
    + apply (blanked_keeps st1 st' _ Hb').
      revert Hst1. unfold blank_position. cbn [mbind result_bind Py.bind].
      rewrite decide_True by exact Hin.
      pose proof (index_of_lt _ _ Hin) as Hlt.
      rewrite setitem_lt by lia. cbn [mbind result_bind Py.bind].
      intros H. inversion H; subst st1. simpl.
      apply list_lookup_insert_eq. lia.
    + destruct Hb1 as [Hp1 _]. rewrite <- Hp1. apply Hmarks; [exact Hq|].
      rewrite Hp1. exact Hin.
Qed.

Lemma index_of_first {A} `{EqDecision A} (x : A) (l : list A) (i : nat) :
  x ∉ take i l -> l !! i = Some x -> index_of x l = i.
Proof.
  revert i. induction l as [|y l IH]; intros i Hnot Hi; [discriminate|].
  destruct i as [|i]; simpl in *.
  - inversion Hi; subst. rewrite decide_True by reflexivity. reflexivity.
  - apply not_elem_of_cons in Hnot as [Hne Hnot].
    rewrite decide_False by congruence. f_equal. apply IH; assumption.
Qed.

Lemma blank_Xs_clears (k : nat) (i : nat) (st : chain_lists) :
  (i + k = length (AA_pdb st))%nat -> "X"%string ∉ take i (AA_pdb st) ->
  exists st',
    foldl blank_X (Ok st) (seq i k) = Ok st' /\ blanked st st' /\
    "X"%string ∉ AA_pdb st'.
Proof.
  revert i st. induction k as [|k IH]; intros i st Hlen Hclean; cbn [seq foldl].
  - exists st. split; [reflexivity|]. split; [apply blanked_refl|].
    rewrite take_ge in Hclean by lia. exact Hclean.
  - destruct (lookup_lt_is_Some_2 (AA_pdb st) i ltac:(lia)) as [a Ha].
    assert (exists st1, blank_X (Ok st) i = Ok st1 /\ blanked st st1 /\
              "X"%string ∉ take (S i) (AA_pdb st1)) as (st1 & -> & Hb1 & Hclean1).
    { unfold blank_X. cbn [mbind result_bind Py.bind].
      rewrite (getitem_lookup _ _ _ Ha). cbn [mbind result_bind Py.bind].
      destruct (decide (a = "X"%string)) as [->|Hne].
      - rewrite (index_of_first _ _ i Hclean Ha).
        rewrite setitem_lt by lia. cbn [mbind result_bind Py.bind].
        eexists. split; [reflexivity|]. split; [apply blanked_set_AA, blanked_refl|].
        simpl. rewrite (take_S_r _ _ "-"%string) by (apply list_lookup_insert_eq; lia).
        rewrite take_insert_ge by lia.
        rewrite elem_of_app, list_elem_of_singleton. intros [H|H]; [contradiction | discriminate].
      - exists st. split; [reflexivity|]. split; [apply blanked_refl|].
        rewrite (take_S_r _ _ a Ha).
        rewrite elem_of_app, list_elem_of_singleton. intros [H|H]; [contradiction | congruence]. }
    destruct (IH (S i) st1) as (st' & Hst' & Hb' & Hclean').
    { rewrite <- (Forall2_length _ _ _ (proj2 Hb1)). lia. }
    { exact Hclean1. }
    exists st'. split; [exact Hst'|]. split; [eapply blanked_trans; eassumption | exact Hclean'].
Qed.

(** X10.  On the two parallel lists of a chain, the missing-residue handler
    returns a residue list that holds no "X", and in which the residue at
    the first index of every reported missing position of the chain is the
    gap marker, whatever residue the extraction had put there. *)
Theorem remove_missing_residues_marks
    (seq1 : string -> string) (h : header) (st : chain_lists) (chain_str : string) :
  length (pos_pdb st) = length (AA_pdb st) ->
  exists st' warning,
    remove_missing_residues seq1 h st chain_str = Ok (st', warning) /\
    ("X"%string ∉ AA_pdb st') /\
    (forall m, m ∈ missing_of h chain_str -> mr_ssseq m ∈ pos_pdb st ->
       AA_pdb st' !! index_of (mr_ssseq m) (pos_pdb st) = Some "-"%string).
Proof.
  intros Hlen. unfold remove_missing_residues.
  set (missing := missing_of h chain_str).
  assert (exists st1,
    (if decide (map (fun m => seq1 (mr_res_name m)) missing ≠ [])
     then foldl blank_position (Ok st) (map mr_ssseq missing) else Ok st) = Ok st1 /\
    blanked st st1 /\
    forall m, m ∈ missing -> mr_ssseq m ∈ pos_pdb st ->
      AA_pdb st1 !! index_of (mr_ssseq m) (pos_pdb st) = Some "-"%string)
    as (st1 & -> & Hb1 & Hmarks).
  { destruct (decide (map (fun m => seq1 (mr_res_name m)) missing ≠ [])) as [Hne|He].
    - destruct (blank_positions_marks (map mr_ssseq missing) st Hlen) as (st1 & H1 & Hb & Hm).
      exists st1. split; [exact H1|]. split; [exact Hb|].
      intros m Hm1 Hm2. apply Hm; [|exact Hm2]. apply list_elem_of_fmap. eauto.
    - exists st. split; [reflexivity|]. split; [apply blanked_refl|].
      intros m Hm. destruct missing; [inversion Hm|]. exfalso. apply He. discriminate. }
  cbn [mbind result_bind Py.bind].
  destruct (blank_Xs_clears (length (AA_pdb st1)) 0 st1) as (st2 & -> & Hb2 & Hclean).
  { lia. }
  { rewrite take_0. apply not_elem_of_nil. }
  cbn [mbind result_bind Py.bind]. eexists _, _. split; [reflexivity|].
  split; [exact Hclean|]. intros m Hm1 Hm2.
  apply (blanked_keeps st1 st2 _ Hb2). apply Hmarks; assumption.
Qed.

Lemma remove_missing_residues_marks_witness :
  let h := {| has_missing_residues := true;
              missing_residues :=
                [ {| mr_chain := "A"; mr_res_name := "HIS"; mr_ssseq := 3 |};
                  {| mr_chain := "B"; mr_res_name := "GLY"; mr_ssseq := 2 |} ] |} in
  let st := {| pos_pdb := [1; 2; 3; 4]; AA_pdb := ["M"; "X"; "T"; "A"]%string |} in
  length (pos_pdb st) = length (AA_pdb st) /\
  exists st' warning,
    remove_missing_residues seq1_standard h st "A" = Ok (st', warning) /\
    ("X"%string ∉ AA_pdb st') /\
    (forall m, m ∈ missing_of h "A" -> mr_ssseq m ∈ pos_pdb st ->
       AA_pdb st' !! index_of (mr_ssseq m) (pos_pdb st) = Some "-"%string).
Proof.
  intros h st. split; [reflexivity|].
  apply (remove_missing_residues_marks seq1_standard h st "A"). reflexivity.
Defined.

(** ** Position mapper without a precondition *)

(** X11.  For any aligned sequence and any position list, the Position
    Mapper returns zeros only when the sequence is all pads (the positions
    are then ignored); otherwise the zeros of the leading pad, then all the
    positions, then zeros up to the length of the sequence.  The result is
    never shorter than the aligned sequence, and it is longer exactly when
    there are more positions than columns after the leading pad. *)
Theorem numerical_alignment_shape (aligned : string) (positions : list Z) :
  let cols := list_ascii_of_string aligned in
  let p := pad_prefix cols in
  let L := String.length aligned in
  numerical_alignment aligned positions =
    (if decide (p = L) then replicate L 0
     else replicate p 0 ++ positions ++ replicate (L - p - length positions) 0) /\
  (L ≤ length (numerical_alignment aligned positions))%nat /\
  (length (numerical_alignment aligned positions) = L <->
     p = L \/ (p + length positions ≤ L)%nat).
Proof.
  intros cols p L.
  assert (numerical_alignment aligned positions =
    (if decide (p = L) then replicate L 0
     else replicate p 0 ++ positions ++ replicate (L - p - length positions) 0)) as Heq.
  { unfold numerical_alignment. fold cols. rewrite leading_pads_spec.
    subst L p. rewrite <- (length_list_ascii_of_string aligned). fold cols.
    destruct (decide (pad_prefix cols = length cols)) as [He|Hne]; simpl.
    - rewrite length_replicate, decide_False by lia. reflexivity.
    - rewrite length_app, length_replicate.
      destruct (decide (pad_prefix cols + length positions < length cols)%nat) as [Hlt|Hge].
      + rewrite <- app_assoc. do 3 f_equal. lia.
      + replace (length cols - pad_prefix cols - length positions)%nat with 0%nat by lia.
        simpl. rewrite app_nil_r. reflexivity. }
  split; [exact Heq|]. rewrite Heq.
  pose proof (pad_prefix_le cols) as Hle. unfold residue_columns in Hle.
  assert (p ≤ L)%nat as HpL.
  { subst p L. rewrite <- (length_list_ascii_of_string aligned). fold cols. lia. }
  destruct (decide (p = L)) as [He|Hne].
  - rewrite length_replicate. split; [lia | tauto].
  - rewrite !length_app, !length_replicate. split; lia.
Qed.

Example numerical_alignment_overflow :
  numerical_alignment "-MK" [1; 2; 3; 4] = [0; 1; 2; 3; 4] /\
  data_frame (list_ascii_of_string "-MK") (numerical_alignment "-MK" [1; 2; 3; 4])
             (list_ascii_of_string "GMK") (numerical_alignment "GMK" [7; 8; 9])
  = Raise ValueError.
Proof. split; reflexivity. Qed.

(** ** Runs of hotspots *)

Lemma split_runs_head (stepsize : Z) (a : list Z) :
  exists run runs,
    split_runs stepsize a = run :: runs /\ head run = head a /\
    (a ≠ [] -> Forall (fun r => r ≠ []) (run :: runs)) /\
    Forall (stepped stepsize) (run :: runs) /\
    broken stepsize (run :: runs).
Proof.
  induction a as [|x a IH].
  - exists [], []. split; [reflexivity|]. split; [reflexivity|].
    split; [intros H; congruence|]. split; [repeat constructor | exact I].
  - cbn [split_runs]. destruct a as [|y a'].
    + exists [x], []. split; [reflexivity|]. split; [reflexivity|].
      split; [intros _; repeat constructor; discriminate|].
      split; [repeat constructor | exact I].
    + destruct IH as (run & runs & Hs & Hhd & Hne & Hst & Hbr).
      specialize (Hne ltac:(discriminate)).
      destruct (decide (y - x ≠ stepsize)) as [Hd|Hd].
      * exists [x], (split_runs stepsize (y :: a')). rewrite Hs.
        split; [reflexivity|]. split; [reflexivity|]. split; [|split].
        -- intros _. constructor; [discriminate | exact Hne].
        -- constructor; [exact I | exact Hst].
        -- split; [|exact Hbr]. intros x' y' Hx' Hy'. simpl in Hx'. inversion Hx'; subst x'.
           rewrite Hhd in Hy'. simpl in Hy'. inversion Hy'; subst y'. exact Hd.
      * rewrite Hs. exists (x :: run), runs.
        split; [reflexivity|]. split; [reflexivity|].
        apply Forall_cons in Hne as [Hrun Hne]. apply Forall_cons in Hst as [Hsrun Hst].
        destruct run as [|y0 run']; [congruence|]. simpl in Hhd. inversion Hhd; subst y0.
        split; [|split].
        -- intros _. constructor; [discriminate | exact Hne].
        -- constructor; [|exact Hst]. split; [|exact Hsrun].
           destruct (decide (y - x = stepsize)); [assumption | contradiction].
        -- destruct runs as [|r2 runs']; [exact I|]. destruct Hbr as [Hb Hbr].
           split; [|exact Hbr]. intros x' y' Hx' Hy'. apply Hb; [|exact Hy'].
           rewrite last_cons in Hx'. destruct (last (y :: run')) eqn:Hl; [exact Hx'|].
           apply last_None in Hl. discriminate.
Qed.

(** X12.  The runs that the trimming step cuts the hotspots into are a
    partition of the hotspot array: joined they give it back; none is empty
    unless the array is; inside a run every item is the one before plus the
    step; and between two runs that follow each other the difference is not
    the step, so each run is maximal. *)
Theorem split_runs_partition (stepsize : Z) (a : list Z) :
  concat (split_runs stepsize a) = a /\
  (a ≠ [] -> Forall (fun r => r ≠ []) (split_runs stepsize a)) /\
  Forall (stepped stepsize) (split_runs stepsize a) /\
  broken stepsize (split_runs stepsize a).
Proof.
  split; [apply split_runs_concat|].
  destruct (split_runs_head stepsize a) as (run & runs & -> & _ & Hne & Hst & Hbr).
  split; [exact Hne|]. split; [exact Hst | exact Hbr].
Qed.

Example split_runs_examples :
  split_runs 1 [1; 2; 3; 7; 9; 10] = [[1; 2; 3]; [7]; [9; 10]] /\
  split_runs 0 [0; 0; 0; 4; 5] = [[0; 0; 0]; [4]; [5]] /\
  split_runs 1 [] = [[]].
Proof. repeat split. Qed.

(** ** Tables that the trimming step leaves alone *)

Lemma filter_all_id {A} (P : A -> Prop) `{forall x, Decision (P x)} (l : list A) :
  (forall x, x ∈ l -> P x) -> filter P l = l.
Proof.
  induction l as [|x l IH]; intros Hall; [reflexivity|].
  rewrite filter_cons_True by (apply Hall; left). f_equal. apply IH.
  intros y Hy. apply Hall. right. exact Hy.
Qed.

Lemma run_warnings_short (seq_start seq_end : Z) (runs : list (list Z)) :
  Forall (fun run => (length run ≤ 2)%nat) runs ->
  flat_map (run_warnings seq_start seq_end) runs = [].
Proof.
  induction 1 as [|run runs Hrun _ IH]; [reflexivity|].
  cbn [flat_map]. rewrite IH, app_nil_r. unfold run_warnings.
  rewrite decide_False by lia. reflexivity.
Qed.

(** X13.  When the first hotspot is not at position 0 and no run of
    consecutive hotspots is longer than 2, the trimming step removes
    nothing and records no warning: it returns the table as it is, with
    every row whose residues differ rendered as a discrepancy. *)
Theorem get_all_discrepancies_untrimmed (df : list row) (seq_start seq_end : Z) :
  head (map uniprot_pos df) = Some seq_start ->
  last (map uniprot_pos df) = Some seq_end ->
  head (hotspots df) ≠ Some 0 ->
  Forall (fun run => (length run ≤ 2)%nat) (split_runs 1 (hotspots df)) ->
  get_all_discrepancies df
  = Ok (df, map render_row (filter (fun r => uniprot_seq r ≠ pdb_seq r) df), []).
Proof.
  intros Hhead Hlast Hzero Hshort.
  destruct (removals_spec df seq_start seq_end Hhead Hlast)
    as (removal_values & warnings & n_ter_0 & Hrem & _ & Hw & Hr).
  unfold get_all_discrepancies. rewrite Hrem. cbn [mbind result_bind Py.bind].
  assert (forall x, x ∉ removal_values) as Hnone.
  { intros x Hx. apply Hr in Hx as [[_ H0]|(run & Hrun & [Hlong _] & _)]; [contradiction|].
    eapply Forall_forall in Hshort; [|exact Hrun]. simpl in Hshort. lia. }
  rewrite (filter_all_id (fun r => uniprot_pos r ∉ removal_values)) by (intros r _; apply Hnone).
  assert (warnings = []) as ->; [|reflexivity].
  rewrite Hw, decide_False by exact Hzero. simpl.
  apply run_warnings_short. exact Hshort.
Qed.

Lemma get_all_discrepancies_untrimmed_witness :
  let mk u n p := {| uniprot_seq := u; uniprot_pos := n; pdb_seq := p; pdb_pos := n |} in
  let df := [mk "M" 1 "G"; mk "K" 2 "S"; mk "T" 3 "T"; mk "A" 4 "A"; mk "Y" 5 "F"]%char in
  head (map uniprot_pos df) = Some 1 /\
  last (map uniprot_pos df) = Some 5 /\
  head (hotspots df) ≠ Some 0 /\
  Forall (fun run => (length run ≤ 2)%nat) (split_runs 1 (hotspots df)) /\
  get_all_discrepancies df
  = Ok (df, map render_row (filter (fun r => uniprot_seq r ≠ pdb_seq r) df), []).
Proof.
  intros mk df.
  assert (head (hotspots df) ≠ Some 0) as Hz by (vm_compute; discriminate).
  assert (Forall (fun run => (length run ≤ 2)%nat) (split_runs 1 (hotspots df))) as Hs.
  { vm_compute. repeat constructor. }
  split; [reflexivity|]. split; [reflexivity|]. split; [exact Hz|]. split; [exact Hs|].
  exact (get_all_discrepancies_untrimmed df 1 5 eq_refl eq_refl Hz Hs).
Defined.

(** ** Coverage: what the ranges depend on *)

Lemma sorted_enumerates_eq (ps1 ps2 l1 l2 : list Z) :
  enumerates ps1 l1 -> enumerates ps2 l2 -> (forall x, x ∈ l1 <-> x ∈ l2) ->
  sorted ps1 = sorted ps2.
Proof.
  intros [Hn1 He1] [Hn2 He2] Hsame. unfold sorted.
  apply (StronglySorted_unique Z.le).
  - apply StronglySorted_merge_sort; apply _.
  - apply StronglySorted_merge_sort; apply _.
  - rewrite !merge_sort_Permutation. apply NoDup_Permutation; [assumption..|].
    intros x. rewrite He1, He2. apply Hsame.
Qed.

(** X14.  The coverage ranges depend on the set of positions only: two
    lists with the same members, in any order and with any repetitions,
    give the same ranges. *)
Theorem to_ranges_set_invariant (set_iter : list Z -> list Z) (l1 l2 : list Z) :
  enumerates (set_iter l1) l1 -> enumerates (set_iter l2) l2 ->
  (forall x, x ∈ l1 <-> x ∈ l2) ->
  to_ranges set_iter l1 = to_ranges set_iter l2.
Proof.
  intros H1 H2 Hsame. rewrite !to_ranges_runs.
  rewrite (sorted_enumerates_eq _ _ _ _ H1 H2 Hsame). reflexivity.
Qed.

Lemma to_ranges_set_invariant_witness :
  let l1 := [5; 1; 2; 9; 2] in
  let l2 := [9; 5; 2; 1] in
  enumerates (CPython.set_iter l1) l1 /\ enumerates (CPython.set_iter l2) l2 /\
  (forall x, x ∈ l1 <-> x ∈ l2) /\
  to_ranges CPython.set_iter l1 = to_ranges CPython.set_iter l2.
Proof.
  intros l1 l2.
  assert (enumerates (CPython.set_iter l1) l1) as H1.
  { split; [vm_compute; apply (bool_decide_unpack (NoDup _)); vm_compute; exact I|].
    intros x. vm_compute CPython.set_iter. subst l1. rewrite !elem_of_cons. tauto. }
  assert (enumerates (CPython.set_iter l2) l2) as H2.
  { split; [vm_compute; apply (bool_decide_unpack (NoDup _)); vm_compute; exact I|].
    intros x. vm_compute CPython.set_iter. subst l2. rewrite !elem_of_cons. tauto. }
  assert (forall x, x ∈ l1 <-> x ∈ l2) as Hs.
  { intros x. subst l1 l2. rewrite !elem_of_cons. tauto. }
  split; [exact H1|]. split; [exact H2|]. split; [exact Hs|].
  exact (to_ranges_set_invariant CPython.set_iter l1 l2 H1 H2 Hs).
Defined.

Lemma runs_seqZ (a : Z) (k : nat) : runs (seqZ a (Z.of_nat (S k))) = [(a, a + Z.of_nat k)].
Proof.
  revert a. induction k as [|k IH]; intros a.
  - simpl. f_equal. f_equal. lia.
  - rewrite Nat2Z.inj_succ, seqZ_cons by lia.
    replace (Z.pred (Z.succ (Z.of_nat (S k)))) with (Z.of_nat (S k)) by lia.
    cbn [runs]. rewrite IH. rewrite decide_True by lia. do 2 f_equal. lia.
Qed.

(** X15.  A table whose reference positions are exactly the integers from
    [a] to [a + k] has one coverage range, from [a] to [a + k]. *)
Theorem to_ranges_contiguous (set_iter : list Z -> list Z) (l : list Z) (a : Z) (k : nat) :
  enumerates (set_iter l) l ->
  (forall x, x ∈ l <-> a ≤ x ≤ a + Z.of_nat k) ->
  to_ranges set_iter l = Ok [(a, a + Z.of_nat k)].
Proof.
  intros [Hnd Hel] Hrun. rewrite to_ranges_runs.
  rewrite (sorted_Permutation_seqZ _ a (S k)); [rewrite runs_seqZ; reflexivity|].
  apply NoDup_Permutation; [exact Hnd | apply NoDup_seqZ|].
  intros x. rewrite Hel, Hrun, elem_of_seqZ. lia.
Qed.

Lemma to_ranges_contiguous_witness :
  let l := [12; 10; 11; 13; 10] in
  enumerates (CPython.set_iter l) l /\
  (forall x, x ∈ l <-> 10 ≤ x ≤ 10 + Z.of_nat 3) /\
  to_ranges CPython.set_iter l = Ok [(10, 10 + Z.of_nat 3)].
Proof.
  intros l.
  assert (enumerates (CPython.set_iter l) l) as H1.
  { split; [vm_compute; apply (bool_decide_unpack (NoDup _)); vm_compute; exact I|].
    intros x. vm_compute CPython.set_iter. subst l. rewrite !elem_of_cons. tauto. }
  assert (forall x, x ∈ l <-> 10 ≤ x ≤ 10 + Z.of_nat 3) as Hr.
  { intros x. subst l. rewrite !elem_of_cons, elem_of_nil. simpl. lia. }
  split; [exact H1|]. split; [exact Hr|].
  exact (to_ranges_contiguous CPython.set_iter l 10 3 H1 Hr).
Defined.

(** ** Predicted models: coverage *)

Lemma confident_from_cons (k : Z) (a : atom) (ATOMS : list atom) :
  confident_from k (a :: ATOMS) =
    (if decide (confidence_category (b_factor a) = "high"%string) then [k] else []) ++
    confident_from (k + 1) ATOMS.
Proof.
  unfold confident_from. cbn [length]. rewrite Nat2Z.inj_succ, seqZ_cons by lia.
  replace (Z.pred (Z.succ (Z.of_nat (length ATOMS)))) with (Z.of_nat (length ATOMS)) by lia.
  replace (Z.succ k) with (k + 1) by lia. cbn [zip zip_with].
  destruct (decide (confidence_category (b_factor a) = "high"%string)) as [Hh|Hl].
  - rewrite filter_cons_True by exact Hh. reflexivity.
  - rewrite filter_cons_False by exact Hl. reflexivity.
Qed.

Lemma af_rows_confident_from (ATOMS : list atom) (letters : list ascii) (k : Z) :
  length letters = length ATOMS ->
  map position (filter (fun r => category r = "high"%string)
                  (af_rows (seqZ k (Z.of_nat (length ATOMS))) letters (map b_factor ATOMS)))
  = confident_from k ATOMS.
Proof.
  revert letters k. induction ATOMS as [|a ATOMS IH]; intros letters k Hlen.
  - destruct letters; reflexivity.
  - destruct letters as [|c letters]; [discriminate|]. injection Hlen as Hlen.
    rewrite confident_from_cons. cbn [length]. rewrite Nat2Z.inj_succ, seqZ_cons by lia.
    replace (Z.pred (Z.succ (Z.of_nat (length ATOMS)))) with (Z.of_nat (length ATOMS)) by lia.
    replace (Z.succ k) with (k + 1) by lia. cbn [map af_rows].
    destruct (decide (confidence_category (b_factor a) = "high"%string)) as [Hh|Hl].
    + rewrite filter_cons_True by exact Hh. cbn [map app position]. f_equal.
      apply IH. exact Hlen.
    + rewrite filter_cons_False by exact Hl. simpl. apply IH. exact Hlen.
Qed.

Lemma confident_from_sorted (ATOMS : list atom) (k : Z) :
  StronglySorted Z.lt (confident_from k ATOMS) /\
  forall x, x ∈ confident_from k ATOMS -> k ≤ x.
Proof.
  revert k. induction ATOMS as [|a ATOMS IH]; intros k.
  - split; [constructor | intros x Hx; inversion Hx].
  - rewrite confident_from_cons. destruct (IH (k + 1)) as [Hs Hge].
    destruct (decide _); simpl.
    + split.
      * constructor; [exact Hs|]. apply Forall_forall. intros x Hx. specialize (Hge x Hx). lia.
      * intros x Hx. apply elem_of_cons in Hx as [->|Hx]; [lia|]. specialize (Hge x Hx). lia.
    + split; [exact Hs|]. intros x Hx. specialize (Hge x Hx). lia.
Qed.

Lemma bound_pairs_restart (cs : list Z) (x final : Z) :
  last cs = Some final ->
  bound_pairs (x :: breaks cs ++ [final]) = Ok (restart x (runs cs)).
Proof.
  revert x. induction cs as [|c1 cs IH]; intros x Hlast; [discriminate|].
  destruct cs as [|c2 cs'].
  - simpl in Hlast. inversion Hlast; subst. reflexivity.
  - assert (last (c2 :: cs') = Some final) as Hlast' by exact Hlast.
    destruct (runs_head c2 cs') as (b & rs & Hr).
    change (breaks (c1 :: c2 :: cs')) with
      (if decide (c1 + 1 ≠ c2) then c1 :: c2 :: breaks (c2 :: cs') else breaks (c2 :: cs')).
    change (runs (c1 :: c2 :: cs')) with
      (match runs (c2 :: cs') with
       | (a, b) :: rs => if decide (c1 + 1 = a) then (c1, b) :: rs else (c1, c1) :: (a, b) :: rs
       | [] => [(c1, c1)]
       end).
    rewrite Hr.
    destruct (decide (c1 + 1 ≠ c2)) as [Hd|Hd].
    + rewrite decide_False by lia.
      change ((x :: (c1 :: c2 :: breaks (c2 :: cs')) ++ [final]))
        with (x :: c1 :: (c2 :: breaks (c2 :: cs') ++ [final])).
      rewrite (bound_pairs_cons2 x c1 _ _ (IH c2 Hlast')). rewrite Hr. reflexivity.
    + rewrite decide_True by (destruct (decide (c1 + 1 = c2)); [assumption | contradiction]).
      rewrite (IH x Hlast'), Hr. reflexivity.
Qed.

(** X16.  In the predicted-model path, when some score exceeds 70, the
    coverage string is the rendering of the maximal runs of consecutive
    high-confidence positions: a position lies in one of the ranges exactly
    when its score exceeds 70, and the ranges are in ascending order, each
    ending more than one below the start of the next. *)
Theorem align_alphafold_coverage
    (seq1 : string -> string) (ATOMS : list atom) (mutation_positions : list query) :
  let letters := list_ascii_of_string (seq1 (join EmptyString (map residue_name ATOMS))) in
  length letters = length ATOMS ->
  confident_positions ATOMS ≠ [] ->
  exists ranges AA_in_PDB,
    align_alphafold seq1 ATOMS mutation_positions = Ok (render_ranges ranges, AA_in_PDB) /\
    (forall x, covered ranges x <-> x ∈ confident_positions ATOMS) /\
    Forall (fun r => r.1 ≤ r.2) ranges /\
    StronglySorted separated ranges.
Proof.
  intros letters Hlen Hne. unfold align_alphafold. fold letters.
  rewrite decide_False by (intros H; apply H; exact Hlen).
  rewrite (af_rows_confident_from ATOMS letters 1 Hlen).
  fold (confident_positions ATOMS).
  destruct (confident_positions ATOMS) as [|first rest] eqn:Hc; [congruence|].
  destruct (last (first :: rest)) as [final|] eqn:Hlast;
    [|apply last_None in Hlast; discriminate].
  rewrite (bound_pairs_restart (first :: rest) first final Hlast).
  destruct (runs_head first rest) as (b & rs & Hr). rewrite Hr. cbn [restart].
  cbn [mbind result_bind Py.bind].
  set (df := af_rows _ _ _).
  assert (mapM (af_verdict df) mutation_positions
          = Ok (map (af_expected letters (map b_factor ATOMS)) mutation_positions)) as ->.
  { apply mapM_Forall2_Ok, Forall2_fmap_r, Forall_Forall2_diag, Forall_forall.
    intros q _. subst df. rewrite <- Hlen. apply af_verdict_expected. }
  cbn [mbind result_bind Py.bind]. eexists _, _. split; [reflexivity|].
  rewrite <- Hr.
  destruct (runs_spec (first :: rest)) as (Hn & Hs & Hcov).
  { rewrite <- Hc. apply confident_from_sorted. }
  split; [exact Hcov|]. split; [exact Hn | exact Hs].
Qed.

Lemma confident_from_low (ATOMS : list atom) (k : Z) :
  (forall a, a ∈ ATOMS -> (b_factor a <= 70)%Q) -> confident_from k ATOMS = [].
Proof.
  revert k. induction ATOMS as [|a ATOMS IH]; intros k Hlow; [reflexivity|].
  rewrite confident_from_cons, decide_False.
  - apply IH. intros a' Ha'. apply Hlow. right. exact Ha'.
  - rewrite confidence_category_high. intros Hlt.
    apply (Qlt_not_le _ _ Hlt). apply Hlow. left.
Qed.

(** X17.  In the predicted-model path, when no score exceeds 70, both the
    coverage and the verdicts are the string "NA", whatever was queried. *)
Theorem align_alphafold_no_confidence
    (seq1 : string -> string) (ATOMS : list atom) (mutation_positions : list query) :
  let letters := list_ascii_of_string (seq1 (join EmptyString (map residue_name ATOMS))) in
  length letters = length ATOMS ->
  (forall a, a ∈ ATOMS -> (b_factor a <= 70)%Q) ->
  align_alphafold seq1 ATOMS mutation_positions = Ok ("NA"%string, "NA"%string).
Proof.
  intros letters Hlen Hlow. unfold align_alphafold. fold letters.
  rewrite decide_False by (intros H; apply H; exact Hlen).
  rewrite (af_rows_confident_from ATOMS letters 1 Hlen).
  rewrite (confident_from_low ATOMS 1 Hlow). reflexivity.
Qed.

Lemma align_alphafold_coverage_witness :
  let ATOMS := [ {| residue_name := "MET"; b_factor := 90 |};
                 {| residue_name := "LYS"; b_factor := 90.5 |};
                 {| residue_name := "THR"; b_factor := 40 |};
                 {| residue_name := "ALA"; b_factor := 90 |} ] in
  let mutation_positions := [QInt 3; QInt 2] in
  let letters := list_ascii_of_string (seq1_standard (join EmptyString (map residue_name ATOMS))) in
  length letters = length ATOMS /\
  confident_positions ATOMS ≠ [] /\
  exists ranges AA_in_PDB,
    align_alphafold seq1_standard ATOMS mutation_positions
      = Ok (render_ranges ranges, AA_in_PDB) /\
    (forall x, covered ranges x <-> x ∈ confident_positions ATOMS) /\
    Forall (fun r => r.1 ≤ r.2) ranges /\
    StronglySorted separated ranges.
Proof.
  intros ATOMS mutation_positions letters.
  assert (confident_positions ATOMS ≠ []) as Hne by (vm_compute; discriminate).
  split; [reflexivity|]. split; [exact Hne|].
  exact (align_alphafold_coverage seq1_standard ATOMS mutation_positions eq_refl Hne).
Defined.

Lemma align_alphafold_no_confidence_witness :
  let ATOMS := [ {| residue_name := "MET"; b_factor := 70 |};
                 {| residue_name := "LYS"; b_factor := 35.2 |} ] in
  let letters := list_ascii_of_string (seq1_standard (join EmptyString (map residue_name ATOMS))) in
  length letters = length ATOMS /\
  (forall a, a ∈ ATOMS -> (b_factor a <= 70)%Q) /\
  align_alphafold seq1_standard ATOMS [QInt 1] = Ok ("NA"%string, "NA"%string).
Proof.
  intros ATOMS letters.
  assert (forall a, a ∈ ATOMS -> (b_factor a <= 70)%Q) as Hlow.
  { intros a Ha. subst ATOMS. apply elem_of_cons in Ha as [->|Ha].
    - simpl. apply Qle_refl.
    - apply list_elem_of_singleton in Ha. subst a. simpl.
      apply Qlt_le_weak. reflexivity. }
  split; [reflexivity|]. split; [exact Hlow|].
  exact (align_alphafold_no_confidence seq1_standard ATOMS [QInt 1] eq_refl Hlow).
Defined.

(** ** The loop over the chains: what it accumulates *)

Section ChainColumns.

Variable seq1 : string -> string.
Variable localms : string -> string -> list (string * string).
Variable set_iter : list Z -> list Z.
Variable model : gmap string (list residue).
Variable h : header.
Variable uniprot_sequence : string.
Variable uniprot_numbering : list Z.
Variable mut_pos : mutation_positions.

Let body := chain_body seq1 localms set_iter model h uniprot_sequence uniprot_numbering mut_pos.
Let loop := chain_loop seq1 localms set_iter model h uniprot_sequence uniprot_numbering mut_pos.
Let run := align_uniprot_pdb seq1 localms set_iter model h uniprot_sequence
             uniprot_numbering mut_pos.

Lemma aligned_chain_columns (acc acc' : columns) (chain_str : string) (pos : list Z)
    (chain_warning : list (string + list string)) (uniprot_aligned pdb_aligned : string) :
  aligned_chain set_iter uniprot_numbering mut_pos acc chain_str pos chain_warning
    uniprot_aligned pdb_aligned = Ok acc' ->
  one_per_chain mut_pos acc acc' [chain_str].
Proof.
  unfold aligned_chain, one_per_chain.
  destruct (data_frame _ _ _ _) as [df|]; cbn [mbind result_bind Py.bind]; [|discriminate].
  destruct mut_pos as [|l].
  - cbn [mbind result_bind Py.bind].
    destruct (get_all_discrepancies _) as [[[df' m] w]|];
      cbn [mbind result_bind Py.bind]; [|discriminate].
    destruct (get_coverage _ _) as [rc|]; cbn [mbind result_bind Py.bind]; [|discriminate].
    intros H. inversion H; subst; clear H. cbn. rewrite !length_app. cbn. tauto.
  - destruct (get_mutations _ _ _) as [muts|]; cbn [mbind result_bind Py.bind]; [|discriminate].
    destruct (get_all_discrepancies _) as [[[df' m] w]|];
      cbn [mbind result_bind Py.bind]; [|discriminate].
    destruct (get_coverage _ _) as [rc|]; cbn [mbind result_bind Py.bind]; [|discriminate].
    intros H. inversion H; subst; clear H. cbn. rewrite !length_app. cbn. tauto.
Qed.

Lemma one_per_chain_refl (acc : columns) : one_per_chain mut_pos acc acc [].
Proof.
  unfold one_per_chain. rewrite app_nil_r. cbn. rewrite !Nat.add_0_r.
  destruct mut_pos; tauto.
Qed.

Lemma one_per_chain_trans (acc1 acc2 acc3 : columns) (k1 k2 : list string) :
  one_per_chain mut_pos acc1 acc2 k1 -> one_per_chain mut_pos acc2 acc3 k2 ->
  one_per_chain mut_pos acc1 acc3 (k1 ++ k2).
Proof.
  unfold one_per_chain. intros (H1 & H2 & H3 & H4 & H5) (G1 & G2 & G3 & G4 & G5).
  rewrite G1, H1, G2, H2, G3, H3, G4, H4, length_app, <- app_assoc.
  repeat split; try lia.
  destruct mut_pos; [congruence | lia].
Qed.

Lemma chain_body_columns (acc acc' : columns) (chain_str : string) :
  body acc chain_str = Ok (Next acc') ->
  acc' = acc \/ one_per_chain mut_pos acc acc' [chain_str].
Proof.
  subst body. unfold chain_body.
  destruct (get_AA_pos seq1 chain_str model) as [[AA pos]|];
    cbn [mbind result_bind Py.bind]; [|discriminate].
  destruct (decide (AA = [])); [discriminate|].
  destruct (missing_step seq1 h chain_str pos AA) as [[st cw]|];
    cbn [mbind result_bind Py.bind]; [|discriminate].
  destruct (alignment localms uniprot_sequence (AA_pdb st)) as [[u p]|].
  - destruct (aligned_chain _ _ _ _ _ _ _ _ _) as [acc''|] eqn:Ha;
      cbn [mbind result_bind Py.bind]; [|discriminate].
    intros H. inversion H; subst. right. eapply aligned_chain_columns. exact Ha.
  - intros H. inversion H. left. reflexivity.
Qed.

Lemma chain_loop_kept (self_chains : list string) (acc acc' : columns) :
  loop self_chains acc = Ok (Next acc') ->
  exists kept, kept `sublist_of` self_chains /\ one_per_chain mut_pos acc acc' kept.
Proof.
  revert acc. induction self_chains as [|c cs IH]; intros acc; subst loop; cbn [chain_loop].
  - intros H. inversion H; subst. exists []. split; [constructor | apply one_per_chain_refl].
  - destruct (chain_body _ _ _ _ _ _ _ _ acc c) as [[acc1|out]|e] eqn:Hb;
      cbn [mbind result_bind Py.bind]; [|discriminate..].
    intros Hl. destruct (IH acc1 Hl) as (kept & Hsub & Hk).
    destruct (chain_body_columns acc acc1 c Hb) as [->|H1].
    + exists kept. split; [apply sublist_cons; exact Hsub | exact Hk].
    + exists (c :: kept). split; [apply sublist_skip; exact Hsub|].
      exact (one_per_chain_trans _ _ _ [c] kept H1 Hk).
Qed.

(** X18.  The loop over the chains keeps its five lists in step.  When it
    runs to its end, the chains it recorded are a subsequence of the chains
    it was given, in their order, and the lists of coverages, of
    discrepancies and of warnings each received exactly one item per
    recorded chain; the list of resolved mutations received one item per
    recorded chain when positions were queried and none otherwise. *)
Theorem chain_loop_columns (self_chains : list string) (acc acc' : columns) :
  loop self_chains acc = Ok (Next acc') ->
  exists kept, kept `sublist_of` self_chains /\ one_per_chain mut_pos acc acc' kept.
Proof. apply chain_loop_kept. Qed.

Lemma chain_loop_unaligned (self_chains : list string) (acc : columns) :
  Forall (unaligned seq1 localms model h uniprot_sequence) self_chains ->
  loop self_chains acc = Ok (Next acc).
Proof.
  induction 1 as [|c cs (AA & pos & Hget & Hne & Hal) _ IH]; [reflexivity|].
  subst loop. cbn [chain_loop]. unfold chain_body at 1.
  rewrite Hget. cbn [mbind result_bind Py.bind].
  rewrite decide_False by exact Hne.
  destruct (missing_step_ok seq1 h c pos AA (get_AA_pos_parallel _ _ _ _ _ Hget))
    as (st & cw & Hms & _).
  rewrite Hms. cbn [mbind result_bind Py.bind]. rewrite (Hal st cw Hms).
  cbn [mbind result_bind Py.bind]. exact IH.
Qed.

(** X19.  When every chain of the structure gives residues but none of
    them aligns with the reference, the function returns the array of five
    empty strings: the same value as after a failed extraction. *)
Theorem align_uniprot_pdb_no_alignment (self_chains : list string) :
  Forall (unaligned seq1 localms model h uniprot_sequence) self_chains ->
  run self_chains = Ok empty_output.
Proof.
  intros Hall. subst run. unfold align_uniprot_pdb. fold loop.
  rewrite (chain_loop_unaligned self_chains no_columns Hall). reflexivity.
Qed.

(** X20.  Whatever the chains, a result of [align_uniprot_pdb] is an array
    of five strings; the first one joins with [;] a subsequence of the
    chains given, in their order; and when no position was queried the
    third one is empty. *)
Theorem align_uniprot_pdb_output (self_chains : list string) (output_array : list string) :
  run self_chains = Ok output_array ->
  length output_array = 5%nat /\
  (exists kept, kept `sublist_of` self_chains /\
                output_array !! 0%nat = Some (join ";" kept)) /\
  (mut_pos = NoMutations -> output_array !! 2%nat = Some EmptyString).
Proof.
  subst run. unfold align_uniprot_pdb. fold loop.
  destruct (loop self_chains no_columns) as [[acc|out]|e] eqn:Hl;
    cbn [mbind result_bind Py.bind]; [| |discriminate].
  - intros H. inversion H; subst; clear H.
    destruct (chain_loop_kept self_chains no_columns acc Hl)
      as (kept & Hsub & Hc & _ & _ & _ & Hm).
    split; [reflexivity|]. split.
    + exists kept. split; [exact Hsub|]. cbn in Hc. cbn. rewrite Hc. reflexivity.
    + intros ->. cbn in Hm. cbn. rewrite Hm. reflexivity.
  - intros H. inversion H; subst; clear H.
    apply (chain_loop_Return seq1 localms set_iter model h uniprot_sequence
             uniprot_numbering mut_pos) in Hl. subst output_array.
    split; [reflexivity|]. split; [|reflexivity].
    exists []. split; [apply sublist_nil_l | reflexivity].
Qed.

End ChainColumns.


Lemma chain_loop_columns_witness :
  let residue_at name number := {| resname := name; resseq := number; icode := " " |} in
  let model : gmap string (list residue) :=
    {[ "A"%string := [residue_at "MET"%string 1; residue_at "LYS"%string 2;
                      residue_at "THR"%string 3; residue_at "ALA"%string 4;
                      residue_at "TYR"%string 5];
       "C"%string := [residue_at "MET"%string 1; residue_at "LYS"%string 2;
                      residue_at "THR"%string 3; residue_at "ALA"%string 4;
                      residue_at "TRP"%string 5] ]} in
  let h := {| has_missing_residues := false; missing_residues := [] |} in
  let mut_pos := Positions [2; 9] in
  let loop := chain_loop seq1_standard localms_same CPython.set_iter model h
                "MKTAY" [1; 2; 3; 4; 5] mut_pos in
  let acc' := {| chains := ["A"%string];
                 coverage := ["[(1, 5)]"%string];
                 mutational_column := [["Mutation on position 9 not in range"; "K2K"]%string];
                 mutation_list := [inl "NA"%string];
                 warning_column := [EmptyString] |} in
  loop ["C"; "A"]%string no_columns = Ok (Next acc') /\
  exists kept, kept `sublist_of` ["C"; "A"]%string /\ one_per_chain mut_pos no_columns acc' kept.
Proof.
  intros residue_at model h mut_pos loop acc'.
  assert (loop ["C"; "A"]%string no_columns = Ok (Next acc')) as Hl by (vm_compute; reflexivity).
  split; [exact Hl|].
  exact (chain_loop_columns seq1_standard localms_same CPython.set_iter model h
           "MKTAY" [1; 2; 3; 4; 5] mut_pos ["C"; "A"]%string no_columns acc' Hl).
Defined.

Lemma align_uniprot_pdb_no_alignment_witness :
  let residue_at name number := {| resname := name; resseq := number; icode := " " |} in
  let model : gmap string (list residue) :=
    {[ "C"%string := [residue_at "MET"%string 1; residue_at "LYS"%string 2;
                      residue_at "THR"%string 3; residue_at "ALA"%string 4;
                      residue_at "TRP"%string 5] ]} in
  let h := {| has_missing_residues := false; missing_residues := [] |} in
  Forall (unaligned seq1_standard localms_same model h "MKTAY") ["C"%string] /\
  align_uniprot_pdb seq1_standard localms_same CPython.set_iter model h
    "MKTAY" [1; 2; 3; 4; 5] (Positions [2]) ["C"%string] = Ok empty_output.
Proof.
  intros residue_at model h.
  assert (Forall (unaligned seq1_standard localms_same model h "MKTAY") ["C"%string]) as Hall.
  { constructor; [|constructor].
    exists ["M"; "K"; "T"; "A"; "W"]%string, [1; 2; 3; 4; 5].
    split; [vm_compute; reflexivity|]. split; [discriminate|].
    intros st chain_warning Hms. vm_compute in Hms. inversion Hms; subst.
    vm_compute. reflexivity. }
  split; [exact Hall|].
  exact (align_uniprot_pdb_no_alignment seq1_standard localms_same CPython.set_iter model h
           "MKTAY" [1; 2; 3; 4; 5] (Positions [2]) ["C"%string] Hall).
Defined.

Lemma align_uniprot_pdb_output_witness :
  let residue_at name number := {| resname := name; resseq := number; icode := " " |} in
  let model : gmap string (list residue) :=
    {[ "A"%string := [residue_at "MET"%string 1; residue_at "LYS"%string 2;
                      residue_at "THR"%string 3; residue_at "ALA"%string 4;
                      residue_at "TYR"%string 5];
       "C"%string := [residue_at "MET"%string 1; residue_at "LYS"%string 2;
                      residue_at "THR"%string 3; residue_at "ALA"%string 4;
                      residue_at "TRP"%string 5] ]} in
  let h := {| has_missing_residues := false; missing_residues := [] |} in
  let run := align_uniprot_pdb seq1_standard localms_same CPython.set_iter model h
               "MKTAY" [1; 2; 3; 4; 5] NoMutations in
  let output_array := ["A"; "[(1, 5)]"; EmptyString; "NA"; EmptyString]%string in
  run ["A"; "C"]%string = Ok output_array /\
  length output_array = 5%nat /\
  (exists kept, kept `sublist_of` ["A"; "C"]%string /\
                output_array !! 0%nat = Some (join ";" kept)) /\
  (NoMutations = NoMutations -> output_array !! 2%nat = Some EmptyString).
Proof.
  intros residue_at model h run output_array.
  assert (run ["A"; "C"]%string = Ok output_array) as Hrun by (vm_compute; reflexivity).
  split; [exact Hrun|].
  exact (align_uniprot_pdb_output seq1_standard localms_same CPython.set_iter model h
           "MKTAY" [1; 2; 3; 4; 5] NoMutations ["A"; "C"]%string output_array Hrun).
Defined.

(** ** Ranking of the results *)

Lemma ordering_inner (j : Z) (m : string) (ks : list string) (mo : ordering) :
  foldl (fun mutation_ordering k =>
           if contains k m && bool_decide (mutation_ordering = NA)
           then Index j else mutation_ordering) mo ks
  = if decide (mo = NA ∧ Exists (fun k => contains k m = true) ks) then Index j else mo.
Proof.
  revert mo. induction ks as [|k ks IH]; intros mo; cbn [foldl].
  - rewrite decide_False; [reflexivity|]. intros [_ H]. inversion H.
  - rewrite IH. destruct (contains k m) eqn:Hk; cbn [andb].
    + destruct mo as [|i].
      * rewrite bool_decide_eq_true_2 by reflexivity.
        rewrite decide_False by (intros [? _]; discriminate).
        rewrite decide_True; [reflexivity|]. split; [reflexivity|]. left. exact Hk.
      * rewrite bool_decide_eq_false_2 by discriminate.
        rewrite !decide_False by (intros [? _]; discriminate). reflexivity.
    + destruct (decide (mo = NA ∧ Exists (fun k => contains k m = true) ks)) as [[H1 H2]|Hn].
      * rewrite decide_True; [reflexivity|]. split; [exact H1|]. right. exact H2.
      * rewrite decide_False; [reflexivity|]. intros [H1 H2]. apply Hn. split; [exact H1|].
        inversion H2; subst; [congruence | assumption].
Qed.

Lemma ordering_outer (ks : list string) (mutations : list string) (k0 : Z) (mo : ordering) :
  foldl (fun mutation_ordering '(j, m) =>
           foldl (fun mutation_ordering k =>
                    if contains k m && bool_decide (mutation_ordering = NA)
                    then Index j else mutation_ordering)
                 mutation_ordering ks)
        mo (enumerate_from k0 mutations)
  = match mo, list_find (fun m => Exists (fun k => contains k m = true) ks) mutations with
    | NA, Some (j, _) => Index (k0 + Z.of_nat j)
    | _, _ => mo
    end.
Proof.
  revert k0 mo. induction mutations as [|m ms IH]; intros k0 mo.
  - destruct mo; reflexivity.
  - rewrite enumerate_from_cons. cbn [foldl]. rewrite ordering_inner, IH.
    cbn [list_find].
    destruct (decide (Exists (fun k => contains k m = true) ks)) as [He|He].
    + destruct mo as [|i].
      * rewrite decide_True by (split; [reflexivity | exact He]).
        cbn. f_equal. lia.
      * rewrite decide_False by (intros [? _]; discriminate). reflexivity.
    + rewrite decide_False by (intros [_ ?]; contradiction).
      destruct mo as [|i]; [|reflexivity].
      destruct (list_find _ ms) as [[j x]|]; cbn; [|reflexivity].
      f_equal. lia.
Qed.

(** X21.  The sort key of a structure in the ranking script.  With the
    mutations of the protein's chain at hand, the key is the index of the
    first mutation of interest that occurs, as a substring, in one of them;
    it is [len(mutations) + 1] when none occurs.  A structure whose
    mutations are ["NA"] gets [len(mutations)], so it sorts after every
    match and before the structures without a match. *)
Theorem mutation_ordering_first_match
    (mutations : list string) (protein_mutations : option (list string)) :
  let key := sort_key mutations (mutation_ordering mutations protein_mutations) in
  match protein_mutations with
  | None => key = Z.of_nat (length mutations)
  | Some ks =>
      match list_find (fun m => Exists (fun k => contains k m = true) ks) mutations with
      | Some (j, _) => key = Z.of_nat j /\ (j < length mutations)%nat
      | None => key = Z.of_nat (length mutations) + 1
      end
  end.
Proof.
  destruct protein_mutations as [ks|]; cbn [mutation_ordering]; [|reflexivity].
  change (enumerate mutations) with (enumerate_from 0 mutations).
  rewrite ordering_outer.
  destruct (list_find _ mutations) as [[j x]|] eqn:Hf; cbn; [|reflexivity].
  split; [lia|]. apply list_find_Some in Hf as (Hj & _). eapply lookup_lt_Some. exact Hj.
Qed.

(** The mutations of interest of the script, against a chain that carries
    the fourth and the first of them. *)
Example mutation_ordering_lrrk2 :
  let mutations := ["G2019S"; "R1441G"; "R1441C"; "R1441H"; "Y1699C"; "I2020T";
                    "I2020K"; "G2385R"]%string in
  mutation_ordering mutations (Some ["R1441H"; "G2019S"]%string) = Index 0 /\
  mutation_ordering mutations (Some ["D1994A"]%string) = NA /\
  sort_key mutations NA = 9 /\
  mutation_ordering mutations None = Index 8.
Proof. repeat split; vm_compute; reflexivity. Qed.

(** ** Strings: pieces and joins *)

Lemma append_nil_l (s : string) : EmptyString +:+ s = s.
Proof. reflexivity. Qed.

Lemma append_cons (c : ascii) (a b : string) : String c a +:+ b = String c (a +:+ b).
Proof. reflexivity. Qed.

Lemma chars_app (a b : string) :
  list_ascii_of_string (a +:+ b) = list_ascii_of_string a ++ list_ascii_of_string b.
Proof. induction a as [|c a IH]; [reflexivity|]. simpl. rewrite IH. reflexivity. Qed.

Lemma join_cons (sep p : string) (l : list string) :
  l ≠ [] -> join sep (p :: l) = p +:+ sep +:+ join sep l.
Proof. destruct l; [contradiction | reflexivity]. Qed.

Lemma chars_join (sep : string) (l : list string) (c : ascii) :
  c ∈ list_ascii_of_string (join sep l) ->
  c ∈ list_ascii_of_string sep \/ exists p, p ∈ l /\ c ∈ list_ascii_of_string p.
Proof.
  induction l as [|p l IH]; [intros H; inversion H|].
  destruct l as [|q l].
  - intros H. right. exists p. split; [left | exact H].
  - rewrite join_cons by discriminate. rewrite !chars_app, !elem_of_app.
    intros [H|[H|H]].
    + right. exists p. split; [left | exact H].
    + left. exact H.
    + destruct (IH H) as [H'|(p' & Hp' & H')]; [left; exact H'|].
      right. exists p'. split; [right; exact Hp' | exact H'].
Qed.

Lemma chars_join_item (sep p : string) (l : list string) (c : ascii) :
  p ∈ l -> c ∈ list_ascii_of_string p -> c ∈ list_ascii_of_string (join sep l).
Proof.
  induction l as [|q l IH]; [intros H; inversion H|].
  intros Hp Hc. destruct l as [|q' l].
  - apply list_elem_of_singleton in Hp. subst q. exact Hc.
  - rewrite join_cons by discriminate. rewrite !chars_app, !elem_of_app.
    apply elem_of_cons in Hp as [->|Hp]; [left; exact Hc|].
    right; right. apply IH; assumption.
Qed.

Lemma split_nonempty (sep : ascii) (s : string) : split sep s ≠ [].
Proof.
  destruct s as [|c s]; cbn [split]; [discriminate|].
  destruct (decide (c = sep)); [discriminate|]. destruct (split sep s); discriminate.
Qed.

(** Joining the pieces of a string gives the string back. *)
Lemma join_split (sep : ascii) (s : string) :
  join (String sep EmptyString) (split sep s) = s.
Proof.
  induction s as [|c s IH]; [reflexivity|]. cbn [split].
  destruct (decide (c = sep)) as [->|Hne].
  - rewrite join_cons by apply split_nonempty. rewrite IH. reflexivity.
  - destruct (split sep s) as [|p ps] eqn:Hs; [exfalso; exact (split_nonempty _ _ Hs)|].
    destruct ps as [|q ps].
    + cbn [join] in *. rewrite IH. reflexivity.
    + rewrite <- IH. rewrite !join_cons by discriminate. reflexivity.
Qed.

Lemma split_none (sep : ascii) (p : string) :
  sep ∉ list_ascii_of_string p -> split sep p = [p].
Proof.
  induction p as [|c p IH]; [reflexivity|]. cbn [split list_ascii_of_string]. intros H.
  apply not_elem_of_cons in H as [Hc Hp].
  rewrite decide_False by congruence. rewrite (IH Hp). reflexivity.
Qed.

Lemma split_app (sep : ascii) (p rest : string) :
  sep ∉ list_ascii_of_string p ->
  split sep (p +:+ String sep rest) = p :: split sep rest.
Proof.
  induction p as [|c p IH]; cbn [list_ascii_of_string].
  - intros _. rewrite append_nil_l. cbn [split]. rewrite decide_True by reflexivity.
    reflexivity.
  - intros H. apply not_elem_of_cons in H as [Hc Hp].
    rewrite append_cons. cbn [split].
    rewrite decide_False by congruence. rewrite (IH Hp). reflexivity.
Qed.

(** The pieces of a join are the items joined, as long as none of them
    holds the separator. *)
Lemma split_join (sep : ascii) (l : list string) :
  l ≠ [] -> Forall (fun p => sep ∉ list_ascii_of_string p) l ->
  split sep (join (String sep EmptyString) l) = l.
Proof.
  induction l as [|p l IH]; [congruence|]. intros _ H.
  apply Forall_cons in H as [Hp Hl]. destruct l as [|q l].
  - apply split_none. exact Hp.
  - rewrite join_cons by discriminate. rewrite append_cons, append_nil_l.
    rewrite (split_app sep p _ Hp). rewrite IH by (discriminate || exact Hl). reflexivity.
Qed.

Lemma list_to_set_all (l : list string) (x : string) :
  (list_to_set l : gset string) = {[ x ]} <-> l ≠ [] /\ Forall (fun y => y = x) l.
Proof.
  split.
  - intros H. split.
    + intros ->. assert (x ∈ (∅ : gset string)) as H0; [|inversion H0].
      change (∅ : gset string) with (list_to_set [] : gset string).
      rewrite H. apply elem_of_singleton. reflexivity.
    + apply Forall_forall. intros y Hy. apply (elem_of_singleton (C := gset string)).
      rewrite <- H. apply elem_of_list_to_set. exact Hy.
  - intros [Hne Hall]. apply set_eq. intros y.
    rewrite elem_of_list_to_set, elem_of_singleton. split.
    + intros Hy. exact (proj1 (Forall_forall _ _) Hall y Hy).
    + intros ->. destruct l as [|z l]; [congruence|].
      apply Forall_cons in Hall as [-> _]. left.
Qed.

Lemma replicate_all (l : list string) (x : string) :
  Forall (fun y => y = x) l -> l = replicate (length l) x.
Proof.
  induction 1 as [|y l -> _ IH]; [reflexivity|]. cbn. rewrite <- IH. reflexivity.
Qed.

(** ** The normalisation of the cells *)

Lemma cleanup_mutations_in_pdb_all (l : list string) :
  l ≠ [] -> Forall (fun y => y = "NA"%string) l ->
  cleanup_mutations_in_pdb (join ";" l) = "NA"%string.
Proof.
  intros Hne Hall. unfold cleanup_mutations_in_pdb.
  rewrite split_join; [|exact Hne|].
  - rewrite decide_True; [reflexivity|]. apply list_to_set_all. split; assumption.
  - eapply Forall_impl; [exact Hall|]. intros y ->. cbn.
    rewrite !not_elem_of_cons. repeat split; try discriminate. apply not_elem_of_nil.
Qed.

Lemma cleanup_mutations_in_pdb_inv (s : string) :
  cleanup_mutations_in_pdb s = "NA"%string ->
  exists n, s = join ";" (replicate (S n) "NA"%string).
Proof.
  unfold cleanup_mutations_in_pdb.
  destruct (decide _) as [He|_].
  - intros _. apply list_to_set_all in He as [Hne Hall].
    apply replicate_all in Hall.
    destruct (length (split ";" s)) as [|n] eqn:Hlen.
    + apply nil_length_inv in Hlen. contradiction.
    + exists n. rewrite <- Hall. symmetry. apply join_split.
  - intros ->. exists 0%nat. reflexivity.
Qed.

(** X22.  What [cleanup_all] does to a cell of [mutations_in_pdb]: the cell
    becomes "NA" exactly when it is "NA" repeated once or more with [;]
    between, and any other cell is left as it is. *)
Theorem cleanup_mutations_in_pdb_spec (mutations_in_pdb : string) :
  (cleanup_mutations_in_pdb mutations_in_pdb = "NA"%string <->
   exists n, mutations_in_pdb = join ";" (replicate (S n) "NA"%string)) /\
  (cleanup_mutations_in_pdb mutations_in_pdb = "NA"%string \/
   cleanup_mutations_in_pdb mutations_in_pdb = mutations_in_pdb).
Proof.
  split.
  - split; [apply cleanup_mutations_in_pdb_inv|].
    intros [n ->]. apply cleanup_mutations_in_pdb_all; [discriminate|].
    apply Forall_forall. intros y Hy. apply elem_of_replicate in Hy as [-> _]. reflexivity.
  - unfold cleanup_mutations_in_pdb. destruct (decide _); [left | right]; reflexivity.
Qed.

Lemma cleanup_warnings_NA : cleanup_warnings "NA" = "NA"%string.
Proof. unfold cleanup_warnings. destruct (decide _); reflexivity. Qed.

(** X23.  The two steps that make the warnings cell, one after the other.
    When the warning of every recorded chain is the lone comma (a chain
    whose missing-residue step and whose trimming both gave nothing), the
    cell that [align_uniprot_pdb] returns becomes "NA" in [cleanup_all],
    however many chains there are. *)
Theorem cleanup_warnings_commas (acc : columns) :
  warning_column acc ≠ [] ->
  Forall (fun w => w = ","%string) (warning_column acc) ->
  exists warnings,
    render_columns acc !! 4%nat = Some warnings /\ cleanup_warnings warnings = "NA"%string.
Proof.
  intros Hne Hall. unfold render_columns. apply replicate_all in Hall.
  destruct (length (warning_column acc)) as [|n] eqn:Hlen;
    [apply nil_length_inv in Hlen; contradiction|].
  rewrite Hall. eexists. split; [reflexivity|].
  destruct n as [|n].
  - cbn [replicate join]. rewrite decide_True by reflexivity. apply cleanup_warnings_NA.
  - change (join ";" (replicate (S (S n)) ","%string))
      with (String "," (String ";" (join ";" (replicate (S n) ","%string)))).
    rewrite decide_False by discriminate.
    assert (split ";" (String ";" (join ";" (replicate (S n) ","%string)))
            = EmptyString :: replicate (S n) ","%string) as Hs.
    { cbn [split]. destruct (decide (";"%char = ";"%char)) as [_|Hn]; [|congruence].
      rewrite split_join; [reflexivity | discriminate |].
      apply Forall_forall. intros y Hy. apply elem_of_replicate in Hy as [-> _]. cbn.
      rewrite !not_elem_of_cons. repeat split; try discriminate. apply not_elem_of_nil. }
    unfold cleanup_warnings. rewrite Hs.
    rewrite decide_True; [reflexivity|]. apply set_eq. intros y.
    rewrite elem_of_list_to_set, elem_of_union, !elem_of_singleton, elem_of_cons.
    split.
    + intros [->|Hy]; [left; reflexivity|]. apply elem_of_replicate in Hy as [-> _].
      right; reflexivity.
    + intros [->| ->]; [left; reflexivity|]. right. left.
Qed.

Lemma cleanup_warnings_commas_witness :
  let acc := {| chains := ["A"; "B"; "C"]%string;
                coverage := ["[(1, 5)]"; "[(1, 5)]"; "[(2, 5)]"]%string;
                mutational_column := [];
                mutation_list := [inl "NA"; inl "NA"; inl "NA"]%string;
                warning_column := [","; ","; ","]%string |} in
  warning_column acc ≠ [] /\
  Forall (fun w => w = ","%string) (warning_column acc) /\
  exists warnings,
    render_columns acc !! 4%nat = Some warnings /\ cleanup_warnings warnings = "NA"%string.
Proof.
  intros acc.
  assert (warning_column acc ≠ []) as Hne by discriminate.
  assert (Forall (fun w => w = ","%string) (warning_column acc)) as Hall
    by (repeat constructor).
  split; [exact Hne|]. split; [exact Hall|].
  exact (cleanup_warnings_commas acc Hne Hall).
Defined.

(** ** The discrepancy cell, from the loop to the clean-up *)

Section ChainCells.

Variable seq1 : string -> string.
Variable localms : string -> string -> list (string * string).
Variable set_iter : list Z -> list Z.
Variable model : gmap string (list residue).
Variable h : header.
Variable uniprot_sequence : string.
Variable uniprot_numbering : list Z.
Variable mut_pos : mutation_positions.

Let body := chain_body seq1 localms set_iter model h uniprot_sequence uniprot_numbering mut_pos.
Let loop := chain_loop seq1 localms set_iter model h uniprot_sequence uniprot_numbering mut_pos.

Lemma aligned_chain_mutation_item (acc acc' : columns) (chain_str : string) (pos : list Z)
    (chain_warning : list (string + list string)) (uniprot_aligned pdb_aligned : string) :
  aligned_chain set_iter uniprot_numbering mut_pos acc chain_str pos chain_warning
    uniprot_aligned pdb_aligned = Ok acc' ->
  exists mutations_in_all : list string,
    mutation_list acc' =
      mutation_list acc ++
        [if decide (mutations_in_all = []) then inl "NA"%string else inr mutations_in_all].
Proof.
  unfold aligned_chain.
  destruct (data_frame _ _ _ _) as [df|]; cbn [mbind result_bind Py.bind]; [|discriminate].
  destruct (match mut_pos with NoMutations => _ | Positions _ => _ end) as [mc|];
    cbn [mbind result_bind Py.bind]; [|discriminate].
  destruct (get_all_discrepancies _) as [[[df' m] w]|];
    cbn [mbind result_bind Py.bind]; [|discriminate].
  destruct (get_coverage _ _) as [rc|]; cbn [mbind result_bind Py.bind]; [|discriminate].
  intros H. inversion H; subst; clear H. exists m. reflexivity.
Qed.

Lemma chain_loop_mutation_list (self_chains : list string) (acc acc' : columns) :
  loop self_chains acc = Ok (Next acc') ->
  Forall (fun item => item = inl "NA"%string \/ exists l, l ≠ [] /\ item = inr l)
         (mutation_list acc) ->
  Forall (fun item => item = inl "NA"%string \/ exists l, l ≠ [] /\ item = inr l)
         (mutation_list acc').
Proof.
  revert acc. induction self_chains as [|c cs IH]; intros acc; subst loop; cbn [chain_loop].
  - intros H. inversion H; subst. tauto.
  - destruct (chain_body _ _ _ _ _ _ _ _ acc c) as [[acc1|out]|e] eqn:Hb;
      cbn [mbind result_bind Py.bind]; [|discriminate..].
    intros Hl Hacc. apply (IH acc1 Hl). clear IH Hl.
    unfold chain_body in Hb.
    destruct (get_AA_pos seq1 c model) as [[AA pos]|];
      cbn [mbind result_bind Py.bind] in Hb; [|discriminate].
    destruct (decide (AA = [])); [discriminate|].
    destruct (missing_step seq1 h c pos AA) as [[st cw]|];
      cbn [mbind result_bind Py.bind] in Hb; [|discriminate].
    destruct (alignment localms uniprot_sequence (AA_pdb st)) as [[u p]|].
    + destruct (aligned_chain _ _ _ _ _ _ _ _ _) as [acc''|] eqn:Ha;
        cbn [mbind result_bind Py.bind] in Hb; [|discriminate].
      inversion Hb; subst. destruct (aligned_chain_mutation_item _ _ _ _ _ _ _ Ha) as [m ->].
      apply Forall_app. split; [exact Hacc|]. constructor; [|constructor].
      destruct (decide (m = [])); [left; reflexivity | right; eauto].
    + inversion Hb; subst. exact Hacc.
Qed.

(** X24.  The discrepancies cell, from the loop over the chains to
    [cleanup_all].  The cell that the loop's lists give becomes "NA" in
    [cleanup_all] exactly when at least one chain was recorded and no
    recorded chain shows a discrepancy: one recorded chain with a
    discrepancy keeps the cell from becoming "NA". *)
Theorem cleanup_mutations_in_pdb_chains (self_chains : list string) (acc : columns) :
  loop self_chains no_columns = Ok (Next acc) ->
  exists mutations_in_pdb,
    render_columns acc !! 3%nat = Some mutations_in_pdb /\
    (cleanup_mutations_in_pdb mutations_in_pdb = "NA"%string <->
     mutation_list acc ≠ [] /\ Forall (fun item => item = inl "NA"%string) (mutation_list acc)).
Proof.
  intros Hl. eexists. split; [reflexivity|].
  pose proof (chain_loop_mutation_list self_chains no_columns acc Hl (Forall_nil_2 _)) as Hok.
  split.
  - intros Hc. apply cleanup_mutations_in_pdb_inv in Hc as [n Hc].
    split.
    + intros Hnil. rewrite Hnil in Hc.
      destruct n; cbn [map replicate join] in Hc; [discriminate Hc|].
      rewrite append_cons in Hc. discriminate Hc.
    + apply Forall_forall. intros item Hitem.
      destruct (proj1 (Forall_forall _ _) Hok item Hitem) as [->|(l & _ & ->)];
        [reflexivity|]. exfalso.
      assert ("["%char ∈ list_ascii_of_string
                (join ";" (map str_of_item (mutation_list acc)))) as Hin.
      { apply (chars_join_item _ (str_of_list l)).
        - apply list_elem_of_fmap. exists (inr l). split; [reflexivity | exact Hitem].
        - unfold str_of_list. rewrite append_cons. left. }
      rewrite Hc in Hin. apply chars_join in Hin as [Hin|(p & Hp & Hin)].
      * cbn in Hin. apply list_elem_of_singleton in Hin. discriminate.
      * apply elem_of_replicate in Hp as [-> _]. cbn in Hin.
        apply elem_of_cons in Hin as [Hin|Hin]; [discriminate|].
        apply list_elem_of_singleton in Hin. discriminate.
  - intros [Hne Hall]. apply cleanup_mutations_in_pdb_all.
    + intros Hnil. apply fmap_nil_inv in Hnil. contradiction.
    + apply Forall_fmap. eapply Forall_impl; [exact Hall|]. intros item ->. reflexivity.
Qed.

End ChainCells.

Lemma cleanup_mutations_in_pdb_chains_witness :
  let residue_at name number := {| resname := name; resseq := number; icode := " " |} in
  let model : gmap string (list residue) :=
    {[ "A"%string := [residue_at "MET"%string 1; residue_at "LYS"%string 2;
                      residue_at "THR"%string 3; residue_at "ALA"%string 4;
                      residue_at "TYR"%string 5];
       "C"%string := [residue_at "MET"%string 1; residue_at "LYS"%string 2;
                      residue_at "THR"%string 3; residue_at "ALA"%string 4;
                      residue_at "TRP"%string 5] ]} in
  let h := {| has_missing_residues := false; missing_residues := [] |} in
  let mut_pos := Positions [2; 9] in
  let loop := chain_loop seq1_standard localms_same CPython.set_iter model h
                "MKTAY" [1; 2; 3; 4; 5] mut_pos in
  let acc := {| chains := ["A"%string];
                coverage := ["[(1, 5)]"%string];
                mutational_column := [["Mutation on position 9 not in range"; "K2K"]%string];
                mutation_list := [inl "NA"%string];
                warning_column := [EmptyString] |} in
  loop ["C"; "A"]%string no_columns = Ok (Next acc) /\
  exists mutations_in_pdb,
    render_columns acc !! 3%nat = Some mutations_in_pdb /\
    (cleanup_mutations_in_pdb mutations_in_pdb = "NA"%string <->
     mutation_list acc ≠ [] /\ Forall (fun item => item = inl "NA"%string) (mutation_list acc)).
Proof.
  intros residue_at model h mut_pos loop acc.
  assert (loop ["C"; "A"]%string no_columns = Ok (Next acc)) as Hl by (vm_compute; reflexivity).
  split; [exact Hl|].
  exact (cleanup_mutations_in_pdb_chains seq1_standard localms_same CPython.set_iter model h
           "MKTAY" [1; 2; 3; 4; 5] mut_pos ["C"; "A"]%string acc Hl).
Defined.

(** ** The replacements of [filter_all] *)

Lemma append_assoc (a b c : string) : (a +:+ b) +:+ c = a +:+ b +:+ c.
Proof.
  induction a as [|x a IH]; [reflexivity|]. rewrite !append_cons, IH. reflexivity.
Qed.

Lemma append_nil_r (a : string) : a +:+ EmptyString = a.
Proof. induction a as [|x a IH]; [reflexivity|]. rewrite append_cons, IH. reflexivity. Qed.

(** Replacing a one-character string is a substitution of the character. *)
Lemma replace_char (c : ascii) (new s : string) :
  replace (String c EmptyString) new s = subst_char c new s.
Proof.
  unfold replace. induction s as [|d s IH]; [reflexivity|].
  cbn [replace_from subst_char String.prefix String.length Nat.sub].
  destruct (ascii_dec c d) as [->|Hne].
  - rewrite decide_True by reflexivity. destruct s; rewrite IH; reflexivity.
  - rewrite decide_False by congruence. rewrite IH. reflexivity.
Qed.

Lemma prefix_space_M (s : string) :
  String.prefix " M" s =
    match s with
    | String c s' => bool_decide (c = " "%char) && starts_with_M s'
    | EmptyString => false
    end.
Proof.
  destruct s as [|c [|d s]]; [reflexivity|..]; cbn [String.prefix starts_with_M].
  - rewrite andb_false_r. destruct (ascii_dec " " c); reflexivity.
  - destruct (ascii_dec " " c) as [<-|Hc].
    + rewrite bool_decide_eq_true_2 by reflexivity. cbn [andb].
      destruct (ascii_dec "M" d) as [<-|Hd].
      * rewrite bool_decide_eq_true_2 by reflexivity. destruct s; reflexivity.
      * rewrite bool_decide_eq_false_2 by congruence. reflexivity.
    + rewrite bool_decide_eq_false_2 by congruence. reflexivity.
Qed.

Lemma starts_with_M_inv (s : string) :
  starts_with_M s = true -> exists s', s = String "M" s'.
Proof.
  destruct s as [|d s]; [discriminate|]. cbn [starts_with_M]. intros H.
  apply bool_decide_eq_true_1 in H. subst d. eauto.
Qed.

(** Replacing [" M"] by ["M"] drops the spaces that stand before an [M]. *)
Lemma replace_space_M (s : string) : replace " M" "M" s = unspace s.
Proof.
  unfold replace.
  assert (replace_from " M" "M" 0 s = unspace s /\
          match s with
          | String _ s' => replace_from " M" "M" 0 s' = unspace s'
          | EmptyString => True
          end) as [H _]; [|exact H].
  induction s as [|c s [IH1 IH2]]; [split; [reflexivity | exact I]|].
  split; [|exact IH1].
  cbn [replace_from unspace]. rewrite prefix_space_M.
  destruct (bool_decide (c = " "%char) && starts_with_M s) eqn:E.
  - apply andb_true_iff in E as [_ E]. apply starts_with_M_inv in E as [s' ->].
    cbn [String.length Nat.sub replace_from unspace].
    rewrite bool_decide_eq_false_2 by discriminate. cbn [andb].
    rewrite append_cons, append_nil_l, IH2. reflexivity.
  - rewrite IH1. reflexivity.
Qed.

Lemma subst_char_none (c : ascii) (new s : string) :
  c ∉ list_ascii_of_string s -> subst_char c new s = s.
Proof.
  induction s as [|d s IH]; [reflexivity|]. cbn [list_ascii_of_string subst_char].
  intros H. apply not_elem_of_cons in H as [Hd Hs].
  rewrite decide_False by congruence. rewrite (IH Hs). reflexivity.
Qed.

Lemma subst_char_app (c : ascii) (new a b : string) :
  subst_char c new (a +:+ b) = subst_char c new a +:+ subst_char c new b.
Proof.
  induction a as [|d a IH]; [reflexivity|]. rewrite append_cons. cbn [subst_char].
  destruct (decide (d = c)); rewrite IH; [rewrite append_assoc | rewrite append_cons];
    reflexivity.
Qed.

Lemma subst_char_join (c : ascii) (new sep : string) (l : list string) :
  subst_char c new (join sep l) = join (subst_char c new sep) (map (subst_char c new) l).
Proof.
  induction l as [|p l IH]; [reflexivity|]. destruct l as [|q l]; [reflexivity|].
  rewrite join_cons by discriminate. rewrite !subst_char_app, IH.
  change (map (subst_char c new) (p :: q :: l))
    with (subst_char c new p :: map (subst_char c new) (q :: l)).
  rewrite join_cons; [reflexivity|]. cbn [map]. discriminate.
Qed.

Lemma map_id_on {A} (f : A -> A) (l : list A) :
  Forall (fun x => f x = x) l -> map f l = l.
Proof. induction 1 as [|x l Hx _ IH]; [reflexivity|]. cbn. rewrite Hx, IH. reflexivity. Qed.

(** ** Strings that the replacements leave alone *)

Lemma stable_nil : stable EmptyString.
Proof. intros rest. reflexivity. Qed.

Lemma stable_cons (c : ascii) (v : string) :
  c ≠ " "%char -> stable v -> stable (String c v).
Proof.
  intros Hc Hv rest. rewrite append_cons. cbn [unspace].
  rewrite bool_decide_eq_false_2 by exact Hc. cbn [andb]. rewrite Hv. reflexivity.
Qed.

Lemma stable_space (d : ascii) (v : string) :
  d ≠ "M"%char -> stable (String d v) -> stable (String " " (String d v)).
Proof.
  intros Hd Hv rest. rewrite append_cons. cbn [unspace].
  rewrite append_cons. cbn [starts_with_M].
  rewrite (bool_decide_eq_false_2 (d = "M"%char)) by exact Hd. rewrite andb_false_r.
  rewrite <- append_cons, Hv. reflexivity.
Qed.

Lemma stable_app (a b : string) : stable a -> stable b -> stable (a +:+ b).
Proof. intros Ha Hb rest. rewrite !append_assoc, Ha, Hb. reflexivity. Qed.

Lemma stable_nospace (v : string) : " "%char ∉ list_ascii_of_string v -> stable v.
Proof.
  induction v as [|c v IH]; [intros _; apply stable_nil|].
  cbn [list_ascii_of_string]. intros H. apply not_elem_of_cons in H as [Hc Hv].
  apply stable_cons; [congruence | apply IH; exact Hv].
Qed.

Lemma starts_with_M_app (v rest : string) :
  v ≠ EmptyString -> starts_with_M (v +:+ rest) = starts_with_M v.
Proof. destruct v; [congruence | reflexivity]. Qed.

Lemma unspace_spaced (v rest : string) :
  stable v -> v ≠ EmptyString ->
  unspace (String " " (v +:+ rest)) = spaced v +:+ unspace rest.
Proof.
  intros Hv Hne. cbn [unspace]. rewrite bool_decide_eq_true_2 by reflexivity. cbn [andb].
  rewrite (starts_with_M_app v rest Hne). unfold spaced.
  destruct (starts_with_M v); rewrite Hv; [|rewrite append_cons]; reflexivity.
Qed.

Lemma unspace_comma (rest : string) : unspace (String "," rest) = String "," (unspace rest).
Proof. reflexivity. Qed.

Lemma join_tail (sep v : string) (l : list string) :
  join sep (v :: l) = v +:+ tail_join sep l.
Proof.
  revert v. induction l as [|x l IH]; intros v.
  - cbn. rewrite append_nil_r. reflexivity.
  - rewrite join_cons by discriminate. rewrite IH. reflexivity.
Qed.

Lemma tail_join_cons (sep v : string) (l : list string) :
  tail_join sep (v :: l) = sep +:+ join sep (v :: l).
Proof. rewrite join_tail. reflexivity. Qed.

Lemma tail_join_app (sep : string) (l1 l2 : list string) :
  tail_join sep (l1 ++ l2) = tail_join sep l1 +:+ tail_join sep l2.
Proof.
  induction l1 as [|x l1 IH]; [reflexivity|]. cbn [app tail_join foldr].
  fold (tail_join sep (l1 ++ l2)). fold (tail_join sep l1).
  rewrite IH, !append_assoc. reflexivity.
Qed.

Lemma unspace_tail (l : list string) (rest : string) :
  Forall (fun v => stable v /\ v ≠ EmptyString) l ->
  unspace (tail_join ", " l +:+ rest) = tail_join "," (map spaced l) +:+ unspace rest.
Proof.
  induction 1 as [|v l [Hv Hne] _ IH]; [reflexivity|].
  cbn [map tail_join foldr]. fold (tail_join ", " l). fold (tail_join "," (map spaced l)).
  rewrite !append_assoc. rewrite !append_cons, !append_nil_l.
  rewrite unspace_comma, (unspace_spaced v _ Hv Hne), IH. reflexivity.
Qed.

(** One list of items, joined by [", "]: the replacement of [" M"] turns
    it into the join of its tokens by [","]. *)
Lemma unspace_col (col : list string) (rest : string) :
  col ≠ [] -> Forall (fun v => stable v /\ v ≠ EmptyString) col ->
  unspace (join ", " col +:+ rest) = join "," (tokens col) +:+ unspace rest.
Proof.
  destruct col as [|v l]; [congruence|]. intros _ H.
  apply Forall_cons in H as [[Hv _] Hl]. cbn [tokens].
  rewrite !join_tail, !append_assoc, Hv, (unspace_tail l rest Hl). reflexivity.
Qed.

Lemma unspace_cols_tail (cols : list (list string)) (rest : string) :
  Forall (fun col => col ≠ [] /\ Forall (fun v => stable v /\ v ≠ EmptyString) col) cols ->
  unspace (tail_join "," (map (join ", ") cols) +:+ rest)
  = tail_join "," (concat (map tokens cols)) +:+ unspace rest.
Proof.
  induction 1 as [|col cols [Hne Hcol] _ IH]; [reflexivity|].
  cbn [map concat]. rewrite tail_join_app.
  cbn [tail_join foldr]. fold (tail_join "," (map (join ", ") cols)).
  rewrite !append_assoc, append_cons, append_nil_l, unspace_comma.
  rewrite (unspace_col col _ Hne Hcol), IH.
  destruct col as [|v l]; [congruence|]. cbn [tokens].
  rewrite tail_join_cons, !append_assoc, append_cons, append_nil_l. reflexivity.
Qed.

(** The lists of the chains, each joined by [", "] and all of them by
    [","]: the replacement of [" M"] leaves the join of all the tokens. *)
Lemma unspace_cols (cols : list (list string)) :
  cols ≠ [] ->
  Forall (fun col => col ≠ [] /\ Forall (fun v => stable v /\ v ≠ EmptyString) col) cols ->
  unspace (join "," (map (join ", ") cols)) = join "," (concat (map tokens cols)).
Proof.
  destruct cols as [|col cols]; [congruence|]. intros _ H.
  apply Forall_cons in H as [[Hne Hcol] Hcols]. cbn [map concat].
  rewrite join_tail.
  rewrite <- (append_nil_r (tail_join "," (map (join ", ") cols))).
  rewrite (unspace_col col _ Hne Hcol), (unspace_cols_tail cols _ Hcols).
  destruct col as [|v l]; [congruence|]. cbn [tokens app].
  rewrite !join_tail, tail_join_app, !append_assoc. cbn [unspace].
  rewrite append_nil_r. reflexivity.
Qed.

(** ** The test of [filter_all] on a join of tokens *)

Lemma prefix_nil (t : string) : String.prefix EmptyString t = true.
Proof. destruct t; reflexivity. Qed.

Lemma contains_char (t : string) (c : ascii) :
  contains t (String c EmptyString) = true <-> c ∈ list_ascii_of_string t.
Proof.
  induction t as [|d t IH]; cbn [contains String.prefix list_ascii_of_string].
  - split; [discriminate | intros H; inversion H].
  - rewrite orb_true_iff, IH, elem_of_cons.
    destruct (ascii_dec c d) as [->|Hne].
    + rewrite prefix_nil. tauto.
    + split; [intros [H|H]; [discriminate | right; exact H]|].
      intros [H|H]; [congruence | right; exact H].
Qed.

Lemma first_word_nonempty (t w : string) : first_word t = Ok w -> t ≠ EmptyString.
Proof. intros H ->. discriminate H. Qed.

Lemma first_word_spaced (v : string) : first_word (spaced v) = first_word v.
Proof. unfold spaced. destruct (starts_with_M v); reflexivity. Qed.

Lemma word_solid (v : string) :
  Forall (fun c => isspace c = false) (list_ascii_of_string v) -> word v = v.
Proof.
  induction v as [|c v IH]; [reflexivity|]. cbn [list_ascii_of_string word].
  intros H. apply Forall_cons in H as [Hc Hv]. rewrite Hc, (IH Hv). reflexivity.
Qed.

Lemma first_word_solid (v : string) :
  v ≠ EmptyString -> Forall (fun c => isspace c = false) (list_ascii_of_string v) ->
  first_word v = Ok v.
Proof.
  destruct v as [|c v]; [congruence|]. intros _ H.
  cbn [first_word]. pose proof H as H'. cbn [list_ascii_of_string] in H'.
  apply Forall_cons in H' as [Hc _]. rewrite Hc. rewrite (word_solid _ H). reflexivity.
Qed.

Lemma strip_commas_head (c : ascii) (s : string) :
  c ≠ ","%char -> strip_commas (String c s) = Ok (String c s).
Proof. intros Hc. cbn [strip_commas]. rewrite decide_False by exact Hc. reflexivity. Qed.

(** The test on a join of tokens, none of them with a comma and each with
    a first word: it returns, and it returns [True] exactly when the first
    word of every token is [Mutation]. *)
Lemma only_mutation_messages_tokens (ts : list string) :
  ts ≠ [] ->
  Forall (fun t => (","%char ∉ list_ascii_of_string t) /\ exists w, first_word t = Ok w) ts ->
  exists b,
    only_mutation_messages (join "," ts) = Ok b /\
    (b = true <-> Forall (fun t => first_word t = Ok "Mutation"%string) ts).
Proof.
  intros Hne Hall.
  assert (exists ws, Forall2 (fun t w => first_word t = Ok w) ts ws) as [ws Hws].
  { clear Hne. induction Hall as [|t ts' [_ [w Hw]] _ [ws IH]]; [exists []; constructor|].
    exists (w :: ws). constructor; assumption. }
  destruct ts as [|t1 ts]; [congruence|]. clear Hne.
  pose proof Hall as Hall'. apply Forall_cons in Hall' as [[Hc1 [w1 Hw1]] _].
  destruct t1 as [|c1 t1]; [discriminate Hw1|].
  assert (c1 ≠ ","%char) as Hc.
  { intros ->. apply Hc1. left. }
  unfold only_mutation_messages.
  destruct ts as [|t2 ts].
  - cbn [join]. rewrite (strip_commas_head c1 t1 Hc). cbn [mbind result_bind Py.bind].
    destruct (contains (String c1 t1) ",") eqn:Hcont.
    { apply contains_char in Hcont. contradiction. }
    rewrite decide_False by discriminate. rewrite Hw1. cbn [mbind result_bind Py.bind].
    eexists. split; [reflexivity|]. rewrite bool_decide_eq_true. split.
    + intros ->. constructor; [exact Hw1 | constructor].
    + intros H. apply Forall_cons in H as [H _]. congruence.
  - rewrite join_cons by discriminate. rewrite append_cons.
    rewrite (strip_commas_head c1 _ Hc). cbn [mbind result_bind Py.bind].
    rewrite <- append_cons. rewrite <- (join_cons "," (String c1 t1) (t2 :: ts)) by discriminate.
    destruct (contains (join "," (String c1 t1 :: t2 :: ts)) ",") eqn:Hcont.
    + rewrite split_join; [|discriminate|].
      * rewrite (mapM_Forall2_Ok _ _ _ Hws). cbn [mbind result_bind Py.bind].
        eexists. split; [reflexivity|]. rewrite bool_decide_eq_true, list_to_set_all.
        split.
        -- intros [_ Hm]. clear -Hws Hm.
           induction Hws as [|t w ts' ws' Htw _ IH]; [constructor|].
           apply Forall_cons in Hm as [-> Hm]. constructor; [exact Htw | exact (IH Hm)].
        -- intros Hm. split.
           ++ inversion Hws; discriminate.
           ++ clear -Hws Hm.
              induction Hws as [|t w ts' ws' Htw _ IH]; [constructor|].
              apply Forall_cons in Hm as [Ht Hm]. constructor; [congruence | exact (IH Hm)].
      * eapply Forall_impl; [exact Hall|]. intros t [Ht _]. exact Ht.
    + exfalso. assert (contains (join "," (String c1 t1 :: t2 :: ts)) "," = true) as Ht;
        [|congruence].
      apply contains_char. rewrite join_cons by discriminate.
      rewrite !chars_app. apply elem_of_app. right. apply elem_of_app. left. left.
Qed.

(** ** The cell [AA_in_PDB] through the replacements *)

Lemma apply_replacements_unspace (s : string) :
  apply_replacements s = unspace (strip_separators s).
Proof.
  unfold apply_replacements, strip_separators, replacements. cbn [foldl].
  rewrite !replace_char, replace_space_M. reflexivity.
Qed.

Lemma strip_separators_app (a b : string) :
  strip_separators (a +:+ b) = strip_separators a +:+ strip_separators b.
Proof. unfold strip_separators. rewrite !subst_char_app. reflexivity. Qed.

Lemma strip_separators_join (sep : string) (l : list string) :
  strip_separators (join sep l) = join (strip_separators sep) (map strip_separators l).
Proof.
  unfold strip_separators. rewrite !subst_char_join, !map_map. reflexivity.
Qed.

Lemma strip_separators_none (v : string) :
  Forall (fun c => c ∉ separators) (list_ascii_of_string v) -> strip_separators v = v.
Proof.
  intros H. unfold strip_separators.
  assert (forall x, x ∈ separators -> x ∉ list_ascii_of_string v) as Hx.
  { intros x Hx Hin. exact (proj1 (Forall_forall _ _) H x Hin Hx). }
  rewrite (subst_char_none ";") by (apply Hx; unfold separators; set_solver).
  rewrite (subst_char_none "[") by (apply Hx; unfold separators; set_solver).
  rewrite (subst_char_none "]") by (apply Hx; unfold separators; set_solver).
  rewrite (subst_char_none "'") by (apply Hx; unfold separators; set_solver).
  reflexivity.
Qed.

(** The printed lists of the chains, joined by [;]: the first four
    replacements leave the items, joined by [", "] in a chain and by [","]
    between the chains. *)
Lemma strip_separators_cols (cols : list (list string)) :
  Forall (Forall (fun v => Forall (fun c => c ∉ separators) (list_ascii_of_string v))) cols ->
  strip_separators (join ";" (map str_of_list cols)) = join "," (map (join ", ") cols).
Proof.
  intros H. rewrite strip_separators_join, map_map.
  change (strip_separators ";") with ","%string. f_equal.
  apply map_ext_Forall. eapply Forall_impl; [exact H|]. intros col Hcol. cbn beta.
  unfold str_of_list. rewrite !strip_separators_app, strip_separators_join, map_map.
  change (strip_separators "[") with EmptyString.
  change (strip_separators "]") with EmptyString.
  change (strip_separators ", ") with ", "%string.
  rewrite append_nil_l, append_nil_r. f_equal.
  rewrite <- (map_id col) at 2. apply map_ext_Forall.
  eapply Forall_impl; [exact Hcol|]. intros v Hv. cbn beta.
  rewrite !strip_separators_app, (strip_separators_none v Hv).
  change (strip_separators "'") with EmptyString.
  rewrite append_nil_l, append_nil_r. reflexivity.
Qed.

Lemma plain_nonempty (v : string) : plain v -> v ≠ EmptyString.
Proof. intros (_ & _ & w & Hw). exact (first_word_nonempty v w Hw). Qed.

Lemma plain_no_comma (v : string) : plain v -> ","%char ∉ list_ascii_of_string v.
Proof.
  intros (H & _ & _) Hin. apply (proj1 (Forall_forall _ _) H _ Hin).
  unfold separators. set_solver.
Qed.

Lemma Forall_tokens (R : string -> Prop) (col : list string) :
  (forall v, R (spaced v) <-> R v) -> Forall R (tokens col) <-> Forall R col.
Proof.
  intros HR. destruct col as [|v l]; [reflexivity|]. cbn [tokens].
  rewrite !Forall_cons, Forall_fmap. apply and_iff_compat_l.
  apply Forall_proper; [|reflexivity]. intros x. apply HR.
Qed.

Lemma spaced_no_comma (v : string) :
  ","%char ∉ list_ascii_of_string (spaced v) <-> ","%char ∉ list_ascii_of_string v.
Proof.
  unfold spaced. destruct (starts_with_M v); [reflexivity|].
  cbn [list_ascii_of_string]. rewrite not_elem_of_cons. split; [tauto|].
  intros H. split; [discriminate | exact H].
Qed.

(** The test of [filter_all] on the lists of the chains after the
    replacements: it returns, and it returns [True] exactly when every
    item of every chain is a message. *)
Lemma only_mutation_messages_cols (cols : list (list string)) :
  cols ≠ [] -> Forall (fun col => col ≠ [] /\ Forall plain col) cols ->
  exists b,
    only_mutation_messages (unspace (join "," (map (join ", ") cols))) = Ok b /\
    (b = true <-> Forall (Forall message) cols).
Proof.
  intros Hne Hall. rewrite unspace_cols; [|exact Hne|].
  - destruct (only_mutation_messages_tokens (concat (map tokens cols))) as (b & Hb & Hiff).
    + destruct cols as [|[|v l] cols]; [congruence| |discriminate].
      apply Forall_cons in Hall as [[H _] _]. congruence.
    + apply Forall_concat, Forall_fmap. eapply Forall_impl; [exact Hall|].
      intros col [_ Hcol]. cbn.
      apply (Forall_tokens
               (fun t => (","%char ∉ list_ascii_of_string t) /\ exists w, first_word t = Ok w)).
      * intros v. rewrite spaced_no_comma, first_word_spaced. reflexivity.
      * eapply Forall_impl; [exact Hcol|]. intros v Hv.
        split; [apply plain_no_comma; exact Hv | apply Hv].
    + exists b. split; [exact Hb|]. rewrite Hiff, Forall_concat, Forall_fmap.
      apply Forall_proper; [|reflexivity]. intros col. cbn.
      apply (Forall_tokens (fun t => first_word t = Ok "Mutation"%string)).
      intros v. rewrite first_word_spaced. reflexivity.
  - eapply Forall_impl; [exact Hall|]. intros col [Hc Hcol]. split; [exact Hc|].
    eapply Forall_impl; [exact Hcol|]. intros v Hv.
    split; [apply Hv | apply plain_nonempty; exact Hv].
Qed.

(** ** The strings that the resolvers write *)

Ltac solve_solid :=
  split;
  [ unfold separators; rewrite !not_elem_of_cons;
    repeat split; try discriminate; apply not_elem_of_nil
  | reflexivity ].

Lemma digit_solid (c : ascii) :
  c ∈ list_ascii_of_string "-0123456789" ->
  solid c /\ c ≠ "M"%char /\ c ≠ " "%char.
Proof.
  cbn [list_ascii_of_string]. intros H.
  repeat (apply elem_of_cons in H as [->|H];
          [split; [solve_solid | split; discriminate]|]).
  inversion H.
Qed.

Lemma string_of_uint_digits (d : Decimal.uint) :
  Forall (fun c => c ∈ list_ascii_of_string "-0123456789")
         (list_ascii_of_string (NilEmpty.string_of_uint d)).
Proof.
  induction d; cbn [NilEmpty.string_of_uint list_ascii_of_string];
    [constructor | constructor; [|assumption]..];
    cbn [list_ascii_of_string]; repeat first [left; reflexivity | right].
Qed.

Lemma nilzero_string_of_uint_digits (d : Decimal.uint) :
  NilZero.string_of_uint d ≠ EmptyString /\
  Forall (fun c => c ∈ list_ascii_of_string "-0123456789")
         (list_ascii_of_string (NilZero.string_of_uint d)).
Proof.
  split.
  - destruct d; discriminate.
  - destruct d; try apply (string_of_uint_digits (_ _)).
    cbn. constructor; [|constructor]. repeat first [left; reflexivity | right].
Qed.

Lemma str_of_Z_digits (z : Z) :
  str_of_Z z ≠ EmptyString /\
  Forall (fun c => c ∈ list_ascii_of_string "-0123456789") (list_ascii_of_string (str_of_Z z)).
Proof.
  unfold str_of_Z, NilZero.string_of_int. destruct (Z.to_int z) as [d|d].
  - apply nilzero_string_of_uint_digits.
  - split; [discriminate|]. cbn [list_ascii_of_string].
    constructor; [left | apply nilzero_string_of_uint_digits].
Qed.

Lemma residue_letter_solid (c : ascii) : residue_letter c -> solid c.
Proof.
  intros [H| ->]; [|solve_solid]. split.
  - unfold separators. rewrite !not_elem_of_cons.
    repeat split; try apply not_elem_of_nil; intros ->; vm_compute in H; lia.
  - unfold isspace.
    repeat match goal with
           | |- context [(?a <=? ?b)%nat] => destruct (Nat.leb_spec a b)
           | |- context [(?a =? ?b)%nat] => destruct (Nat.eqb_spec a b)
           end; cbn; try reflexivity; lia.
Qed.

Lemma plain_solid (v : string) :
  v ≠ EmptyString -> Forall solid (list_ascii_of_string v) ->
  plain v /\ first_word v = Ok v.
Proof.
  intros Hne H.
  assert (first_word v = Ok v) as Hw.
  { apply first_word_solid; [exact Hne|]. eapply Forall_impl; [exact H|]. intros c [_ Hc].
    exact Hc. }
  split; [|exact Hw]. split; [|split].
  - eapply Forall_impl; [exact H|]. intros c [Hc _]. exact Hc.
  - apply stable_nospace. intros Hin.
    destruct (proj1 (Forall_forall _ _) H _ Hin) as [_ Hs]. discriminate Hs.
  - exists v. exact Hw.
Qed.

(** A rendered residue: a letter, a number, a letter.  It is plain, and it
    is its own first word, which is not [Mutation]. *)
Lemma rendered_plain (a b : ascii) (z : Z) :
  residue_letter a -> residue_letter b ->
  let v := String a (str_of_Z z +:+ String b EmptyString) in
  plain v /\ ~ message v.
Proof.
  intros Ha Hb v.
  destruct (plain_solid v) as [Hp Hw]; [discriminate| |].
  - subst v. cbn [list_ascii_of_string]. rewrite chars_app.
    constructor; [apply residue_letter_solid; exact Ha|].
    apply Forall_app. split.
    + eapply Forall_impl; [apply str_of_Z_digits|]. intros c Hc. apply digit_solid. exact Hc.
    + constructor; [apply residue_letter_solid; exact Hb | constructor].
  - split; [exact Hp|]. unfold message. rewrite Hw. subst v.
    destruct (str_of_Z_head z) as (c & s & -> & Hc). rewrite append_cons.
    intros H. inversion H. congruence.
Qed.

Ltac solve_stable :=
  repeat first [ apply stable_nil
               | apply stable_cons; [discriminate|]
               | apply stable_space; [discriminate|] ].

Lemma not_in_range_plain (position : Z) :
  plain (not_in_range position) /\ message (not_in_range position).
Proof.
  split; [|reflexivity]. split; [|split].
  - unfold not_in_range. rewrite !chars_app. rewrite !Forall_app. split; [|split].
    + apply (bool_decide_unpack (Forall _ _)). vm_compute. exact I.
    + eapply Forall_impl; [apply str_of_Z_digits|]. intros c Hc. apply digit_solid. exact Hc.
    + apply (bool_decide_unpack (Forall _ _)). vm_compute. exact I.
  - change (not_in_range position)
      with ("Mutation on position" +:+ String " " (str_of_Z position) +:+ " not in range").
    apply stable_app; [solve_stable|]. apply stable_app; [|solve_stable].
    destruct (str_of_Z_digits position) as [Hne Hd].
    destruct (str_of_Z position) as [|d s] eqn:Hs; [congruence|].
    apply stable_space.
    + apply digit_solid. apply (proj1 (Forall_forall _ _) Hd). left.
    + apply stable_nospace. intros Hin.
      apply (proj1 (Forall_forall _ _) Hd) in Hin. apply digit_solid in Hin. tauto.
  - exists "Mutation"%string. reflexivity.
Qed.

Lemma literal_messages :
  (plain "Mutation not in range" /\ message "Mutation not in range") /\
  (plain "NA" /\ ~ message "NA").
Proof.
  split; split.
  - split; [|split].
    + apply (bool_decide_unpack (Forall _ _)). vm_compute. exact I.
    + solve_stable.
    + exists "Mutation"%string. reflexivity.
  - reflexivity.
  - split; [|split].
    + apply (bool_decide_unpack (Forall _ _)). vm_compute. exact I.
    + solve_stable.
    + exists "NA"%string. reflexivity.
  - unfold message. cbn. discriminate.
Qed.

(** ** Which structures [filter_all] drops *)

Lemma filter_all_drops_cols (cols : list (list string)) :
  cols ≠ [] -> Forall (fun col => col ≠ [] /\ Forall plain col) cols ->
  exists b,
    filter_all_drops (join ";" (map str_of_list cols)) = Ok b /\
    (b = true <-> Forall (Forall message) cols).
Proof.
  intros Hne Hall. unfold filter_all_drops.
  rewrite apply_replacements_unspace, strip_separators_cols.
  - apply only_mutation_messages_cols; assumption.
  - eapply Forall_impl; [exact Hall|]. intros col [_ Hcol].
    eapply Forall_impl; [exact Hcol|]. intros v Hv. apply Hv.
Qed.

Lemma filter_all_drops_items (vs : list string) :
  vs ≠ [] -> Forall plain vs ->
  exists b,
    filter_all_drops (join "," vs) = Ok b /\ (b = true <-> Forall message vs).
Proof.
  intros Hne Hall. unfold filter_all_drops.
  rewrite apply_replacements_unspace, strip_separators_join.
  change (strip_separators ",") with ","%string.
  rewrite (map_id_on strip_separators vs)
    by (eapply Forall_impl; [exact Hall|]; intros v Hv; apply strip_separators_none, Hv).
  assert (join "," vs = join "," (map (join ", ") (map (fun v => [v]) vs))) as ->.
  { rewrite map_map. cbn [join]. rewrite map_id. reflexivity. }
  destruct (only_mutation_messages_cols (map (fun v => [v]) vs)) as (b & Hb & Hiff).
  - intros H. apply fmap_nil_inv in H. contradiction.
  - apply Forall_fmap. eapply Forall_impl; [exact Hall|]. intros v Hv. cbn.
    split; [discriminate | constructor; [exact Hv | constructor]].
  - exists b. split; [exact Hb|]. rewrite Hiff, Forall_fmap.
    apply Forall_proper; [|reflexivity]. intros v. cbn.
    rewrite Forall_cons. split; [tauto|]. intros H. split; [exact H | constructor].
Qed.

Lemma verdict_plain (df : list row) (position : Z) :
  Forall (fun r => residue_letter (uniprot_seq r) /\ residue_letter (pdb_seq r)) df ->
  plain (verdict df position) /\
  (message (verdict df position) <-> position ∉ map uniprot_pos df).
Proof.
  intros Hdf. rewrite <- filter_position_nil. unfold verdict.
  destruct (filter _ df) as [|r rs] eqn:Hf.
  - split; [apply not_in_range_plain|]. split; [reflexivity | intros _; apply not_in_range_plain].
  - assert (r ∈ df) as Hr.
    { assert (r ∈ r :: rs) as H by left. rewrite <- Hf in H.
      apply list_elem_of_filter in H. apply H. }
    destruct (proj1 (Forall_forall _ _) Hdf r Hr) as [Hu Hp].
    destruct (rendered_plain (uniprot_seq r) (pdb_seq r) (uniprot_pos r) Hu Hp) as [Hpl Hnm].
    split; [exact Hpl|]. split; [intros H; contradiction | discriminate].
Qed.

(** X25.  Which experimental structures the first loop of [filter_all]
    drops.  The cell [AA_in_PDB] joins by [;] the printed list that the
    mutation resolver returned for each recorded chain.  With at least one
    queried position and one recorded chain, and residues written as
    capital letters, the test returns (no exception), and the row is
    dropped exactly when no queried position is a reference position of the
    table of any chain: one covered position in one chain keeps the
    structure. *)
Theorem filter_all_drops_uncovered (set_iter : list Z -> list Z) (mut_pos : list Z)
    (dfs : list (list row)) (cols : list (list string)) :
  enumerates (set_iter mut_pos) mut_pos ->
  mut_pos ≠ [] -> dfs ≠ [] ->
  Forall (Forall (fun r => residue_letter (uniprot_seq r) /\ residue_letter (pdb_seq r))) dfs ->
  Forall2 (fun df col => get_mutations set_iter mut_pos df = Ok col) dfs cols ->
  exists b,
    filter_all_drops (join ";" (map str_of_list cols)) = Ok b /\
    (b = true <-> forall df p, df ∈ dfs -> p ∈ mut_pos -> p ∉ map uniprot_pos df).
Proof.
  intros [Hnd Hel] Hmut Hdfs Hletters Hcols.
  assert (cols = map (fun df => map (verdict df) (set_iter mut_pos)) dfs) as ->.
  { clear -Hcols. induction Hcols as [|df col dfs cols Hc _ IH]; [reflexivity|].
    rewrite get_mutations_map in Hc. inversion Hc; subst. reflexivity. }
  assert (set_iter mut_pos ≠ []) as Hps.
  { destruct mut_pos as [|p l]; [congruence|]. intros Hnil.
    assert (p ∈ set_iter (p :: l)) as H by (apply Hel; left).
    rewrite Hnil in H. inversion H. }
  destruct (filter_all_drops_cols (map (fun df => map (verdict df) (set_iter mut_pos)) dfs))
    as (b & Hb & Hiff).
  - intros H. apply fmap_nil_inv in H. contradiction.
  - apply Forall_fmap. eapply Forall_impl; [exact Hletters|]. intros df Hdf. cbn. split.
    + intros H. apply fmap_nil_inv in H. contradiction.
    + apply Forall_fmap, Forall_forall. intros p _. apply verdict_plain. exact Hdf.
  - exists b. split; [exact Hb|]. rewrite Hiff, Forall_fmap, Forall_forall. split.
    + intros H df p Hdf Hp. specialize (H df Hdf). cbn in H.
      rewrite Forall_fmap, Forall_forall in H.
      apply (verdict_plain df p (proj1 (Forall_forall _ _) Hletters df Hdf)).
      apply H. apply Hel. exact Hp.
    + intros H df Hdf. cbn. rewrite Forall_fmap, Forall_forall. intros p Hp. cbn.
      apply (verdict_plain df p (proj1 (Forall_forall _ _) Hletters df Hdf)).
      apply (H df p Hdf). apply Hel. exact Hp.
Qed.

Lemma af_expected_plain (letters : list ascii) (ATOMS : list atom) (q : query) :
  length letters = length ATOMS ->
  Forall residue_letter letters ->
  let v := af_expected letters (map b_factor ATOMS) q in
  plain v /\
  (message v <-> q ≠ QStr "NA" /\ forall z, q = QInt z -> ~ high_confidence ATOMS z).
Proof.
  intros Hlen Hletters v.
  destruct (af_expected_cases letters ATOMS q Hlen)
    as [[-> Hv]|[(z & c & -> & Hhigh & Hc & Hv)|(Hq & Hlow & Hv)]]; fold v in Hv; rewrite Hv.
  - split; [apply literal_messages|]. split.
    + intros H. exfalso. revert H. apply literal_messages.
    + intros [H _]. congruence.
  - assert (residue_letter c) as Hl.
    { apply (proj1 (Forall_forall _ _) Hletters). eapply list_elem_of_lookup_2. exact Hc. }
    destruct (rendered_plain c c z Hl Hl) as [Hp Hnm].
    split; [exact Hp|]. split; [intros H; contradiction|].
    intros [_ H]. exfalso. exact (H z eq_refl Hhigh).
  - split; [apply literal_messages|]. split; [intros _; split; assumption|].
    intros _. apply literal_messages.
Qed.

(** X26.  Which predicted models the first loop of [filter_all] drops.
    With at least one query and residues written as capital letters,
    [align_alphafold] returns and the test on its cell [AA_in_PDB] returns
    (no exception); the row is dropped exactly when some score exceeds 70
    and yet no query is "NA" or a position whose score exceeds 70.  A model
    without any score above 70 has the cell "NA" and is kept. *)
Theorem filter_all_drops_alphafold
    (seq1 : string -> string) (ATOMS : list atom) (mutation_positions : list query) :
  let letters := list_ascii_of_string (seq1 (join EmptyString (map residue_name ATOMS))) in
  length letters = length ATOMS ->
  Forall residue_letter letters ->
  mutation_positions ≠ [] ->
  exists coverage AA_in_PDB b,
    align_alphafold seq1 ATOMS mutation_positions = Ok (coverage, AA_in_PDB) /\
    filter_all_drops AA_in_PDB = Ok b /\
    (b = true <->
     confident_positions ATOMS ≠ [] /\
     Forall (fun q => q ≠ QStr "NA" /\ forall z, q = QInt z -> ~ high_confidence ATOMS z)
            mutation_positions).
Proof.
  intros letters Hlen Hletters Hqs. unfold align_alphafold. fold letters.
  rewrite decide_False by (intros H; apply H; exact Hlen).
  rewrite (af_rows_confident_from ATOMS letters 1 Hlen).
  fold (confident_positions ATOMS).
  destruct (confident_positions ATOMS) as [|first rest] eqn:Hc.
  - exists "NA"%string, "NA"%string, false. split; [reflexivity|].
    split; [vm_compute; reflexivity|]. split; [discriminate | intros [H _]; congruence].
  - destruct (last (first :: rest)) as [final|] eqn:Hlast;
      [|apply last_None in Hlast; discriminate].
    rewrite (bound_pairs_restart (first :: rest) first final Hlast).
    cbn [mbind result_bind Py.bind].
    set (df := af_rows _ _ _).
    assert (mapM (af_verdict df) mutation_positions
            = Ok (map (af_expected letters (map b_factor ATOMS)) mutation_positions)) as ->.
    { apply mapM_Forall2_Ok, Forall2_fmap_r, Forall_Forall2_diag, Forall_forall.
      intros q _. subst df. rewrite <- Hlen. apply af_verdict_expected. }
    cbn [mbind result_bind Py.bind].
    destruct (filter_all_drops_items
                (map (af_expected letters (map b_factor ATOMS)) mutation_positions))
      as (b & Hb & Hiff).
    + intros H. apply fmap_nil_inv in H. contradiction.
    + apply Forall_fmap, Forall_forall. intros q _.
      apply (af_expected_plain letters ATOMS q Hlen Hletters).
    + eexists _, _, b. split; [reflexivity|]. split; [exact Hb|].
      rewrite Hiff, Forall_fmap. split.
      * intros H. split; [discriminate|]. eapply Forall_impl; [exact H|].
        intros q Hq. apply (af_expected_plain letters ATOMS q Hlen Hletters). exact Hq.
      * intros [_ H]. eapply Forall_impl; [exact H|].
        intros q Hq. apply (af_expected_plain letters ATOMS q Hlen Hletters). exact Hq.
Qed.

Lemma strip_separators_commas (s : string) :
  Forall (fun c => c ∈ separators) (list_ascii_of_string s) ->
  Forall (fun c => c = ","%char) (list_ascii_of_string (strip_separators s)).
Proof.
  induction s as [|c s IH]; [constructor|]. cbn [list_ascii_of_string].
  intros H. apply Forall_cons in H as [Hc Hs].
  change (String c s) with (String c EmptyString +:+ s).
  rewrite strip_separators_app, chars_app. apply Forall_app. split; [|exact (IH Hs)].
  unfold separators in Hc.
  repeat (apply elem_of_cons in Hc as [->|Hc]; [vm_compute; repeat constructor|]).
  inversion Hc.
Qed.

Lemma strip_commas_all (s : string) :
  Forall (fun c => c = ","%char) (list_ascii_of_string s) ->
  unspace s = s /\ strip_commas s = Raise IndexError.
Proof.
  induction s as [|c s IH]; [split; reflexivity|]. cbn [list_ascii_of_string].
  intros H. apply Forall_cons in H as [-> Hs]. destruct (IH Hs) as [Hu Hr].
  split.
  - rewrite unspace_comma, Hu. reflexivity.
  - cbn [strip_commas]. rewrite decide_True by reflexivity. exact Hr.
Qed.

(** X27.  A cell [AA_in_PDB] that holds nothing but separators (the empty
    cell of a structure for which no position was queried, or the printed
    empty lists of its chains) makes the first loop of [filter_all] raise
    an [IndexError]: the branch that would drop a row with an empty string
    is never reached. *)
Theorem filter_all_drops_separators (AA_in_PDB : string) :
  Forall (fun c => c ∈ separators) (list_ascii_of_string AA_in_PDB) ->
  filter_all_drops AA_in_PDB = Raise IndexError.
Proof.
  intros H. unfold filter_all_drops. rewrite apply_replacements_unspace.
  destruct (strip_commas_all _ (strip_separators_commas _ H)) as [-> Hr].
  unfold only_mutation_messages. rewrite Hr. reflexivity.
Qed.


Lemma filter_all_drops_uncovered_witness :
  let df1 := [ {| uniprot_seq := "M"; uniprot_pos := 1; pdb_seq := "M"; pdb_pos := 1 |};
               {| uniprot_seq := "K"; uniprot_pos := 2; pdb_seq := "R"; pdb_pos := 2 |} ] in
  let df2 := [ {| uniprot_seq := "T"; uniprot_pos := 3; pdb_seq := "T"; pdb_pos := 3 |} ] in
  let mut_pos := [2; 9] in
  let dfs := [df1; df2] in
  let cols := [ ["Mutation on position 9 not in range"; "K2R"];
                ["Mutation on position 9 not in range";
                 "Mutation on position 2 not in range"] ]%string in
  enumerates (CPython.set_iter mut_pos) mut_pos /\
  mut_pos ≠ [] /\ dfs ≠ [] /\
  Forall (Forall (fun r => residue_letter (uniprot_seq r) /\ residue_letter (pdb_seq r))) dfs /\
  Forall2 (fun df col => get_mutations CPython.set_iter mut_pos df = Ok col) dfs cols /\
  exists b,
    filter_all_drops (join ";" (map str_of_list cols)) = Ok b /\
    (b = true <-> forall df p, df ∈ dfs -> p ∈ mut_pos -> p ∉ map uniprot_pos df).
Proof.
  intros df1 df2 mut_pos dfs cols.
  assert (enumerates (CPython.set_iter mut_pos) mut_pos) as Hen.
  { split; [vm_compute; apply (bool_decide_unpack (NoDup _)); vm_compute; exact I|].
    intros x. vm_compute CPython.set_iter. subst mut_pos.
    rewrite !elem_of_cons. tauto. }
  assert (mut_pos ≠ []) as Hmut by discriminate.
  assert (dfs ≠ []) as Hdfs by discriminate.
  assert (Forall (Forall (fun r => residue_letter (uniprot_seq r) /\
                                   residue_letter (pdb_seq r))) dfs) as Hletters.
  { repeat constructor; left; vm_compute; lia. }
  assert (Forall2 (fun df col => get_mutations CPython.set_iter mut_pos df = Ok col) dfs cols)
    as Hcols by (repeat constructor; vm_compute; reflexivity).
  split; [exact Hen|]. split; [exact Hmut|]. split; [exact Hdfs|].
  split; [exact Hletters|]. split; [exact Hcols|].
  exact (filter_all_drops_uncovered CPython.set_iter mut_pos dfs cols
           Hen Hmut Hdfs Hletters Hcols).
Defined.

Lemma filter_all_drops_alphafold_witness :
  let ATOMS := [ {| residue_name := "MET"; b_factor := 90 |};
                 {| residue_name := "LYS"; b_factor := 90.5 |};
                 {| residue_name := "THR"; b_factor := 40 |};
                 {| residue_name := "ALA"; b_factor := 90 |} ] in
  let mutation_positions := [QInt 3; QInt 7] in
  let letters := list_ascii_of_string (seq1_standard (join EmptyString (map residue_name ATOMS))) in
  length letters = length ATOMS /\
  Forall residue_letter letters /\
  mutation_positions ≠ [] /\
  exists coverage AA_in_PDB b,
    align_alphafold seq1_standard ATOMS mutation_positions = Ok (coverage, AA_in_PDB) /\
    filter_all_drops AA_in_PDB = Ok b /\
    (b = true <->
     confident_positions ATOMS ≠ [] /\
     Forall (fun q => q ≠ QStr "NA" /\ forall z, q = QInt z -> ~ high_confidence ATOMS z)
            mutation_positions).
Proof.
  intros ATOMS mutation_positions letters.
  assert (Forall residue_letter letters) as Hletters.
  { vm_compute list_ascii_of_string. repeat constructor; left; vm_compute; lia. }
  assert (mutation_positions ≠ []) as Hqs by discriminate.
  split; [reflexivity|]. split; [exact Hletters|]. split; [exact Hqs|].
  exact (filter_all_drops_alphafold seq1_standard ATOMS mutation_positions
           eq_refl Hletters Hqs).
Defined.

Lemma filter_all_drops_separators_witness :
  Forall (fun c => c ∈ separators) (list_ascii_of_string "[];[]") /\
  filter_all_drops "[];[]" = Raise IndexError.
Proof.
  assert (Forall (fun c => c ∈ separators) (list_ascii_of_string "[];[]")) as H.
  { apply (bool_decide_unpack (Forall _ _)). vm_compute. exact I. }
  split; [exact H|]. exact (filter_all_drops_separators "[];[]" H).
Defined.

(** The cells of the examples, through the first loop of [filter_all]. *)
Example filter_all_drops_examples :
  filter_all_drops "['Mutation on position 9 not in range', 'K2K'];['K2K']" = Ok false /\
  filter_all_drops "['Mutation on position 9 not in range'];['Mutation on position 7 not in range']"
    = Ok true /\
  filter_all_drops "Mutation not in range,K2K" = Ok false /\
  filter_all_drops "NA" = Ok false /\
  filter_all_drops EmptyString = Raise IndexError /\
  filter_all_drops "['K2K'];[]" = Raise IndexError.
Proof. repeat split; vm_compute; reflexivity. Qed.

(** ** Which structures [align] keeps *)

Section AlignRows.

Variable seq1 : string -> string.
Variable localms : string -> string -> list (string * string).
Variable set_iter : list Z -> list Z.
Variable model : gmap string (list residue).
Variable h : header.
Variable uniprot_sequence : string.
Variable uniprot_numbering : list Z.
Variable mut_pos : mutation_positions.

Let loop := chain_loop seq1 localms set_iter model h uniprot_sequence uniprot_numbering mut_pos.
Let run := align_uniprot_pdb seq1 localms set_iter model h uniprot_sequence
             uniprot_numbering mut_pos.




End AlignRows.

